(** * Matting augmentation pipelines: [mmedit/datasets/pipelines/matting_aug.py]

    A shallow embedding of the three sample transforms [MergeFgAndBg],
    [GenerateTrimap] and [CompositeFg], together with the part of NumPy they
    rely on (shapes, broadcasting, element types [uint8] and [float32]).

    - A [float32] is an IEEE 754 binary32 number: [spec_float] with a 24 bit
      mantissa, computed with the operations of [SpecFloat].
    - A [uint8] is a [Z] in [0, 256); every cast writes its wrap-around out.
    - An array is a shape together with its elements in row-major order.
    - A sample record (a Python [dict]) is a [gmap string value].
    - [np.random] is an explicit random source threaded through the calls.
    - [cv2] and [mmcv] are interfaces: the transforms are parametrised by an
      implementation of them. *)

From Stdlib Require Import ZArith QArith Lqa SpecFloat.
From stdpp Require Import base option list gmap strings.

Set Default Proof Using "Type".

(** ** Exceptions and the error monad *)

Inductive exn :=
| KeyError (key : string)
| ValueError
| TypeError
| IndexError
| IOError (path : string)
| CvError.

Inductive result (A : Type) :=
| Ok (a : A)
| Raise (e : exn).
Arguments Ok {A} a.
Arguments Raise {A} e.

#[global] Instance result_ret : MRet result := @Ok.
#[global] Instance result_bind : MBind result := λ A B f m,
  match m with Ok a => f a | Raise e => Raise e end.
#[global] Instance result_fmap : FMap result := λ A B f m,
  match m with Ok a => Ok (f a) | Raise e => Raise e end.

Definition is_Ok {A} (m : result A) : Prop := ∃ a, m = Ok a.

(** ** IEEE 754 binary32 *)

Module Float32.
Definition prec : Z := 24.
Definition emax : Z := 128.

Definition float32 : Type := spec_float.

#[global] Instance float32_inhabited : Inhabited float32 :=
  populate (S754_zero false).

(** An integer literal or a [uint8] converted to [float32]. *)
Definition of_Z (z : Z) : float32 := binary_normalize prec emax z 0 false.

Definition add : float32 → float32 → float32 := SFadd prec emax.
Definition sub : float32 → float32 → float32 := SFsub prec emax.
Definition mul : float32 → float32 → float32 := SFmul prec emax.
Definition div : float32 → float32 → float32 := SFdiv prec emax.
Definition ltb : float32 → float32 → bool := SFltb.
Definition leb : float32 → float32 → bool := SFleb.

(** Integer part, rounding toward zero; 0 for NaN and the infinities. *)
Definition trunc (x : float32) : Z :=
  match x with
  | S754_finite s m e =>
      let q := match e with
               | Zneg p => Z.shiftr (Zpos m) (Zpos p)
               | _ => Z.shiftl (Zpos m) e
               end in
      if s then Z.opp q else q
  | _ => 0%Z
  end.

(** The exact value of a finite [float32]. *)
Definition to_Q (x : float32) : Q :=
  match x with
  | S754_finite s m e => inject_Z (if s then Z.neg m else Z.pos m) * Qpower 2 e
  | _ => 0
  end.

(** The C cast behind [astype(np.uint8)]: truncation, and the low eight
    bits of the integer part when it does not fit. *)
Definition to_uint8 (x : float32) : Z := (trunc x mod 256)%Z.
End Float32.
Import Float32.

(** ** N-dimensional arrays *)

Record nd (A : Type) := Nd { shape : list nat; data : list A }.
Arguments Nd {A} shape data.
Arguments shape {A} _.
Arguments data {A} _.

(** Number of elements of an array of shape [s]. *)
Definition numel (s : list nat) : nat := foldr Nat.mul 1 s.

Definition wf_nd {A} (a : nd A) : Prop := length (data a) = numel (shape a).

(** NumPy aligns shapes on the right: the shorter one gets leading ones. *)
Definition pad (n : nat) (s : list nat) : list nat :=
  replicate (n - length s) 1 ++ s.

Definition broadcast_dim (d e : nat) : option nat :=
  if d =? e then Some d
  else if d =? 1 then Some e
  else if e =? 1 then Some d
  else None.

Fixpoint broadcast_aligned (sa sb : list nat) : option (list nat) :=
  match sa, sb with
  | [], [] => Some []
  | d :: sa', e :: sb' =>
      n ← broadcast_dim d e; s ← broadcast_aligned sa' sb'; Some (n :: s)
  | _, _ => None
  end.

Definition broadcast_shapes (sa sb : list nat) : option (list nat) :=
  let n := length sa `max` length sb in
  broadcast_aligned (pad n sa) (pad n sb).

(** All multi-indices of a shape, in row-major order. *)
Fixpoint indices (s : list nat) : list (list nat) :=
  match s with
  | [] => [[]]
  | n :: s' => i ← seq 0 n; (i ::.) <$> indices s'
  end.

(** Row-major offset of a multi-index; an axis of length one is read at 0
    whatever the index says (this is broadcasting). *)
Fixpoint offset (s idx : list nat) : nat :=
  match s, idx with
  | d :: s', i :: idx' => (if d =? 1 then 0 else i) * numel s' + offset s' idx'
  | _, _ => 0
  end.

(** A multi-index lies inside a shape. *)
Definition in_shape (idx s : list nat) : Prop := Forall2 lt idx s.

(** A multi-index can be read through a shape, broadcasting included. *)
Definition reads (s idx : list nat) : Prop :=
  Forall2 (λ d i, d = 1 ∨ i < d) s idx.

(** [a[idx]], where [idx] may be an index of a larger, broadcast shape. *)
Definition item `{Inhabited A} (a : nd A) (idx : list nat) : A :=
  data a !!! offset (pad (length idx) (shape a)) idx.

Definition map_nd {A B} (f : A → B) (a : nd A) : nd B :=
  Nd (shape a) (f <$> data a).

(** An elementwise binary operation with broadcasting. *)
Definition broadcast2 `{Inhabited A, Inhabited B} {C} (f : A → B → C)
    (a : nd A) (b : nd B) : result (nd C) :=
  match broadcast_shapes (shape a) (shape b) with
  | Some s => Ok (Nd s ((λ idx, f (item a idx) (item b idx)) <$> indices s))
  | None => Raise ValueError
  end.

(** [a[..., None]] *)
Definition expand_dims_last {A} (a : nd A) : nd A :=
  Nd (shape a ++ [1]) (data a).

(** [np.any] of a boolean array. *)
Definition np_any (m : nd bool) : bool := existsb id (data m).

(** [t[mask] = v] for a boolean [mask]: the shape of the mask has to be a
    prefix of the shape of [t], and one mask element selects a whole block. *)
Definition setitem_mask {A} (t : nd A) (mask : nd bool) (v : A) : result (nd A) :=
  if decide (shape mask `prefix_of` shape t) then
    let block := numel (drop (length (shape mask)) (shape t)) in
    let sel := b ← data mask; replicate block b in
    Ok (Nd (shape t) (zip_with (λ (b : bool) x, if b then v else x) sel (data t)))
  else Raise IndexError.

(** ** Arrays with a dtype, values and sample records *)

Inductive ndarray :=
| U8 (a : nd Z)
| F32 (a : nd float32).

Definition nd_shape (a : ndarray) : list nat :=
  match a with U8 x => shape x | F32 x => shape x end.

(** The data of an array fills its shape. *)
Definition wf_ndarray (a : ndarray) : Prop :=
  match a with
  | U8 x => wf_nd x
  | F32 x => wf_nd x
  end.

(** The elements of a [uint8] array are bytes. *)
Definition is_bytes (x : nd Z) : Prop :=
  Forall (λ z, 0 ≤ z < 256)%Z (data x).

(** [a.astype(np.float32)] *)
Definition astype_float32 (a : ndarray) : nd float32 :=
  match a with
  | U8 x => map_nd of_Z x
  | F32 x => x
  end.

(** [a.astype(np.uint8)] of a [float32] array. *)
Definition astype_uint8 (a : nd float32) : nd Z := map_nd to_uint8 a.

(** Binary operators on arrays: two [uint8] arrays stay [uint8] and wrap,
    every other pair is computed in [float32]. *)
Definition np_binop (fz : Z → Z → Z) (ff : float32 → float32 → float32)
    (a b : ndarray) : result ndarray :=
  match a, b with
  | U8 x, U8 y => U8 <$> broadcast2 (λ p q, fz p q `mod` 256)%Z x y
  | _, _ => F32 <$> broadcast2 ff (astype_float32 a) (astype_float32 b)
  end.

Definition np_mul : ndarray → ndarray → result ndarray := np_binop Z.mul mul.
Definition np_add : ndarray → ndarray → result ndarray := np_binop Z.add add.

(** A Python scalar next to a [float32] array is taken as a [float32]. *)
Definition div_scalar (a : nd float32) (k : Z) : nd float32 :=
  map_nd (λ x, div x (of_Z k)) a.
Definition mul_scalar (a : nd float32) (k : Z) : nd float32 :=
  map_nd (λ x, mul x (of_Z k)) a.
Definition rsub_scalar (k : Z) (a : nd float32) : nd float32 :=
  map_nd (λ x, sub (of_Z k) x) a.
Definition lt_scalar (a : nd float32) (k : Z) : nd bool :=
  map_nd (λ x, ltb x (of_Z k)) a.

(** [a >= k] and [a <= k] *)
Definition ge_scalar (a : ndarray) (k : Z) : nd bool :=
  match a with
  | U8 x => map_nd (λ z, k <=? z)%Z x
  | F32 x => map_nd (λ f, leb (of_Z k) f) x
  end.
Definition le_scalar (a : ndarray) (k : Z) : nd bool :=
  match a with
  | U8 x => map_nd (λ z, z <=? k)%Z x
  | F32 x => map_nd (λ f, leb f (of_Z k)) x
  end.

(** [np.zeros_like(a)] followed by [.fill(k)] *)
Definition zeros_like (a : ndarray) : ndarray :=
  match a with
  | U8 x => U8 (map_nd (λ _, 0%Z) x)
  | F32 x => F32 (map_nd (λ _, of_Z 0) x)
  end.
Definition fill (a : ndarray) (k : Z) : ndarray :=
  match a with
  | U8 x => U8 (map_nd (λ _, k `mod` 256)%Z x)
  | F32 x => F32 (map_nd (λ _, of_Z k) x)
  end.
Definition np_setitem_mask (t : ndarray) (mask : nd bool) (k : Z) : result ndarray :=
  match t with
  | U8 x => U8 <$> setitem_mask x mask (k `mod` 256)%Z
  | F32 x => F32 <$> setitem_mask x mask (of_Z k)
  end.

Inductive value :=
| VArray (a : ndarray)
| VTuple (t : list nat)
| VStr (s : string).

(** A sample record. *)
Abbreviation sample := (gmap string value).

(** [results[key]] *)
Definition getitem (results : sample) (key : string) : result value :=
  match results !! key with
  | Some v => Ok v
  | None => Raise (KeyError key)
  end.

Definition as_array (v : value) : result ndarray :=
  match v with VArray a => Ok a | _ => Raise TypeError end.

(** [x, y = t] *)
Definition unpack2 {A} (t : list A) : result (A * A) :=
  match t with [x; y] => Ok (x, y) | _ => Raise ValueError end.

(** ** The random source behind [np.random]

    The global generator is an endless tape of raw draws; a call reads the
    head and moves on. *)

Definition rng : Type := nat → N.

Definition advance (g : rng) : rng := λ n, g (S n).

(** [np.random.randint(low, high)]: an integer of [low, high), or a
    [ValueError] when the interval is empty. *)
Definition randint (low high : Z) (g : rng) : result (Z * rng) :=
  if (low <? high)%Z
  then Ok ((low + Z.of_N (g 0%nat) `mod` (high - low))%Z, advance g)
  else Raise ValueError.

Module Float64.
Definition prec : Z := 53.
Definition emax : Z := 1024.
Definition half : spec_float := S754_finite false 4503599627370496 (-53).
End Float64.

(** [np.random.rand()]: a double of [0, 1) with 53 random bits. *)
Definition rand (g : rng) : spec_float * rng :=
  (binary_normalize Float64.prec Float64.emax
     (Z.of_N (g 0%nat) `mod` 2 ^ 53) (-53) false, advance g).

(** ** The libraries the transforms call *)

Inductive morph_shape := MORPH_RECT | MORPH_CROSS | MORPH_ELLIPSE.

Class Cv2 := {
  getStructuringElement : morph_shape → Z * Z → result ndarray;
  erode : ndarray → ndarray → Z → result ndarray;
  dilate : ndarray → ndarray → Z → result ndarray;
}.

Inductive imread_flag := Color | Grayscale.

(** [cv2.resize], which [mmcv.imresize] wraps, keeps the dtype of its
    input: there is one resize per dtype. *)
Class Mmcv := {
  imread : string → imread_flag → result ndarray;
  imresize_uint8 : nd Z → nat * nat → string → result (nd Z);
  imresize_float32 : nd float32 → nat * nat → string → result (nd float32);
}.

Definition imresize `{Mmcv} (img : ndarray) (size : nat * nat)
    (interpolation : string) : result ndarray :=
  match img with
  | U8 x => U8 <$> imresize_uint8 x size interpolation
  | F32 x => F32 <$> imresize_float32 x size interpolation
  end.

(** [osp.join(a, b)] *)
Definition osp_join (a b : string) : string :=
  if String.prefix "/" b then b
  else if bool_decide (a = "") || String.eqb (String.substring (String.length a - 1) 1 a) "/"
       then a +:+ b
       else a +:+ "/" +:+ b.

(** [seq[i]] for a Python list. *)
Definition list_getitem {A} (l : list A) (i : Z) : result A :=
  let j := if (i <? 0)%Z then (i + Z.of_nat (length l))%Z else i in
  if (j <? 0)%Z then Raise IndexError
  else match l !! Z.to_nat j with
       | Some x => Ok x
       | None => Raise IndexError
       end.

(** ** MergeFgAndBg *)

Definition MergeFgAndBg_call (results : sample) : result sample :=
  v ← getitem results "alpha";
  a ← as_array v;
  let alpha := div_scalar (expand_dims_last (astype_float32 a)) 255 in
  fg ← getitem results "fg" ≫= as_array;
  bg ← getitem results "bg" ≫= as_array;
  t1 ← np_mul fg (F32 alpha);
  t2 ← np_mul (F32 (rsub_scalar 1 alpha)) bg;
  merged ← np_add t1 t2;
  Ok (<["merged" := VArray merged]> results).

(** ** GenerateTrimap *)

(** A configuration argument that is either an int or a sequence of ints. *)
Inductive int_or_tuple :=
| PyInt (k : Z)
| PyTuple (t : list Z).

Record GenerateTrimap := {
  kernels : list ndarray;
  min_iteration : Z;
  max_iteration : Z;
  symmetric : bool;
}.

(** [range(lo, hi)] *)
Definition range (lo hi : Z) : list Z := seqZ lo (hi - lo).

Definition GenerateTrimap_init `{Cv2} (kernel_size iterations : int_or_tuple)
    (symmetric : bool) : result GenerateTrimap :=
  '(min_kernel, max_kernel) ←
    match kernel_size with
    | PyInt k => Ok (k, k + 1)%Z
    | PyTuple t => unpack2 t
    end;
  '(min_iteration, max_iteration) ←
    match iterations with
    | PyInt k => Ok (k, k + 1)%Z
    | PyTuple t => unpack2 t
    end;
  kernels ← mapM (λ size, getStructuringElement MORPH_ELLIPSE (size, size))
                 (range min_kernel max_kernel);
  Ok {| kernels := kernels; min_iteration := min_iteration;
        max_iteration := max_iteration; symmetric := symmetric |}.

(** The trimap built from the eroded and the dilated matte. *)
Definition build_trimap (alpha eroded dilated : ndarray) : result (nd float32) :=
  let trimap := fill (zeros_like alpha) 128 in
  trimap ← np_setitem_mask trimap (ge_scalar eroded 255) 255;
  trimap ← np_setitem_mask trimap (le_scalar dilated 0) 0;
  Ok (astype_float32 trimap).

Definition GenerateTrimap_call `{Cv2} (self : GenerateTrimap) (results : sample)
    (g : rng) : result (sample * rng) :=
  alpha ← getitem results "alpha" ≫= as_array;
  let kernel_num := Z.of_nat (length (kernels self)) in
  '(erode_ksize_idx, g) ← randint 0 kernel_num g;
  '(erode_iter, g) ← randint (min_iteration self) (max_iteration self) g;
  '(dilate_ksize_idx, dilate_iter, g) ←
    (if symmetric self then Ok (erode_ksize_idx, erode_iter, g)
     else
       '(dilate_ksize_idx, g) ← randint 0 kernel_num g;
       '(dilate_iter, g) ← randint (min_iteration self) (max_iteration self) g;
       Ok (dilate_ksize_idx, dilate_iter, g));
  erode_kernel ← list_getitem (kernels self) erode_ksize_idx;
  eroded ← erode alpha erode_kernel erode_iter;
  dilate_kernel ← list_getitem (kernels self) dilate_ksize_idx;
  dilated ← dilate alpha dilate_kernel dilate_iter;
  trimap ← build_trimap alpha eroded dilated;
  Ok (<["trimap" := VArray (F32 trimap)]> results, g).

(** *** How [GenerateTrimap] reads what [cv2] returns *)

(** [a[idx] >= 255] and [a[idx] <= 0] *)
Definition at_max (a : ndarray) (idx : list nat) : bool :=
  item (ge_scalar a 255) idx.
Definition at_zero (a : ndarray) (idx : list nat) : bool :=
  item (le_scalar a 0) idx.

(** [cv2] gives a single-channel image back without its channel axis: the
    eroded matte of an [h x w x 1] matte is [h x w]. As a mask of line 79
    or 80, an element of such an array stands for the block of the trimap
    whose indices it begins: [under e idx] is the index of the element of
    [e] that stands for [idx]. For an array of the shape of the matte it is
    [idx] itself. *)
Definition under (e : ndarray) (idx : list nat) : list nat :=
  take (length (nd_shape e)) idx.

(** The value of a trimap pixel: 128, unless the eroded matte is at its
    maximum (255), unless the dilated matte is zero (0). *)
Definition trimap_pixel (eroded_max dilated_zero : bool) : float32 :=
  if dilated_zero then of_Z 0 else if eroded_max then of_Z 255 else of_Z 128.

(** The values a trimap can hold. *)
Definition trimap_value (x : float32) : Prop :=
  x = of_Z 0 ∨ x = of_Z 128 ∨ x = of_Z 255.

(** [a[ia] <= b[ib]], for two arrays of one dtype. *)
Definition nd_le (a b : ndarray) (ia ib : list nat) : Prop :=
  match a, b with
  | U8 x, U8 y => (item x ia ≤ item y ib)%Z
  | F32 x, F32 y => leb (item x ia) (item y ib) = true
  | _, _ => False
  end.

(** No element of the array is a NaN. *)
Definition no_nan (a : ndarray) : Prop :=
  match a with
  | U8 _ => True
  | F32 x => Forall (λ f, f ≠ S754_nan) (data x)
  end.

(** The filter [f] ([cv2.erode] or [cv2.dilate]) runs on [alpha] with every
    kernel and iteration count [self] can draw, and gives an image that can
    mask an array of the shape of [alpha]: its shape begins the shape of
    [alpha] (it is that of [alpha], or that of [alpha] without the channel
    axis, which [cv2] drops from a single channel). *)
Definition filters (f : ndarray → ndarray → Z → result ndarray)
    (self : GenerateTrimap) (alpha : ndarray) : Prop :=
  ∀ k n, k ∈ kernels self →
    (min_iteration self ≤ n < max_iteration self)%Z →
    ∃ e, f alpha k n = Ok e ∧ nd_shape e `prefix_of` nd_shape alpha ∧
      wf_ndarray e.

(** ** CompositeFg *)

Record CompositeFg := {
  fg_dir : string;
  alpha_dir : string;
  fg_ext : string;
  alpha_ext : string;
  interpolation : string;
  stem_list : list string;
}.

Definition as_tuple (v : value) : result (list nat) :=
  match v with VTuple t => Ok t | _ => Raise TypeError end.

(** Lines 142 to 152: draw a stem, read the second foreground and matte,
    normalise the matte and resize both to [(w, h)]. *)
Definition load_fg2_alpha2 `{Mmcv} (self : CompositeFg) (h w : nat) (g : rng)
    : result (ndarray * nd float32 * rng) :=
  '(idx, g) ← randint 0 (Z.of_nat (length (stem_list self))) g;
  stem ← list_getitem (stem_list self) idx;
  fg2 ← imread (osp_join (fg_dir self) (stem +:+ "." +:+ fg_ext self)) Color;
  alpha2 ← imread (osp_join (alpha_dir self) (stem +:+ "." +:+ alpha_ext self))
                  Grayscale;
  let alpha2 := div_scalar (astype_float32 alpha2) 255 in
  fg2 ← imresize fg2 (w, h) (interpolation self);
  alpha2 ← imresize_float32 alpha2 (w, h) (interpolation self);
  Ok (fg2, alpha2, g).

(** [1 - (1 - alpha) * (1 - alpha2)] *)
Definition screen_alpha (alpha alpha2 : nd float32) : result (nd float32) :=
  t ← broadcast2 mul (rsub_scalar 1 alpha) (rsub_scalar 1 alpha2);
  Ok (rsub_scalar 1 t).

(** [fg.astype(np.float32) * alpha[..., None]
     + fg2.astype(np.float32) * (1 - alpha[..., None])] *)
Definition blend_fg (fg fg2 : ndarray) (alpha : nd float32) : result (nd float32) :=
  t1 ← broadcast2 mul (astype_float32 fg) (expand_dims_last alpha);
  t2 ← broadcast2 mul (astype_float32 fg2)
                      (rsub_scalar 1 (expand_dims_last alpha));
  broadcast2 add t1 t2.

(** The body of [if np.random.rand() < 0.5:]; it gives the new [fg] and
    the new normalised [alpha]. *)
Definition composite `{Mmcv} (self : CompositeFg) (fg : ndarray)
    (alpha : nd float32) (h w : nat) (g : rng)
    : result (ndarray * nd float32 * rng) :=
  '(fg2, alpha2, g) ← load_fg2_alpha2 self h w g;
  alpha_tmp ← screen_alpha alpha alpha2;
  if np_any (lt_scalar alpha_tmp 1) then
    fg ← blend_fg fg fg2 alpha;
    (* [fg.astype(np.uint8)] on line 162 builds a copy that is dropped *)
    let _ := astype_uint8 fg in
    Ok (F32 fg, alpha_tmp, g)
  else Ok (fg, alpha, g).

(** Lines 164 to 166: the three keys every call writes back. *)
Definition write_back (results : sample) (fg : ndarray) (alpha : nd float32)
    : sample :=
  let results := <["fg" := VArray fg]> results in
  let results :=
    <["alpha" := VArray (U8 (astype_uint8 (mul_scalar alpha 255)))]> results in
  <["img_shape" := VTuple (shape alpha)]> results.

Definition CompositeFg_call `{Mmcv} (self : CompositeFg) (results : sample)
    (g : rng) : result (sample * rng) :=
  fg ← getitem results "fg" ≫= as_array;
  a ← getitem results "alpha" ≫= as_array;
  let alpha := div_scalar (astype_float32 a) 255 in
  img_shape ← getitem results "img_shape" ≫= as_tuple;
  '(h, w) ← unpack2 img_shape;
  let r := rand g in
  '(fg, alpha, g) ←
    (if SFltb r.1 Float64.half then composite self fg alpha h w r.2
     else Ok (fg, alpha, r.2));
  Ok (write_back results fg alpha, g).

(** *** Elementwise views used to state the properties of [CompositeFg] *)

(** A byte normalised as on lines 137 and 148. *)
Definition normalised (b : Z) : float32 := div (of_Z b) (of_Z 255).

(** One element of [1 - (1 - alpha) * (1 - alpha2)] as line 155 computes
    it. *)
Definition screen (a a2 : float32) : float32 :=
  sub (of_Z 1) (mul (sub (of_Z 1) a) (sub (of_Z 1) a2)).

(** The screen law of the docstring, in exact arithmetic. *)
Definition screen_exact (a a2 : Q) : Q := (1 - (1 - a) * (1 - a2))%Q.

(** The bounds the screen of two normalised bytes meets: it lies in
    [0, 1], and it is below neither operand by more than [2^-25]. *)
Definition screen_ok (a a2 : float32) : bool :=
  let n := screen a a2 in
  leb (of_Z 0) n && leb n (of_Z 1)
  && Qle_bool (to_Q a - (1 # 33554432)) (to_Q n)
  && Qle_bool (to_Q a2 - (1 # 33554432)) (to_Q n).

(** One element of [fg * alpha + fg2 * (1 - alpha)] as line 159 computes
    it. *)
Definition blend (f f2 a : float32) : float32 :=
  add (mul f a) (mul f2 (sub (of_Z 1) a)).

(** Every element of the matte is 255. *)
Definition uniform255 (a : ndarray) : Prop :=
  match a with
  | U8 x => Forall (λ z, z = 255%Z) (data x)
  | F32 x => Forall (λ f, f = of_Z 255) (data x)
  end.

(** The random branch of line 141 is taken. *)
Definition branch_taken (g : rng) : bool := SFltb (rand g).1 Float64.half.

(** ** Construction of [CompositeFg]: the stems of a directory *)

(** The separators of [posixpath]. *)
Definition first_char (s : string) : Ascii.ascii :=
  match s with String c _ => c | EmptyString => Ascii.zero end.
Definition sep : Ascii.ascii := first_char "/".
Definition extsep : Ascii.ascii := first_char ".".

(** [s.rfind(c)] for a character [c]: its last position in [s], or -1. *)
Fixpoint rfind (c : Ascii.ascii) (s : string) : Z :=
  match s with
  | EmptyString => -1
  | String a s' =>
      let i := rfind c s' in
      if (0 <=? i)%Z then (i + 1)%Z
      else if Ascii.eqb a c then 0%Z else (-1)%Z
  end.

(** [p[:i]] and [p[i:]] *)
Definition str_take (i : nat) (p : string) : string := String.substring 0 i p.
Definition str_drop (i : nat) (p : string) : string :=
  String.substring i (String.length p - i) p.

(** A character other than the dot. *)
Definition not_dot (ch : Ascii.ascii) : bool := negb (Ascii.eqb ch extsep).

(** [osp.splitext(p)]: the extension starts at the last dot of the last
    path component; a component made of leading dots only has none. The
    loop of [genericpath._splitext] looks for a character that is not a dot
    between the last slash and the last dot. *)
Definition osp_splitext (p : string) : string * string :=
  let sepIndex := rfind sep p in
  let dotIndex := rfind extsep p in
  if (sepIndex <? dotIndex)%Z
     && existsb not_dot
          (String.list_ascii_of_string
             (String.substring (Z.to_nat (sepIndex + 1))
                               (Z.to_nat (dotIndex - (sepIndex + 1))) p))
  then (str_take (Z.to_nat dotIndex) p, str_drop (Z.to_nat dotIndex) p)
  else (p, "").

(** [mmcv.scandir(dir_path, suffix)]: the names of the files of a
    directory that end with [suffix], in the order the system lists them. *)
Class Scandir := {
  scandir : string → string → result (list string);
}.

(** [CompositeFg._get_stem_list] *)
Definition get_stem_list `{Scandir} (dir_name ext : string)
    : result (list string) :=
  name_list ← scandir dir_name ext;
  Ok (foldl (λ stem_list name, stem_list ++ [(osp_splitext name).1])
            [] name_list).

(** [CompositeFg.__init__] *)
Definition CompositeFg_init `{Scandir}
    (fg_dir alpha_dir fg_ext alpha_ext interpolation : string)
    : result CompositeFg :=
  stem_list ← get_stem_list fg_dir fg_ext;
  Ok {| fg_dir := fg_dir; alpha_dir := alpha_dir; fg_ext := fg_ext;
        alpha_ext := alpha_ext; interpolation := interpolation;
        stem_list := stem_list |}.

(** The file name line 144 builds from a stem. *)
Definition file_name (stem ext : string) : string := stem +:+ "." +:+ ext.

(** An extension without a dot and without a slash, and a stem whose last
    path component holds a character other than a dot. *)
Definition plain_ext (ext : string) : Prop :=
  rfind extsep ext = (-1)%Z ∧ rfind sep ext = (-1)%Z.
Definition named (stem : string) : Prop :=
  existsb not_dot
    (String.list_ascii_of_string
       (str_drop (Z.to_nat (rfind sep stem + 1)) stem)) = true.

(** ** Elementwise views used to state further properties *)

(** Equality of two [float32], as a test. *)
Definition float32_eqb (x y : float32) : bool :=
  match x, y with
  | S754_zero s, S754_zero s' => Bool.eqb s s'
  | S754_infinity s, S754_infinity s' => Bool.eqb s s'
  | S754_nan, S754_nan => true
  | S754_finite s m e, S754_finite s' m' e' =>
      Bool.eqb s s' && Pos.eqb m m' && Z.eqb e e'
  | _, _ => false
  end.

(** On a byte [z] taken as a [float32]: one is neutral for the product,
    zero absorbs it, and zero is neutral for the sum. *)
Definition byte_unit_laws (z : Z) : bool :=
  let f := of_Z z in
  float32_eqb (mul f (of_Z 1)) f && float32_eqb (mul (of_Z 1) f) f
  && float32_eqb (mul f (of_Z 0)) (of_Z 0)
  && float32_eqb (mul (of_Z 0) f) (of_Z 0)
  && float32_eqb (add f (of_Z 0)) f && float32_eqb (add (of_Z 0) f) f.


(** * A reference implementation of the libraries

    Plain versions of the [cv2] and [mmcv] functions the transforms call.
    What the transforms do with the images of [cv2] is proved of the
    transforms run on them; they also show that what is assumed of the
    libraries elsewhere can be met. *)

Module Ref.

(** The columns [j1, j2) set in row [i] of a [w] by [h] structuring
    element. The ellipse follows OpenCV, with an exact square root in place
    of its double precision one. *)
Definition kernel_row (sh : morph_shape) (w h i : Z) : Z * Z :=
  let r := (h / 2)%Z in
  let c := (w / 2)%Z in
  match sh with
  | MORPH_RECT => (0, w)%Z
  | MORPH_CROSS => if (i =? r)%Z then (0, w)%Z else (c, c + 1)%Z
  | MORPH_ELLIPSE =>
      let dy := (i - r)%Z in
      if (Z.abs dy <=? r)%Z then
        let dx := if (r =? 0)%Z then 0%Z
                  else ((Z.sqrt (4 * c * c * (r * r - dy * dy) / (r * r)) + 1) / 2)%Z in
        (Z.max (c - dx) 0, Z.min (c + dx + 1) w)
      else (0, 0)%Z
  end.

Definition structuring_element (sh : morph_shape) (ksize : Z * Z)
    : result ndarray :=
  let '(w, h) := ksize in
  if (0 <? w)%Z && (0 <? h)%Z then
    let sh := if (w =? 1)%Z && (h =? 1)%Z then MORPH_RECT else sh in
    Ok (U8 (Nd [Z.to_nat h; Z.to_nat w]
              ((λ idx,
                 match idx with
                 | [i; j] =>
                     let '(j1, j2) := kernel_row sh w h (Z.of_nat i) in
                     if (j1 <=? Z.of_nat j)%Z && (Z.of_nat j <? j2)%Z
                     then 1%Z else 0%Z
                 | _ => 0%Z
                 end) <$> indices [Z.to_nat h; Z.to_nat w])))
  else Raise CvError.

(** The set elements of a kernel, as offsets from its anchor (the centre). *)
Definition offsets (kernel : nd Z) : list (Z * Z) :=
  match shape kernel with
  | [kh; kw] =>
      omap (λ idx,
              match idx with
              | [i; j] =>
                  if (item kernel idx =? 0)%Z then None
                  else Some (Z.of_nat i - Z.of_nat (kh / 2),
                             Z.of_nat j - Z.of_nat (kw / 2))%Z
              | _ => None
              end) (indices [kh; kw])
  | _ => []
  end.

(** [std::min] and [std::max] on [float32], and the largest finite
    [float32]. *)
Definition fmin (a b : float32) : float32 := if ltb b a then b else a.
Definition fmax (a b : float32) : float32 := if ltb a b then b else a.
Definition FLT_MAX : float32 := S754_finite false 16777215 104.

(** How [cv2] takes an array as an image: [h x w] pixels of [c] channels.
    An image of one channel comes back without a channel axis. *)
Definition as_image (s : list nat) : option (nat * nat * nat) :=
  match s with
  | [h; w] => Some (h, w, 1)
  | [h; w; c] => Some (h, w, c)
  | _ => None
  end.
Definition image_shape (h w c : nat) : list nat :=
  if c =? 1 then [h; w] else [h; w; c].

(** One pass of a morphological filter over an [H x W x C] image: every
    channel of every pixel becomes the [pick] of that channel of the pixels
    under the kernel, taken in the order of the kernel; a pixel outside the
    image counts as [border]. *)
Definition morph_pixel `{Inhabited A} (pick : A → A → A) (border : A)
    (offs : list (Z * Z)) (a : nd A) (H W y x c : nat) : A :=
  let seen :=
    (λ off : Z * Z,
       let y' := (Z.of_nat y + off.1)%Z in
       let x' := (Z.of_nat x + off.2)%Z in
       if (0 <=? y')%Z && (y' <? Z.of_nat H)%Z
          && (0 <=? x')%Z && (x' <? Z.of_nat W)%Z
       then item a [Z.to_nat y'; Z.to_nat x'; c]
       else border) <$> offs in
  match seen with
  | [] => border
  | v :: vs => foldl pick v vs
  end.

Definition morph `{Inhabited A} (pick : A → A → A) (border : A)
    (offs : list (Z * Z)) (a : nd A) : nd A :=
  match shape a with
  | [H; W; C] =>
      Nd [H; W; C]
         ((λ idx, match idx with
                  | [y; x; c] => morph_pixel pick border offs a H W y x c
                  | _ => border
                  end) <$> indices [H; W; C])
  | _ => a
  end.

(** [cv2.erode] and [cv2.dilate] on an array of one dtype. The image has
    one to 512 channels and is not empty; the kernel is a [uint8] plane
    with a set element (a kernel without one is not modelled). No pass
    is made for [iterations = 0] and for a kernel of one element, one pass
    for a negative [iterations]. *)
Definition morphology_nd `{Inhabited A} (pick : A → A → A) (border : A)
    (a : nd A) (kernel : ndarray) (iterations : Z) : result (nd A) :=
  match kernel, as_image (shape a) with
  | U8 k, Some (h, w, c) =>
      match shape k with
      | [kh; kw] =>
          if decide (0 < h ∧ 0 < w ∧ 0 < c ≤ 512 ∧ 0 < kh ∧ 0 < kw
                     ∧ offsets k ≠ []) then
            let passes :=
              if (iterations =? 0)%Z || (kh * kw =? 1) then 0
              else Z.to_nat (Z.max 1 iterations) in
            Ok (Nd (image_shape h w c)
                   (data (Nat.iter passes (morph pick border (offsets k))
                                   (Nd [h; w; c] (data a)))))
          else Raise CvError
      | _ => Raise CvError
      end
  | _, _ => Raise CvError
  end.

(** The border of an erosion is the largest value of the dtype, the
    border of a dilation the smallest. *)
Definition min_filter (src kernel : ndarray) (iterations : Z) : result ndarray :=
  match src with
  | U8 a => U8 <$> morphology_nd Z.min 255%Z a kernel iterations
  | F32 a => F32 <$> morphology_nd fmin FLT_MAX a kernel iterations
  end.
Definition max_filter (src kernel : ndarray) (iterations : Z) : result ndarray :=
  match src with
  | U8 a => U8 <$> morphology_nd Z.max 0%Z a kernel iterations
  | F32 a => F32 <$> morphology_nd fmax (SFopp FLT_MAX) a kernel iterations
  end.

(** A kernel whose anchor, the centre, is set. *)
Definition anchored (k : ndarray) : Prop :=
  ∃ x, k = U8 x ∧ length (shape x) = 2 ∧ (0, 0)%Z ∈ offsets x.

(** A matte the filters accept. *)
Definition image (a : ndarray) : Prop :=
  ∃ h w c, as_image (nd_shape a) = Some (h, w, c) ∧
    0 < h ∧ 0 < w ∧ 0 < c ≤ 512.

#[export] Instance cv2 : Cv2 := {|
  getStructuringElement := structuring_element;
  erode := min_filter;
  dilate := max_filter;
|}.

(** Nearest-neighbour resize of an [h0 x w0 (x c)] image to [h x w (x c)]. *)
Definition resize_nearest `{Inhabited A} (a : nd A) (size : nat * nat)
    : result (nd A) :=
  let '(w, h) := size in
  match shape a with
  | h0 :: w0 :: rest =>
      if decide (0 < h0 ∧ 0 < w0 ∧ 0 < h ∧ 0 < w ∧ length rest ≤ 1) then
        Ok (Nd (h :: w :: rest)
               ((λ idx, match idx with
                        | y :: x :: ch => item a (y * h0 / h :: x * w0 / w :: ch)
                        | _ => inhabitant
                        end) <$> indices (h :: w :: rest)))
      else Raise CvError
  | _ => Raise CvError
  end.

(** Images are read from a table of files. A colour read gives an
    [h x w x 3] array, a grayscale read an [h x w] one. *)
Definition read_image (files : gmap string ndarray) (path : string)
    (flag : imread_flag) : result ndarray :=
  match files !! path with
  | Some img =>
      match flag, nd_shape img with
      | Color, [_; _; 3] => Ok img
      | Grayscale, [_; _] => Ok img
      | _, _ => Raise (IOError path)
      end
  | None => Raise (IOError path)
  end.

Definition mmcv (files : gmap string ndarray) : Mmcv := {|
  imread := read_image files;
  imresize_uint8 a size _ := resize_nearest a size;
  imresize_float32 a size _ := resize_nearest a size;
|}.

(** A random source that repeats one raw draw. *)
Definition const_rng (n : N) : rng := λ _, n.

End Ref.

(** ** Runs of the transforms on the reference libraries *)

Module Run.
Import Ref.

Definition f32_half : float32 := S754_finite false 8388608 (-24).

(** A 2 x 2 sample: bytes for [alpha], [fg] and [bg]. *)
Definition sample1 : sample :=
  {[ "alpha" := VArray (U8 (Nd [2; 2] [0; 255; 128; 51]%Z));
     "fg" := VArray (U8 (Nd [2; 2; 3] [10; 20; 30; 40; 50; 60; 70; 80; 90; 100; 110; 120]%Z));
     "bg" := VArray (U8 (Nd [2; 2; 3] [200; 200; 200; 0; 0; 0; 255; 255; 255; 7; 8; 9]%Z));
     "img_shape" := VTuple [2; 2] ]}.

(** A 2 x 3 sample whose matte has a channel axis. *)
Definition sample_hw1 : sample :=
  {[ "alpha" := VArray (U8 (Nd [2; 3; 1] [0; 51; 102; 153; 204; 255]%Z));
     "fg" := VArray (U8 (Nd [2; 3; 3] (replicate 18 200%Z)));
     "bg" := VArray (U8 (Nd [2; 3; 3] (replicate 18 10%Z))) ]}.

(** A 5 x 5 matte: a 3 x 3 opaque block with a half transparent rim. *)
Definition matte5 : nd Z :=
  Nd [5; 5] [   0;   0;   0;   0;   0;
                0; 255; 255; 255;   0;
              128; 255; 255; 255;   0;
                0; 255; 255; 255;   0;
                0;   0;   0;   0;   0 ]%Z.

Definition files : gmap string ndarray :=
  {[ "fg/a.png" := U8 (Nd [1; 1; 3] [9; 9; 9]%Z);
     "alpha/a.png" := U8 (Nd [1; 1] [64]%Z) ]}.

Definition composite_fg : CompositeFg :=
  {| fg_dir := "fg"; alpha_dir := "alpha"; fg_ext := "png"; alpha_ext := "png";
     interpolation := "nearest"; stem_list := ["a"] |}.

(** [GenerateTrimap(3)]: one 3 x 3 elliptical kernel (a cross), one
    iteration, independent draws for erosion and dilation. *)
Definition trimap3 : GenerateTrimap :=
  {| kernels := [U8 (Nd [3; 3] [0; 1; 0; 1; 1; 1; 0; 1; 0]%Z)];
     min_iteration := 1; max_iteration := 2; symmetric := false |}.

Definition matte_sample : sample := {[ "alpha" := VArray (U8 matte5) ]}.

(** The same matte with a channel axis, and as [float32]. *)
Definition matte5_channel : nd Z := Nd [5; 5; 1] (data matte5).
Definition channel_matte_sample : sample :=
  {[ "alpha" := VArray (U8 matte5_channel) ]}.
Definition matte5_float : nd float32 := Nd [5; 5; 1] (of_Z <$> data matte5).
Definition float_matte_sample : sample :=
  {[ "alpha" := VArray (F32 matte5_float) ]}.

(** The elliptical kernels of sizes 3, 4 and 5. *)
Definition ellipse3 : ndarray :=
  U8 (Nd [3; 3] [0; 1; 0;
                 1; 1; 1;
                 0; 1; 0]%Z).
Definition ellipse4 : ndarray :=
  U8 (Nd [4; 4] [0; 0; 1; 0;
                 1; 1; 1; 1;
                 1; 1; 1; 1;
                 1; 1; 1; 1]%Z).
Definition ellipse5 : ndarray :=
  U8 (Nd [5; 5] [0; 0; 1; 0; 0;
                 1; 1; 1; 1; 1;
                 1; 1; 1; 1; 1;
                 1; 1; 1; 1; 1;
                 0; 0; 1; 0; 0]%Z).

(** A one pixel sample, half transparent. *)
Definition pixel_sample : sample :=
  {[ "fg" := VArray (U8 (Nd [1; 1; 3] [200; 100; 50]%Z));
     "alpha" := VArray (U8 (Nd [1; 1] [128]%Z));
     "img_shape" := VTuple [1; 1] ]}.

(** A one pixel sample, opaque. *)
Definition opaque_sample : sample :=
  {[ "fg" := VArray (U8 (Nd [1; 1; 3] [200; 100; 50]%Z));
     "alpha" := VArray (U8 (Nd [1; 1] [255]%Z));
     "img_shape" := VTuple [1; 1] ]}.

(** A one pixel sample whose matte is normalised already, as the
    docstring of [CompositeFg] asks: 0.5 as a [float32]. *)
Definition normalised_sample : sample :=
  {[ "fg" := VArray (U8 (Nd [1; 1; 3] [200; 100; 50]%Z));
     "alpha" := VArray (F32 (Nd [1; 1] [f32_half]));
     "img_shape" := VTuple [1; 1] ]}.

(** A sample whose matte has a channel axis. *)
Definition channel_sample : sample :=
  {[ "fg" := VArray (U8 (Nd [2; 1; 3] [200; 100; 50; 20; 10; 5]%Z));
     "alpha" := VArray (U8 (Nd [2; 1; 1] [0; 255]%Z));
     "img_shape" := VTuple [2; 1] ]}.

(** A transparent pixel, and a second sample whose matte is the byte 1. *)
Definition clear_sample : sample :=
  {[ "fg" := VArray (U8 (Nd [1; 1; 3] [200; 100; 50]%Z));
     "alpha" := VArray (U8 (Nd [1; 1] [0]%Z));
     "img_shape" := VTuple [1; 1] ]}.
Definition faint_files : gmap string ndarray :=
  {[ "fg/b.png" := U8 (Nd [1; 1; 3] [9; 9; 9]%Z);
     "alpha/b.png" := U8 (Nd [1; 1] [1]%Z) ]}.
Definition faint_fg : CompositeFg :=
  {| fg_dir := "fg"; alpha_dir := "alpha"; fg_ext := "png"; alpha_ext := "png";
     interpolation := "nearest"; stem_list := ["b"] |}.

(** The second sample of [files], normalised, and what the composition
    of [pixel_sample] with it gives. *)
Definition pixel_alpha_tmp : nd float32 :=
  Nd [1; 1] [screen (normalised 128) (normalised 64)].
Definition pixel_blended : nd float32 :=
  Nd [1; 1; 3] [blend (of_Z 200) (of_Z 9) (normalised 128);
                blend (of_Z 100) (of_Z 9) (normalised 128);
                blend (of_Z 50) (of_Z 9) (normalised 128)].

(** The array a call left under [key], as bytes. *)
Definition bytes_at (key : string) (r : result (sample * rng)) : result (nd Z) :=
  out ← r;
  a ← getitem out.1 key ≫= as_array;
  Ok (astype_uint8 (astype_float32 a)).

(** Raw draws: [taken] makes [np.random.rand()] give 0, [skipped] makes
    it give 0.5. *)
Definition taken : rng := const_rng 0.
Definition skipped : rng := const_rng 4503599627370496.

End Run.

(** ** Further samples *)

Module Cases.
Import Ref Run.

(** A directory table behind [mmcv.scandir]: the names of a directory that
    end with the suffix; a directory that is not in the table cannot be
    read. *)
Definition ends_with (suffix s : string) : bool :=
  String.prefix (String.rev suffix) (String.rev s).
Definition scan (dirs : gmap string (list string)) : Scandir := {|
  scandir dir suffix :=
    match dirs !! dir with
    | Some names => Ok (filter (λ name, ends_with suffix name) names)
    | None => Raise (IOError dir)
    end;
|}.

(** Two foregrounds, a text file, and a name that ends with the suffix
    without being an extension. *)
Definition dirs : gmap string (list string) :=
  {[ "fg" := ["a.png"; "notes.txt"; "b.png"];
     "odd" := ["a.png"; "apng"] ]}.

(** An instance without kernels, as [GenerateTrimap((5, 5))] builds it,
    and one with an empty range of iterations. *)
Definition no_kernels : GenerateTrimap :=
  {| kernels := []; min_iteration := 1; max_iteration := 2;
     symmetric := false |}.
Definition no_iterations : GenerateTrimap :=
  {| kernels := kernels trimap3; min_iteration := 2; max_iteration := 2;
     symmetric := false |}.

(** [trimap3] with one shared draw for erosion and dilation. *)
Definition trimap3_symmetric : GenerateTrimap :=
  {| kernels := kernels trimap3; min_iteration := 1; max_iteration := 2;
     symmetric := true |}.

(** A record without "bg", one without "img_shape", and one whose
    "img_shape" has three entries. *)
Definition no_bg : sample := delete "bg" sample1.
Definition no_img_shape : sample := delete "img_shape" pixel_sample.
Definition shape3_sample : sample :=
  <["img_shape" := VTuple [1; 1; 3]]> pixel_sample.

(** No file at all. *)
Definition no_files : gmap string ndarray := ∅.

(** [CompositeFg] over an empty directory. *)
Definition no_stems : CompositeFg :=
  {| fg_dir := "fg"; alpha_dir := "alpha"; fg_ext := "png"; alpha_ext := "png";
     interpolation := "nearest"; stem_list := [] |}.

(** A 1 x 2 sample: an opaque and a transparent pixel. *)
Definition extreme_alpha : nd Z := Nd [1; 2] [255; 0]%Z.
Definition extreme_fg : nd Z := Nd [1; 2; 3] [10; 20; 30; 40; 50; 60]%Z.
Definition extreme_bg : nd Z := Nd [1; 2; 3] [70; 80; 90; 100; 110; 120]%Z.
Definition extremes : sample :=
  {[ "alpha" := VArray (U8 extreme_alpha);
     "fg" := VArray (U8 extreme_fg);
     "bg" := VArray (U8 extreme_bg) ]}.

End Cases.

(** * Properties of the array layer *)

#[global] Arguments of_Z : simpl never.
#[global] Arguments add : simpl never.
#[global] Arguments sub : simpl never.
#[global] Arguments mul : simpl never.
#[global] Arguments div : simpl never.
#[global] Arguments ltb : simpl never.
#[global] Arguments leb : simpl never.
#[global] Arguments to_uint8 : simpl never.
#[global] Arguments indices : simpl never.
#[global] Arguments item : simpl never.
#[global] Arguments rand : simpl never.

Lemma bind_Ok {A B} (f : A → result B) (a : A) : Ok a ≫= f = f a.
Proof. reflexivity. Qed.

Lemma fmap_Ok {A B} (f : A → B) (a : A) : f <$> Ok a = Ok (f a).
Proof. reflexivity. Qed.

Lemma bind_Ok_inv {A B} (f : A → result B) (m : result A) (b : B) :
  m ≫= f = Ok b → ∃ a, m = Ok a ∧ f a = Ok b.
Proof. destruct m as [a|e]; [by exists a|done]. Qed.

Lemma fmap_Ok_inv {A B} (f : A → B) (m : result A) (b : B) :
  f <$> m = Ok b → ∃ a, m = Ok a ∧ b = f a.
Proof. destruct m as [a|e]; intros; simplify_eq/=; by eexists. Qed.

(** Rewriting with the equations of the error monad. *)
Ltac result_simpl := rewrite ?fmap_Ok, ?bind_Ok.

Section shapes.
Implicit Types (s sa sb idx : list nat) (n d i : nat).

Lemma numel_cons d s : numel (d :: s) = d * numel s.
Proof. reflexivity. Qed.

Lemma numel_app s1 s2 : numel (s1 ++ s2) = numel s1 * numel s2.
Proof. induction s1 as [|d s1 IH]; simpl; [lia|]. rewrite IH. lia. Qed.

Lemma numel_replicate_1 n : numel (replicate n 1) = 1.
Proof. induction n as [|n IH]; simpl; [done|]. rewrite IH. done. Qed.

Lemma numel_pad n s : numel (pad n s) = numel s.
Proof. unfold pad. rewrite numel_app, numel_replicate_1. lia. Qed.

Lemma length_pad n s : length (pad n s) = n `max` length s.
Proof. unfold pad. rewrite length_app, length_replicate. lia. Qed.

Lemma pad_ge n s : n ≤ length s → pad n s = s.
Proof. intros Hn. unfold pad. by replace (n - length s) with 0 by lia. Qed.

Lemma in_shape_length idx s : in_shape idx s → length idx = length s.
Proof. apply Forall2_length. Qed.

Lemma in_shape_reads idx s : in_shape idx s → reads s idx.
Proof.
  induction 1 as [|i d idx s Hi _ IH]; constructor; [by right|done].
Qed.

Lemma offset_lt s idx : reads s idx → offset s idx < numel s.
Proof.
  induction 1 as [|d i s idx Hd _ IH]; simpl; [lia|].
  destruct (Nat.eqb_spec d 1) as [->|Hne]; [lia|].
  destruct Hd as [?|Hd]; [done|]. nia.
Qed.

Lemma offset_in_shape s idx i d :
  i < d → offset (d :: s) (i :: idx) = i * numel s + offset s idx.
Proof.
  intros Hi. simpl. destruct (Nat.eqb_spec d 1) as [->|]; [|done].
  by replace i with 0 by lia.
Qed.

Lemma length_bind_const {A B} (f : A → list B) (l : list A) m :
  (∀ x, length (f x) = m) → length (l ≫= f) = length l * m.
Proof.
  intros Hf. induction l as [|x l IH]; [done|].
  rewrite bind_cons, length_app, IH, Hf. simpl. lia.
Qed.

Lemma lookup_bind_const {A B} (f : A → list B) (l : list A) m i k x :
  (∀ x, length (f x) = m) → l !! i = Some x → k < m →
  (l ≫= f) !! (i * m + k) = f x !! k.
Proof.
  intros Hf. revert i. induction l as [|y l IH]; intros i Hi Hk; [done|].
  rewrite bind_cons. destruct i as [|i]; simpl in *.
  - simplify_eq. rewrite lookup_app_l; [done|]. rewrite Hf. lia.
  - rewrite lookup_app_r; rewrite Hf; [|lia].
    replace (m + i * m + k - m) with (i * m + k) by lia. by apply IH.
Qed.

Lemma indices_cons n s :
  indices (n :: s) = i ← seq 0 n; (i ::.) <$> indices s.
Proof. reflexivity. Qed.

Lemma length_indices s : length (indices s) = numel s.
Proof.
  induction s as [|n s IH]; [done|]. rewrite indices_cons, numel_cons.
  rewrite (length_bind_const _ _ (numel s)), length_seq; [done|].
  intros i. by rewrite length_fmap.
Qed.

Lemma lookup_indices s idx :
  in_shape idx s → indices s !! offset s idx = Some idx.
Proof.
  induction 1 as [|i d idx s Hi Hidx IH]; [done|].
  rewrite offset_in_shape by done. rewrite indices_cons.
  rewrite (lookup_bind_const _ _ (numel s) _ _ i).
  - by rewrite list_lookup_fmap, IH.
  - intros j. by rewrite length_fmap, length_indices.
  - by rewrite lookup_seq_lt.
  - by apply offset_lt, in_shape_reads.
Qed.

Lemma elem_of_indices idx s : idx ∈ indices s ↔ in_shape idx s.
Proof.
  split.
  - revert idx. induction s as [|n s IH]; intros idx.
    + change (indices []) with [@nil nat].
      rewrite list_elem_of_singleton. intros ->. constructor.
    + rewrite indices_cons, list_elem_of_bind. intros (i & Hidx & Hi).
      apply list_elem_of_fmap in Hidx as (idx' & -> & Hidx').
      apply elem_of_seq in Hi. constructor; [lia|by apply IH].
  - intros Hin. eapply list_elem_of_lookup_2, lookup_indices, Hin.
Qed.

Lemma broadcast_dim_reads d e n i :
  broadcast_dim d e = Some n → i < n → (d = 1 ∨ i < d) ∧ (e = 1 ∨ i < e).
Proof.
  unfold broadcast_dim. intros Hb Hi.
  destruct (Nat.eqb_spec d e); [simplify_eq; lia|].
  destruct (Nat.eqb_spec d 1); [simplify_eq; lia|].
  destruct (Nat.eqb_spec e 1); [simplify_eq; lia|done].
Qed.

Lemma broadcast_aligned_reads sa sb s idx :
  broadcast_aligned sa sb = Some s → in_shape idx s →
  reads sa idx ∧ reads sb idx.
Proof.
  revert sb s idx. induction sa as [|d sa IH]; intros [|e sb] s idx Hb Hin;
    simplify_eq/=.
  - inversion Hin. split; constructor.
  - destruct (broadcast_dim d e) as [n|] eqn:Hd; simplify_eq/=.
    destruct (broadcast_aligned sa sb) as [s'|] eqn:Hs; simplify_eq/=.
    inversion Hin as [|i ? idx' ? Hi Hin']; simplify_eq.
    destruct (broadcast_dim_reads _ _ _ _ Hd Hi).
    destruct (IH _ _ _ Hs Hin'). split; by constructor.
Qed.

Lemma broadcast_aligned_length sa sb s :
  broadcast_aligned sa sb = Some s → length s = length sa ∧ length s = length sb.
Proof.
  revert sb s. induction sa as [|d sa IH]; intros [|e sb] s Hb; simplify_eq/=;
    [done|].
  destruct (broadcast_dim d e) as [n|]; simplify_eq/=.
  destruct (broadcast_aligned sa sb) as [s'|] eqn:Hs; simplify_eq/=.
  destruct (IH _ _ Hs). split; congruence.
Qed.

Lemma broadcast_shapes_reads sa sb s idx :
  broadcast_shapes sa sb = Some s → in_shape idx s →
  reads (pad (length idx) sa) idx ∧ reads (pad (length idx) sb) idx.
Proof.
  unfold broadcast_shapes. intros Hb Hin.
  destruct (broadcast_aligned_length _ _ _ Hb) as [Hl _].
  rewrite length_pad in Hl.
  rewrite (in_shape_length _ _ Hin), Hl.
  replace ((length sa `max` length sb) `max` length sa)
    with (length sa `max` length sb) by lia.
  by eapply broadcast_aligned_reads.
Qed.

Lemma broadcast_aligned_refl s : broadcast_aligned s s = Some s.
Proof.
  induction s as [|d s IH]; [done|]. simpl.
  unfold broadcast_dim. rewrite Nat.eqb_refl. simpl. by rewrite IH.
Qed.

Lemma broadcast_shapes_refl s : broadcast_shapes s s = Some s.
Proof.
  unfold broadcast_shapes. rewrite Nat.max_id, pad_ge by done.
  apply broadcast_aligned_refl.
Qed.

Lemma offset_app s1 s2 idx1 idx2 :
  in_shape idx1 s1 →
  offset (s1 ++ s2) (idx1 ++ idx2) = offset s1 idx1 * numel s2 + offset s2 idx2.
Proof.
  induction 1 as [|i d idx1 s1 Hi _ IH]; [simpl; lia|].
  rewrite <-!app_comm_cons, !offset_in_shape by done.
  rewrite IH, numel_app. lia.
Qed.

Lemma in_shape_app_inv idx s1 s2 :
  in_shape idx (s1 ++ s2) →
  ∃ idx1 idx2, idx = idx1 ++ idx2 ∧ in_shape idx1 s1 ∧ in_shape idx2 s2.
Proof.
  intros (idx1 & idx2 & H1 & H2 & ->)%Forall2_app_inv_r. by exists idx1, idx2.
Qed.

Lemma in_shape_take idx s1 s :
  s1 `prefix_of` s → in_shape idx s → in_shape (take (length s1) idx) s1.
Proof.
  intros [s2 ->] (idx1 & idx2 & -> & H1 & _)%in_shape_app_inv.
  by rewrite <-(in_shape_length _ _ H1), take_app_length.
Qed.

Lemma in_shape_take_all idx s : in_shape idx s → take (length s) idx = idx.
Proof.
  intros Hin. rewrite <-(in_shape_length _ _ Hin). apply firstn_all.
Qed.

End shapes.

(** Closes [in_shape] and [reads] goals over explicit lists. *)
Ltac shape_tac :=
  unfold in_shape, reads;
  repeat (apply Forall2_cons; split;
            [cbv beta; solve [lia | left; lia | right; lia]|]);
  by apply Forall2_nil.

Section items.
Context `{Inhabited A}.
Implicit Types (a : nd A) (idx : list nat).

Lemma item_lookup a idx :
  wf_nd a → reads (pad (length idx) (shape a)) idx →
  data a !! offset (pad (length idx) (shape a)) idx = Some (item a idx).
Proof.
  intros Hwf Hr. apply list_lookup_lookup_total_lt.
  rewrite Hwf, <-(numel_pad (length idx)). by apply offset_lt.
Qed.

Lemma item_elem_of a idx :
  wf_nd a → reads (pad (length idx) (shape a)) idx → item a idx ∈ data a.
Proof. intros. eapply list_elem_of_lookup_2. by apply item_lookup. Qed.

Lemma item_map_nd `{Inhabited B} (f : A → B) a idx :
  wf_nd a → reads (pad (length idx) (shape a)) idx →
  item (map_nd f a) idx = f (item a idx).
Proof.
  intros Hwf Hr. unfold item. simpl. apply list_lookup_total_fmap.
  rewrite Hwf, <-(numel_pad (length idx)). by apply offset_lt.
Qed.

Lemma item_indices (g : list nat → A) s idx :
  in_shape idx s → item (Nd s (g <$> indices s)) idx = g idx.
Proof.
  intros Hin. unfold item. simpl.
  rewrite pad_ge by (by rewrite (in_shape_length _ _ Hin)).
  apply list_lookup_total_correct.
  by rewrite list_lookup_fmap, lookup_indices.
Qed.

Lemma wf_map_nd {B} (f : A → B) a : wf_nd a → wf_nd (map_nd f a).
Proof. unfold wf_nd. simpl. by rewrite length_fmap. Qed.

Lemma item_expand_dims_last a idx i :
  length idx = length (shape a) →
  item (expand_dims_last a) (idx ++ [i]) = item a idx.
Proof.
  intros Hl. unfold item. simpl. f_equal.
  rewrite !pad_ge by (rewrite ?length_app; simpl; lia).
  revert idx Hl. generalize (shape a) as s.
  induction s as [|d s IH]; intros [|j idx] Hl; simplify_eq/=; [done|].
  rewrite IH by done. rewrite numel_app. simpl. lia.
Qed.

End items.

Section broadcast.
Context `{Inhabited A, Inhabited B, Inhabited C}.

Lemma broadcast2_Ok (f : A → B → C) (a : nd A) (b : nd B) s :
  broadcast_shapes (shape a) (shape b) = Some s →
  broadcast2 f a b = Ok (Nd s ((λ idx, f (item a idx) (item b idx)) <$> indices s)).
Proof. intros Hs. unfold broadcast2. by rewrite Hs. Qed.

Lemma broadcast2_inv (f : A → B → C) (a : nd A) (b : nd B) c :
  broadcast2 f a b = Ok c →
  broadcast_shapes (shape a) (shape b) = Some (shape c) ∧
  data c = (λ idx, f (item a idx) (item b idx)) <$> indices (shape c).
Proof.
  unfold broadcast2. destruct (broadcast_shapes _ _); intros; by simplify_eq/=.
Qed.

Lemma broadcast2_wf (f : A → B → C) (a : nd A) (b : nd B) c :
  broadcast2 f a b = Ok c → wf_nd c.
Proof.
  intros [_ Hd]%broadcast2_inv. unfold wf_nd.
  by rewrite Hd, length_fmap, length_indices.
Qed.

Lemma item_broadcast2 (f : A → B → C) (a : nd A) (b : nd B) c idx :
  broadcast2 f a b = Ok c → in_shape idx (shape c) →
  item c idx = f (item a idx) (item b idx).
Proof.
  intros [_ Hd]%broadcast2_inv Hin. destruct c as [s d]; simplify_eq/=.
  by rewrite item_indices.
Qed.

End broadcast.

(** * Properties of the helpers *)

Lemma SFleb_trans x y z :
  SFleb x y = true → SFleb y z = true → SFleb x z = true.
Proof.
  unfold SFleb, SFcompare.
  destruct x as [sx|sx| |sx mx ex], y as [sy|sy| |sy my ey],
    z as [sz|sz| |sz mz ez];
    try destruct sx; try destruct sy; try destruct sz;
    try (intros; reflexivity || discriminate).
  all: rewrite ?Pos.compare_cont_spec; simpl.
  all: destruct (Z.compare_spec ex ey), (Z.compare_spec ey ez),
         (Z.compare_spec ex ez);
       try (intros; reflexivity || discriminate || lia).
  all: subst.
  all: destruct (Pos.compare_spec mx my), (Pos.compare_spec my mz),
         (Pos.compare_spec mx mz); simpl;
       try (intros; reflexivity || discriminate || lia).
Qed.

Lemma randint_Ok lo hi g :
  (lo < hi)%Z →
  ∃ v, randint lo hi g = Ok (v, advance g) ∧ (lo ≤ v < hi)%Z.
Proof.
  intros Hlt. unfold randint. rewrite (proj2 (Z.ltb_lt _ _) Hlt).
  eexists. split; [done|].
  pose proof (Z.mod_pos_bound (Z.of_N (g 0)) (hi - lo)). lia.
Qed.

Lemma randint_inv lo hi g v g' :
  randint lo hi g = Ok (v, g') → (lo ≤ v < hi)%Z ∧ g' = advance g.
Proof.
  unfold randint. destruct (Z.ltb_spec lo hi); [|done]. intros; simplify_eq.
  pose proof (Z.mod_pos_bound (Z.of_N (g 0)) (hi - lo)). split; [lia|done].
Qed.

Lemma list_getitem_Ok {A} (l : list A) i :
  (0 ≤ i < Z.of_nat (length l))%Z →
  ∃ x, list_getitem l i = Ok x ∧ x ∈ l.
Proof.
  intros Hi. unfold list_getitem.
  destruct (Z.ltb_spec i 0); [lia|]. destruct (Z.ltb_spec i 0); [lia|].
  destruct (lookup_lt_is_Some_2 l (Z.to_nat i)) as [x Hx]; [lia|].
  rewrite Hx. exists x. split; [done|]. by eapply list_elem_of_lookup_2.
Qed.

Lemma list_getitem_inv {A} (l : list A) i x :
  list_getitem l i = Ok x → x ∈ l.
Proof.
  unfold list_getitem. case_match; case_match; try done;
    (destruct (l !! _) eqn:Hl; [|done]); intros; simplify_eq;
    by eapply list_elem_of_lookup_2.
Qed.

Lemma bind_replicate_1 {A} (l : list A) : (b ← l; replicate 1 b) = l.
Proof. induction l as [|x l IH]; [done|]. rewrite bind_cons, IH. done. Qed.

Section masks.
Context `{Inhabited A}.

(** A mask whose shape begins the shape of [t] can be set, and nothing
    else can. *)
Lemma setitem_mask_Ok (t : nd A) (mask : nd bool) (v : A) :
  shape mask `prefix_of` shape t ↔ is_Ok (setitem_mask t mask v).
Proof.
  unfold setitem_mask. case_decide; split; try done.
  - by eexists.
  - by intros [? ?].
Qed.

(** What setting through a mask gives: one element of the mask decides for
    the block of the elements whose indices it begins. *)
Lemma setitem_mask_inv (t t' : nd A) (mask : nd bool) (v : A) :
  setitem_mask t mask v = Ok t' →
  shape mask `prefix_of` shape t ∧ shape t' = shape t ∧
  (wf_nd t → wf_nd mask →
   wf_nd t' ∧
   ∀ idx, in_shape idx (shape t) →
     item t' idx
     = if item mask (take (length (shape mask)) idx) then v else item t idx).
Proof.
  unfold setitem_mask. case_decide as Hp; [|done]. intros [= <-].
  split; [done|]. split; [done|]. intros Ht Hm.
  destruct Hp as [rest Hrest].
  assert (length (b ← data mask; replicate (numel rest) b) = numel (shape t))
    as Hsel.
  { rewrite (length_bind_const _ _ (numel rest))
      by (intros; by rewrite length_replicate).
    rewrite Hm, Hrest, numel_app. done. }
  replace (drop (length (shape mask)) (shape t)) with rest
    by (by rewrite Hrest, drop_app_length).
  split.
  { unfold wf_nd in *. cbn [data shape].
    rewrite length_zip_with, Hsel, Ht. lia. }
  intros idx Hin. rewrite Hrest in Hin.
  apply in_shape_app_inv in Hin as (i1 & i2 & -> & H1 & H2).
  rewrite <-(in_shape_length _ _ H1), take_app_length.
  unfold item. cbn [data shape].
  rewrite !pad_ge
    by (rewrite ?Hrest, ?length_app, ?(in_shape_length _ _ H1),
          ?(in_shape_length _ _ H2); lia).
  rewrite Hrest, offset_app by done.
  pose proof (offset_lt _ _ (in_shape_reads _ _ H1)) as Ho1.
  pose proof (offset_lt _ _ (in_shape_reads _ _ H2)) as Ho2.
  destruct (lookup_lt_is_Some_2 (data mask) (offset (shape mask) i1))
    as [b Hb]; [by rewrite Hm|].
  assert ((b ← data mask; replicate (numel rest) b)
            !! (offset (shape mask) i1 * numel rest + offset rest i2) = Some b)
    as Hlook.
  { rewrite (lookup_bind_const _ _ (numel rest) _ _ b);
      [|intros; by rewrite length_replicate|done..].
    by apply lookup_replicate_2. }
  assert (offset (shape mask) i1 * numel rest + offset rest i2
          < numel (shape t)) as Hlt.
  { rewrite <-Hsel. by eapply lookup_lt_Some. }
  rewrite (lookup_total_zip_with (λ (b : bool) (x : A), if b then v else x));
    [|by rewrite Hsel|by rewrite Ht].
  rewrite (list_lookup_total_correct _ _ _ Hlook).
  by rewrite (list_lookup_total_correct _ _ _ Hb).
Qed.

Lemma setitem_mask_Forall (P : A → Prop) (t t' : nd A) (mask : nd bool) (v : A) :
  setitem_mask t mask v = Ok t' → P v → Forall P (data t) → Forall P (data t').
Proof.
  unfold setitem_mask. case_decide; [|done]. intros ? Hv Ht; simplify_eq/=.
  eapply Forall_zip_with_snd; [|exact Ht].
  apply Forall_forall. intros [] _ y Hy; done.
Qed.

End masks.

Lemma in_shape_reads_pad idx s :
  in_shape idx s → reads (pad (length idx) s) idx.
Proof.
  intros Hin. rewrite pad_ge by (by rewrite (in_shape_length _ _ Hin)).
  by apply in_shape_reads.
Qed.

Lemma item_map_const `{Inhabited A, Inhabited B} (c : B) (a : nd A) idx :
  wf_nd a → in_shape idx (shape a) → item (map_nd (λ _, c) a) idx = c.
Proof. intros. by rewrite item_map_nd by auto using in_shape_reads_pad. Qed.

Lemma mapM_result_Ok {A B} (f : A → result B) (l : list A) (ks : list B) :
  mapM f l = Ok ks ↔ Forall2 (λ x k, f x = Ok k) l ks.
Proof.
  revert ks. induction l as [|x l IH]; intros ks; simpl.
  - change (mret []) with (@Ok (list B) []).
    split; [intros; simplify_eq; constructor|by inversion 1].
  - split.
    + intros (k & Hk & Hrest)%bind_Ok_inv.
      apply bind_Ok_inv in Hrest as (ks' & Hks' & Hret).
      change (mret (k :: ks')) with (Ok (k :: ks')) in Hret. simplify_eq.
      constructor; [done|]. by apply IH.
    + inversion 1 as [|? k ? ks' Hk Hks']; simplify_eq.
      rewrite Hk. result_simpl. apply IH in Hks'. rewrite Hks'. done.
Qed.

Lemma range_singleton k : range k (k + 1) = [k].
Proof.
  unfold range. replace (k + 1 - k)%Z with 1%Z by lia.
  reflexivity.
Qed.

Lemma elem_of_range lo hi size : size ∈ range lo hi ↔ (lo ≤ size < hi)%Z.
Proof. unfold range. rewrite elem_of_seqZ. lia. Qed.

Lemma shape_ge_scalar a k : shape (ge_scalar a k) = nd_shape a.
Proof. by destruct a. Qed.

Lemma shape_le_scalar a k : shape (le_scalar a k) = nd_shape a.
Proof. by destruct a. Qed.

Lemma wf_ge_scalar a k : wf_ndarray a → wf_nd (ge_scalar a k).
Proof. destruct a; simpl; by apply wf_map_nd. Qed.

Lemma wf_le_scalar a k : wf_ndarray a → wf_nd (le_scalar a k).
Proof. destruct a; simpl; by apply wf_map_nd. Qed.

Lemma build_trimap_Ok alpha eroded dilated :
  nd_shape eroded `prefix_of` nd_shape alpha →
  nd_shape dilated `prefix_of` nd_shape alpha →
  is_Ok (build_trimap alpha eroded dilated).
Proof.
  intros He Hd. unfold build_trimap.
  destruct alpha as [x|x]; cbn [zeros_like fill np_setitem_mask nd_shape] in *.
  - destruct (proj1 (setitem_mask_Ok
                (map_nd (λ _, 128 `mod` 256)%Z (map_nd (λ _, 0%Z) x))
                (ge_scalar eroded 255) (255 `mod` 256)%Z)) as [t1 Ht1];
      [by rewrite shape_ge_scalar|].
    rewrite Ht1. result_simpl. cbn [np_setitem_mask].
    destruct (setitem_mask_inv _ _ _ _ Ht1) as (_ & Hs1 & _).
    destruct (proj1 (setitem_mask_Ok t1 (le_scalar dilated 0) (0 `mod` 256)%Z))
      as [t2 Ht2]; [by rewrite shape_le_scalar, Hs1|].
    rewrite Ht2. result_simpl. by eexists.
  - destruct (proj1 (setitem_mask_Ok
                (map_nd (λ _, of_Z 128) (map_nd (λ _, of_Z 0) x))
                (ge_scalar eroded 255) (of_Z 255))) as [t1 Ht1];
      [by rewrite shape_ge_scalar|].
    rewrite Ht1. result_simpl. cbn [np_setitem_mask].
    destruct (setitem_mask_inv _ _ _ _ Ht1) as (_ & Hs1 & _).
    destruct (proj1 (setitem_mask_Ok t1 (le_scalar dilated 0) (of_Z 0)))
      as [t2 Ht2]; [by rewrite shape_le_scalar, Hs1|].
    rewrite Ht2. result_simpl. by eexists.
Qed.

(** What a trimap that was built holds. *)
Lemma build_trimap_inv alpha eroded dilated t :
  build_trimap alpha eroded dilated = Ok t →
  shape t = nd_shape alpha ∧
  nd_shape eroded `prefix_of` nd_shape alpha ∧
  nd_shape dilated `prefix_of` nd_shape alpha ∧
  (wf_ndarray alpha → wf_ndarray eroded → wf_ndarray dilated →
   wf_nd t ∧
   ∀ idx, in_shape idx (nd_shape alpha) →
     item t idx = trimap_pixel (at_max eroded (under eroded idx))
                               (at_zero dilated (under dilated idx))).
Proof.
  unfold build_trimap.
  destruct alpha as [x|x]; cbn [zeros_like fill np_setitem_mask nd_shape].
  - intros (y1 & (t1 & H1 & ->)%fmap_Ok_inv & Hrest)%bind_Ok_inv.
    cbn [np_setitem_mask] in Hrest.
    apply bind_Ok_inv in Hrest as (y2 & (t2 & H2 & ->)%fmap_Ok_inv & [= <-]).
    destruct (setitem_mask_inv _ _ _ _ H1) as (Hp1 & Hs1 & Hi1).
    destruct (setitem_mask_inv _ _ _ _ H2) as (Hp2 & Hs2 & Hi2).
    rewrite shape_ge_scalar in Hp1. rewrite shape_le_scalar, Hs1 in Hp2.
    cbn [map_nd shape] in Hp1, Hp2, Hs1.
    split; [cbn [astype_float32 map_nd shape]; by rewrite Hs2, Hs1|].
    split; [done|]. split; [done|]. intros Hwa Hwe Hwd.
    destruct Hi1 as [Hw1 Hi1]; [by do 2 apply wf_map_nd|by apply wf_ge_scalar|].
    destruct Hi2 as [Hw2 Hi2]; [done|by apply wf_le_scalar|].
    split; [by apply wf_map_nd|]. intros idx Hin. cbn [astype_float32].
    rewrite item_map_nd by (rewrite ?Hs2, ?Hs1; auto using in_shape_reads_pad).
    rewrite Hi2 by (by rewrite Hs1). rewrite Hi1 by done.
    rewrite item_map_const; [|by apply wf_map_nd|done].
    rewrite shape_ge_scalar, shape_le_scalar.
    unfold trimap_pixel, at_max, at_zero, under.
    by destruct (item (le_scalar dilated 0) (take (length (nd_shape dilated)) idx)),
      (item (ge_scalar eroded 255) (take (length (nd_shape eroded)) idx)).
  - intros (y1 & (t1 & H1 & ->)%fmap_Ok_inv & Hrest)%bind_Ok_inv.
    cbn [np_setitem_mask] in Hrest.
    apply bind_Ok_inv in Hrest as (y2 & (t2 & H2 & ->)%fmap_Ok_inv & [= <-]).
    destruct (setitem_mask_inv _ _ _ _ H1) as (Hp1 & Hs1 & Hi1).
    destruct (setitem_mask_inv _ _ _ _ H2) as (Hp2 & Hs2 & Hi2).
    rewrite shape_ge_scalar in Hp1. rewrite shape_le_scalar, Hs1 in Hp2.
    cbn [map_nd shape] in Hp1, Hp2, Hs1.
    split; [cbn [astype_float32]; by rewrite Hs2, Hs1|].
    split; [done|]. split; [done|]. intros Hwa Hwe Hwd.
    destruct Hi1 as [Hw1 Hi1]; [by do 2 apply wf_map_nd|by apply wf_ge_scalar|].
    destruct Hi2 as [Hw2 Hi2]; [done|by apply wf_le_scalar|].
    split; [done|]. intros idx Hin. cbn [astype_float32].
    rewrite Hi2 by (by rewrite Hs1). rewrite Hi1 by done.
    rewrite item_map_const; [|by apply wf_map_nd|done].
    rewrite shape_ge_scalar, shape_le_scalar.
    unfold trimap_pixel, at_max, at_zero, under.
    by destruct (item (le_scalar dilated 0) (take (length (nd_shape dilated)) idx)),
      (item (ge_scalar eroded 255) (take (length (nd_shape eroded)) idx)).
Qed.

Lemma build_trimap_values alpha eroded dilated t :
  build_trimap alpha eroded dilated = Ok t → Forall trimap_value (data t).
Proof.
  unfold build_trimap.
  destruct alpha as [x|x]; cbn [zeros_like fill np_setitem_mask].
  - intros (y1 & (t1 & H1 & Hy1)%fmap_Ok_inv & Hrest)%bind_Ok_inv.
    subst y1. cbn [np_setitem_mask] in Hrest.
    apply bind_Ok_inv in Hrest as (y2 & (t2 & H2 & Hy2)%fmap_Ok_inv & ?).
    subst y2.
    simplify_eq/=. apply Forall_fmap.
    eapply (setitem_mask_Forall (λ z, trimap_value (of_Z z))); [exact H2|by left|].
    eapply (setitem_mask_Forall (λ z, trimap_value (of_Z z)));
      [exact H1|by right; right|].
    simpl. apply Forall_fmap, Forall_fmap, Forall_true. intros ?. by right; left.
  - intros (y1 & (t1 & H1 & Hy1)%fmap_Ok_inv & Hrest)%bind_Ok_inv.
    subst y1. cbn [np_setitem_mask] in Hrest.
    apply bind_Ok_inv in Hrest as (y2 & (t2 & H2 & Hy2)%fmap_Ok_inv & ?).
    subst y2.
    simplify_eq/=.
    eapply setitem_mask_Forall; [exact H2|by left|].
    eapply setitem_mask_Forall; [exact H1|by right; right|].
    simpl. apply Forall_fmap, Forall_fmap, Forall_true. intros ?. by right; left.
Qed.

(** * MergeFgAndBg *)

Section merge.
Import Ref Run.

Lemma np_binop_F32_r fz ff a y :
  np_binop fz ff a (F32 y) = F32 <$> broadcast2 ff (astype_float32 a) y.
Proof. by destruct a. Qed.

Lemma np_binop_F32_l fz ff x b :
  np_binop fz ff (F32 x) b = F32 <$> broadcast2 ff x (astype_float32 b).
Proof. by destruct b. Qed.

Lemma shape_astype_float32 a : shape (astype_float32 a) = nd_shape a.
Proof. by destruct a. Qed.

Lemma wf_astype_float32 a : wf_ndarray a → wf_nd (astype_float32 a).
Proof. destruct a; simpl; [by apply wf_map_nd|done]. Qed.

Lemma broadcast_shapes_last_1_r s c :
  broadcast_shapes (s ++ [c]) (s ++ [1]) = Some (s ++ [c]).
Proof.
  unfold broadcast_shapes. rewrite !pad_ge by (rewrite !length_app; simpl; lia).
  induction s as [|d s IH]; simpl.
  - unfold broadcast_dim. destruct (c =? 1) eqn:Hc; [|done].
    apply Nat.eqb_eq in Hc. by subst.
  - unfold broadcast_dim at 1. rewrite Nat.eqb_refl. simpl. by rewrite IH.
Qed.

Lemma broadcast_shapes_last_1_l s c :
  broadcast_shapes (s ++ [1]) (s ++ [c]) = Some (s ++ [c]).
Proof.
  unfold broadcast_shapes. rewrite !pad_ge by (rewrite !length_app; simpl; lia).
  induction s as [|d s IH]; simpl.
  - unfold broadcast_dim. destruct (1 =? c) eqn:Hc; [|done].
    apply Nat.eqb_eq in Hc. by subst.
  - unfold broadcast_dim at 1. rewrite Nat.eqb_refl. simpl. by rewrite IH.
Qed.

(** What the call computes when the matte is [H x W] and the images are
    [H x W x 3]. *)
Lemma MergeFgAndBg_call_Ok (results : sample) (alpha fg bg : ndarray) (H W : nat) :
  results !! "alpha" = Some (VArray alpha) →
  results !! "fg" = Some (VArray fg) →
  results !! "bg" = Some (VArray bg) →
  nd_shape alpha = [H; W] →
  nd_shape fg = [H; W; 3] → nd_shape bg = [H; W; 3] →
  ∃ merged : nd float32,
    MergeFgAndBg_call results = Ok (<["merged" := VArray (F32 merged)]> results) ∧
    shape merged = [H; W; 3] ∧
    wf_nd merged ∧
    ∀ i j c, wf_ndarray alpha → i < H → j < W → c < 3 →
      let a := div (item (astype_float32 alpha) [i; j]) (of_Z 255) in
      item merged [i; j; c] =
        add (mul (item (astype_float32 fg) [i; j; c]) a)
            (mul (sub (of_Z 1) a) (item (astype_float32 bg) [i; j; c])).
Proof.
  intros Ha Hfg Hbg Hsa Hsfg Hsbg.
  unfold MergeFgAndBg_call, getitem. rewrite Ha, Hfg, Hbg.
  cbn [as_array mbind result_bind].
  unfold np_mul, np_add.
  set (alpha3 := div_scalar (expand_dims_last (astype_float32 alpha)) 255).
  assert (shape alpha3 = [H; W] ++ [1]) as Hs3.
  { unfold alpha3. simpl. by rewrite shape_astype_float32, Hsa. }
  pose proof (broadcast_shapes_last_1_r [H; W] 3) as Hb1.
  pose proof (broadcast_shapes_last_1_l [H; W] 3) as Hb2.
  rewrite np_binop_F32_r.
  erewrite (broadcast2_Ok mul (astype_float32 fg) alpha3)
    by (rewrite shape_astype_float32, Hsfg, Hs3; exact Hb1).
  result_simpl. rewrite np_binop_F32_l.
  erewrite (broadcast2_Ok mul (rsub_scalar 1 alpha3) (astype_float32 bg))
    by (change (shape (rsub_scalar 1 alpha3)) with (shape alpha3);
        rewrite shape_astype_float32, Hsbg, Hs3; exact Hb2).
  result_simpl. rewrite np_binop_F32_l.
  erewrite broadcast2_Ok by (simpl; apply broadcast_shapes_refl).
  result_simpl.
  simpl. eexists. split; [reflexivity|]. split; [done|]. split.
  { unfold wf_nd. simpl. by rewrite length_fmap, length_indices. }
  intros i j c Hwf Hi Hj Hc.
  assert (in_shape [i; j; c] [H; W; 3]) as Hin by shape_tac.
  assert (reads [H; W; 1] [i; j; c]) as Hr by shape_tac.
  assert (wf_nd (expand_dims_last (astype_float32 alpha))) as Hwf3.
  { unfold wf_nd. simpl. rewrite numel_app. simpl.
    rewrite (wf_astype_float32 _ Hwf). lia. }
  assert (item alpha3 [i; j; c]
          = div (item (astype_float32 alpha) [i; j]) (of_Z 255)) as Hitem.
  { unfold alpha3, div_scalar. rewrite item_map_nd.
    - f_equal. apply (item_expand_dims_last _ [i; j]).
      by rewrite shape_astype_float32, Hsa.
    - done.
    - simpl. by rewrite shape_astype_float32, Hsa. }
  rewrite item_indices by done.
  rewrite !item_indices by done.
  unfold rsub_scalar. rewrite item_map_nd.
  - by rewrite Hitem.
  - by apply wf_map_nd.
  - by rewrite Hs3.
Qed.

(** C1. For a record with a byte-scaled [H x W] "alpha" and [H x W x 3] "fg"
    and "bg", [MergeFgAndBg.__call__] returns the record with the key "merged"
    added, bound to the [float32] array [fg * a + (1 - a) * bg] where
    [a = alpha / 255] is the same for the three channels of a pixel; no key
    of the input is removed, and no other key is rebound. *)
Theorem MergeFgAndBg_call_merged (results : sample) (alpha fg bg : ndarray)
    (H W : nat) :
  results !! "alpha" = Some (VArray alpha) →
  results !! "fg" = Some (VArray fg) →
  results !! "bg" = Some (VArray bg) →
  wf_ndarray alpha → nd_shape alpha = [H; W] →
  nd_shape fg = [H; W; 3] → nd_shape bg = [H; W; 3] →
  ∃ (results' : sample) (merged : nd float32),
    MergeFgAndBg_call results = Ok results' ∧
    results' !! "merged" = Some (VArray (F32 merged)) ∧
    shape merged = [H; W; 3] ∧
    (∀ i j c, i < H → j < W → c < 3 →
      let a := div (item (astype_float32 alpha) [i; j]) (of_Z 255) in
      item merged [i; j; c] =
        add (mul (item (astype_float32 fg) [i; j; c]) a)
            (mul (sub (of_Z 1) a) (item (astype_float32 bg) [i; j; c]))) ∧
    (∀ key, is_Some (results !! key) → is_Some (results' !! key)) ∧
    (∀ key, key ≠ "merged" → results' !! key = results !! key).
Proof.
  intros Ha Hfg Hbg Hwf Hsa Hsfg Hsbg.
  destruct (MergeFgAndBg_call_Ok results alpha fg bg H W)
    as (merged & Hcall & Hshape & _ & Hitem); try done.
  exists (<["merged" := VArray (F32 merged)]> results), merged.
  split; [done|]. split; [by rewrite lookup_insert_eq|].
  split; [done|]. split; [by auto|]. split.
  - intros key Hkey. rewrite lookup_insert. by case_decide.
  - intros key Hkey. by rewrite lookup_insert_ne.
Qed.

(** A matte given as [H x W x 1] becomes [H x W x 1 x 1] under
    [[..., None]], and that does not broadcast against [H x W x 3]. *)
Lemma broadcast_shapes_hw11 H W :
  H ≠ W → H ≠ 1 → W ≠ 1 → broadcast_shapes [H; W; 3] [H; W; 1; 1] = None.
Proof.
  intros HW H1 W1. unfold broadcast_shapes, pad. simpl. unfold broadcast_dim.
  destruct (Nat.eqb_spec 1 H); [done|]. simpl.
  destruct (Nat.eqb_spec H 1); [done|]. simpl.
  destruct (Nat.eqb_spec H W); [done|].
  by destruct (Nat.eqb_spec W 1).
Qed.

(** C9, as stated, fails: a well-formed record with a [2 x 3 x 1] matte
    and [2 x 3 x 3] images makes the call stop with a shape mismatch. *)
Lemma MergeFgAndBg_call_hw1_mismatch :
  ∃ alpha fg bg,
    sample_hw1 !! "alpha" = Some (VArray alpha) ∧
    sample_hw1 !! "fg" = Some (VArray fg) ∧
    sample_hw1 !! "bg" = Some (VArray bg) ∧
    wf_ndarray alpha ∧ wf_ndarray fg ∧ wf_ndarray bg ∧
    nd_shape alpha = [2; 3; 1] ∧
    nd_shape fg = [2; 3; 3] ∧ nd_shape bg = [2; 3; 3] ∧
    MergeFgAndBg_call sample_hw1 = Raise ValueError.
Proof.
  eexists _, _, _. split; [reflexivity|]. split; [reflexivity|].
  split; [reflexivity|]. by vm_compute.
Qed.

(** C9, amended. With "fg" and "bg" of shape [H x W x 3]: the call
    completes and gives an [H x W x 3] "merged" when "alpha" has shape
    [H x W]; when "alpha" has shape [H x W x 1], with [H] and [W] different
    and both above one, the call raises the shape mismatch. *)
Theorem MergeFgAndBg_call_shapes (results : sample) (alpha fg bg : ndarray)
    (H W : nat) :
  results !! "alpha" = Some (VArray alpha) →
  results !! "fg" = Some (VArray fg) →
  results !! "bg" = Some (VArray bg) →
  nd_shape fg = [H; W; 3] → nd_shape bg = [H; W; 3] →
  (nd_shape alpha = [H; W] →
     ∃ (results' : sample) (merged : nd float32),
       MergeFgAndBg_call results = Ok results' ∧
       results' !! "merged" = Some (VArray (F32 merged)) ∧
       shape merged = [H; W; 3] ∧ wf_nd merged) ∧
  (nd_shape alpha = [H; W; 1] → H ≠ W → H ≠ 1 → W ≠ 1 →
     MergeFgAndBg_call results = Raise ValueError).
Proof.
  intros Ha Hfg Hbg Hsfg Hsbg. split.
  - intros Hsa.
    destruct (MergeFgAndBg_call_Ok results alpha fg bg H W)
      as (merged & Hcall & Hshape & Hwf & _); try done.
    eexists _, merged. split; [done|]. by rewrite lookup_insert_eq.
  - intros Hsa HW H1 W1.
    unfold MergeFgAndBg_call, getitem. rewrite Ha, Hfg, Hbg.
    cbn [as_array mbind result_bind].
    unfold np_mul. rewrite np_binop_F32_r. unfold broadcast2.
    rewrite shape_astype_float32, Hsfg.
    cbn [div_scalar map_nd expand_dims_last shape].
    rewrite shape_astype_float32, Hsa.
    change ([H; W; 1] ++ [1]) with [H; W; 1; 1].
    by rewrite broadcast_shapes_hw11.
Qed.

(** The amended C9 at work: the bytes of [sample1] merge; the
    [2 x 3 x 1] matte of [sample_hw1] does not. *)
Lemma MergeFgAndBg_call_shapes_witness :
  (∃ (results' : sample) (merged : nd float32),
     MergeFgAndBg_call sample1 = Ok results' ∧
     results' !! "merged" = Some (VArray (F32 merged)) ∧
     shape merged = [2; 2; 3] ∧ wf_nd merged) ∧
  MergeFgAndBg_call sample_hw1 = Raise ValueError.
Proof.
  split.
  - by apply (MergeFgAndBg_call_shapes sample1 _ _ _ 2 2 eq_refl eq_refl eq_refl).
  - by apply (MergeFgAndBg_call_shapes sample_hw1 _ _ _ 2 3 eq_refl eq_refl eq_refl).
Defined.

(** C1 on [sample1]. *)
Lemma MergeFgAndBg_call_merged_witness :
  ∃ (results' : sample) (merged : nd float32),
    MergeFgAndBg_call sample1 = Ok results' ∧
    results' !! "merged" = Some (VArray (F32 merged)) ∧
    shape merged = [2; 2; 3] ∧
    item merged [1; 1; 2] =
      add (mul (of_Z 120) (div (of_Z 51) (of_Z 255)))
          (mul (sub (of_Z 1) (div (of_Z 51) (of_Z 255))) (of_Z 9)) ∧
    results' !! "fg" = sample1 !! "fg".
Proof.
  destruct (MergeFgAndBg_call_merged sample1 _ _ _ 2 2 eq_refl eq_refl eq_refl)
    as (results' & merged & Hcall & Hm & Hs & Hitem & _ & Hother); try done.
  exists results', merged. split; [done|]. split; [done|]. split; [done|].
  split; [|by apply Hother].
  rewrite Hitem by lia. by vm_compute.
Defined.

End merge.

(** * GenerateTrimap *)

Section trimap.
Context `{Cv2}.

Lemma in_shape_under e a idx :
  nd_shape e `prefix_of` nd_shape a → in_shape idx (nd_shape a) →
  in_shape (under e idx) (nd_shape e).
Proof. apply in_shape_take. Qed.

Lemma at_max_mono e a idx :
  wf_ndarray e → wf_ndarray a → nd_shape e `prefix_of` nd_shape a →
  in_shape idx (nd_shape a) → nd_le e a (under e idx) idx →
  at_max e (under e idx) → at_max a idx.
Proof.
  intros Hwe Hwa Hs Hin Hle. unfold at_max.
  pose proof (in_shape_under e a idx Hs Hin) as Hin'.
  destruct e as [x|x], a as [y|y]; try done; cbn [ge_scalar nd_le nd_shape] in *.
  - rewrite !item_map_nd by auto using in_shape_reads_pad.
    intros ?%Is_true_true%Z.leb_le. apply Is_true_true, Z.leb_le. lia.
  - rewrite !item_map_nd by auto using in_shape_reads_pad.
    unfold leb in *. intros He%Is_true_true. apply Is_true_true.
    by eapply SFleb_trans.
Qed.

Lemma at_zero_mono a d idx :
  wf_ndarray a → wf_ndarray d → nd_shape d `prefix_of` nd_shape a →
  in_shape idx (nd_shape a) → nd_le a d idx (under d idx) →
  at_zero d (under d idx) → at_zero a idx.
Proof.
  intros Hwa Hwd Hs Hin Hle. unfold at_zero.
  pose proof (in_shape_under d a idx Hs Hin) as Hin'.
  destruct a as [x|x], d as [y|y]; try done; cbn [le_scalar nd_le nd_shape] in *.
  - rewrite !item_map_nd by auto using in_shape_reads_pad.
    intros ?%Is_true_true%Z.leb_le. apply Is_true_true, Z.leb_le. lia.
  - rewrite !item_map_nd by auto using in_shape_reads_pad.
    unfold leb in *. intros He%Is_true_true. apply Is_true_true.
    by eapply SFleb_trans.
Qed.

Lemma at_max_not_zero a idx :
  wf_ndarray a → in_shape idx (nd_shape a) → at_max a idx → ¬ at_zero a idx.
Proof.
  intros Hwa Hin. unfold at_max, at_zero.
  destruct a as [x|x]; cbn [ge_scalar le_scalar nd_shape] in *.
  - rewrite !item_map_nd by auto using in_shape_reads_pad.
    intros ?%Is_true_true%Z.leb_le ?%Is_true_true%Z.leb_le. lia.
  - rewrite !item_map_nd by auto using in_shape_reads_pad.
    unfold leb. intros H1%Is_true_true H2%Is_true_true.
    by pose proof (SFleb_trans _ _ _ H1 H2).
Qed.

Lemma trimap_pixel_128 e d :
  trimap_pixel e d = of_Z 128 ↔ ¬ e ∧ ¬ d.
Proof.
  destruct e, d; unfold trimap_pixel; simpl; split;
    try (intros Heq; vm_compute in Heq; discriminate);
    try (intros [H1 H2]; exfalso; (by apply H1) || (by apply H2));
    try done.
  intros _. split; intros [].
Qed.

(** What a call that returns went through: the draws, the two filters and
    the trimap built from what they gave. *)
Lemma GenerateTrimap_call_inv (self : GenerateTrimap) (results results' : sample)
    (g g' : rng) :
  GenerateTrimap_call self results g = Ok (results', g') →
  ∃ alpha ke ie kd id eroded dilated trimap,
    results !! "alpha" = Some (VArray alpha) ∧
    ke ∈ kernels self ∧ kd ∈ kernels self ∧
    (min_iteration self ≤ ie < max_iteration self)%Z ∧
    (min_iteration self ≤ id < max_iteration self)%Z ∧
    erode alpha ke ie = Ok eroded ∧ dilate alpha kd id = Ok dilated ∧
    build_trimap alpha eroded dilated = Ok trimap ∧
    results' = <["trimap" := VArray (F32 trimap)]> results ∧
    if symmetric self
    then kd = ke ∧ id = ie ∧ g' = advance (advance g)
    else g' = advance (advance (advance (advance g))).
Proof.
  unfold GenerateTrimap_call. intros Hc.
  apply bind_Ok_inv in Hc as (alpha & Ha & Hc).
  assert (results !! "alpha" = Some (VArray alpha)) as Halpha.
  { revert Ha. unfold getitem.
    destruct (results !! "alpha") as [[]|]; intros; by simplify_eq/=. }
  apply bind_Ok_inv in Hc as ([xe g1] & [_ ->]%randint_inv & Hc).
  apply bind_Ok_inv in Hc as ([ie g2] & [Hie ->]%randint_inv & Hc).
  apply bind_Ok_inv in Hc as ([[xd id] g3] & Hsym & Hc).
  apply bind_Ok_inv in Hc as (ke & Hgke & Hc).
  apply bind_Ok_inv in Hc as (eroded & Hero & Hc).
  apply bind_Ok_inv in Hc as (kd & Hkd & Hc).
  apply bind_Ok_inv in Hc as (dilated & Hdil & Hc).
  apply bind_Ok_inv in Hc as (trimap & Hb & Hc).
  injection Hc as <- <-.
  exists alpha, ke, ie, kd, id, eroded, dilated, trimap.
  pose proof (list_getitem_inv _ _ _ Hgke) as Hke.
  pose proof (list_getitem_inv _ _ _ Hkd) as Hkd'.
  destruct (symmetric self).
  - injection Hsym as <- <- <-.
    assert (kd = ke) as -> by congruence.
    split_and!; (done || lia).
  - apply bind_Ok_inv in Hsym as ([xd' g4] & [_ ->]%randint_inv & Hsym).
    apply bind_Ok_inv in Hsym as ([id' g5] & [Hid ->]%randint_inv & Hsym).
    injection Hsym as <- <- <-.
    split_and!; (done || lia).
Qed.

(** The call returns as soon as the two filters do and give images that
    can mask the trimap. *)
Lemma GenerateTrimap_call_Ok (self : GenerateTrimap) (results : sample)
    (g : rng) (alpha : ndarray) :
  results !! "alpha" = Some (VArray alpha) →
  kernels self ≠ [] →
  (min_iteration self < max_iteration self)%Z →
  filters erode self alpha → filters dilate self alpha →
  is_Ok (GenerateTrimap_call self results g).
Proof.
  intros Ha Hk Hit He Hd.
  unfold GenerateTrimap_call, getitem. rewrite Ha.
  cbn [mbind result_bind as_array].
  assert (0 < Z.of_nat (length (kernels self)))%Z as Hlen
    by (destruct (kernels self); simpl; [done|lia]).
  destruct (randint_Ok 0 (Z.of_nat (length (kernels self))) g)
    as (xe & -> & Hxe); [done|].
  cbn [mbind result_bind].
  destruct (randint_Ok (min_iteration self) (max_iteration self) (advance g))
    as (ie & -> & Hie); [done|].
  cbn [mbind result_bind].
  destruct (list_getitem_Ok (kernels self) xe) as (ke & Hgke & Hke); [done|].
  destruct (He ke ie Hke Hie) as (eroded & Hero & Hse & Hwe).
  destruct (symmetric self) eqn:Hsym; cbn [mbind result_bind].
  - rewrite Hgke. cbn [mbind result_bind]. rewrite Hero.
    cbn [mbind result_bind].
    destruct (Hd ke ie Hke Hie) as (dilated & Hdil & Hsd & Hwd). rewrite Hdil.
    cbn [mbind result_bind].
    destruct (build_trimap_Ok alpha eroded dilated) as [t Hb]; [done..|].
    rewrite Hb. by eexists.
  - destruct (randint_Ok 0 (Z.of_nat (length (kernels self))) (advance (advance g)))
      as (xd & -> & Hxd); [done|].
    cbn [mbind result_bind].
    destruct (randint_Ok (min_iteration self) (max_iteration self)
                (advance (advance (advance g))))
      as (id & -> & Hid); [done|].
    cbn [mbind result_bind].
    destruct (list_getitem_Ok (kernels self) xd) as (kd & Hgkd & Hkd); [done|].
    rewrite Hgke. cbn [mbind result_bind]. rewrite Hero.
    cbn [mbind result_bind]. rewrite Hgkd. cbn [mbind result_bind].
    destruct (Hd kd id Hkd Hid) as (dilated & Hdil & Hsd & Hwd). rewrite Hdil.
    cbn [mbind result_bind].
    destruct (build_trimap_Ok alpha eroded dilated) as [t Hb]; [done..|].
    rewrite Hb. by eexists.
Qed.

(** C2. For every matte and whatever [cv2.erode] and [cv2.dilate] gave
    for it, a call of [GenerateTrimap.__call__] that returns has stored
    under "trimap" an array of the shape of the matte whose every value is
    0, 128 or 255: it is 128 everywhere, except 255 where the eroded matte
    is [>= 255], except 0 where the dilated matte is [<= 0]. An eroded or
    dilated matte that came back without the channel axis masks the pixel
    whose index it begins. The call returns whenever a kernel and an
    iteration count can be drawn and the two filters give such images. *)
Theorem GenerateTrimap_call_trimap (self : GenerateTrimap) (results : sample)
    (g : rng) (alpha : ndarray) :
  results !! "alpha" = Some (VArray alpha) →
  wf_ndarray alpha →
  (∀ results' g',
     GenerateTrimap_call self results g = Ok (results', g') →
     ∃ eroded dilated trimap,
       (∃ k n, k ∈ kernels self ∧
          (min_iteration self ≤ n < max_iteration self)%Z ∧
          erode alpha k n = Ok eroded) ∧
       (∃ k n, k ∈ kernels self ∧
          (min_iteration self ≤ n < max_iteration self)%Z ∧
          dilate alpha k n = Ok dilated) ∧
       results' !! "trimap" = Some (VArray (F32 trimap)) ∧
       shape trimap = nd_shape alpha ∧
       Forall trimap_value (data trimap) ∧
       (wf_ndarray eroded → wf_ndarray dilated →
        ∀ idx, in_shape idx (nd_shape alpha) →
          item trimap idx =
            if at_zero dilated (under dilated idx) then of_Z 0
            else if at_max eroded (under eroded idx) then of_Z 255
            else of_Z 128)) ∧
  (kernels self ≠ [] →
   (min_iteration self < max_iteration self)%Z →
   filters erode self alpha → filters dilate self alpha →
   is_Ok (GenerateTrimap_call self results g)).
Proof.
  intros Ha Hwa. split.
  - intros results' g'
      (alpha' & ke & ie & kd & id & eroded & dilated & trimap & Ha' & Hke & Hkd
       & Hie & Hid & Hero & Hdil & Hb & -> & _)%GenerateTrimap_call_inv.
    simplify_eq.
    destruct (build_trimap_inv _ _ _ _ Hb) as (Hst & _ & _ & Hitem).
    exists eroded, dilated, trimap.
    split; [by eauto|]. split; [by eauto|].
    split; [by rewrite lookup_insert_eq|]. split; [done|].
    split; [by eapply build_trimap_values|].
    intros Hwe Hwd. by destruct (Hitem Hwa Hwe Hwd).
  - intros Hk Hit He Hd. by eapply GenerateTrimap_call_Ok.
Qed.

(** What a returning call says of the regions of the matte, given an
    erosion that came out below the matte and a dilation that came out
    above it. *)
Lemma GenerateTrimap_call_regions_of (self : GenerateTrimap)
    (results results' : sample) (g g' : rng) (alpha : ndarray) :
  results !! "alpha" = Some (VArray alpha) →
  wf_ndarray alpha →
  (∀ k n e, k ∈ kernels self → erode alpha k n = Ok e →
     wf_ndarray e ∧
     ∀ idx, in_shape idx (nd_shape alpha) → nd_le e alpha (under e idx) idx) →
  (∀ k n e, k ∈ kernels self → dilate alpha k n = Ok e →
     wf_ndarray e ∧
     ∀ idx, in_shape idx (nd_shape alpha) → nd_le alpha e idx (under e idx)) →
  GenerateTrimap_call self results g = Ok (results', g') →
  ∃ eroded dilated trimap,
    (∃ k n, k ∈ kernels self ∧ erode alpha k n = Ok eroded) ∧
    (∃ k n, k ∈ kernels self ∧ dilate alpha k n = Ok dilated) ∧
    results' !! "trimap" = Some (VArray (F32 trimap)) ∧
    ∀ idx, in_shape idx (nd_shape alpha) →
      (at_max eroded (under eroded idx) → at_max alpha idx) ∧
      (at_max alpha idx → ¬ at_zero dilated (under dilated idx)) ∧
      ¬ (at_max eroded (under eroded idx) ∧ at_zero dilated (under dilated idx)) ∧
      (item trimap idx = of_Z 128 ↔
         ¬ at_max eroded (under eroded idx) ∧
         ¬ at_zero dilated (under dilated idx)).
Proof.
  intros Ha Hwa Hanti Hext
    (alpha' & ke & ie & kd & id & eroded & dilated & trimap & Ha' & Hke & Hkd
     & Hie & Hid & Hero & Hdil & Hb & -> & _)%GenerateTrimap_call_inv.
  simplify_eq.
  destruct (Hanti ke ie eroded Hke Hero) as [Hwe Hle1].
  destruct (Hext kd id dilated Hkd Hdil) as [Hwd Hle2].
  destruct (build_trimap_inv _ _ _ _ Hb) as (Hst & Hpe & Hpd & Hitem).
  destruct (Hitem Hwa Hwe Hwd) as [_ Hitem'].
  exists eroded, dilated, trimap.
  split; [by eauto|]. split; [by eauto|].
  split; [by rewrite lookup_insert_eq|].
  intros idx Hin.
  assert (at_max eroded (under eroded idx) → at_max alpha idx) as H1
    by (apply at_max_mono; auto).
  assert (at_max alpha idx → ¬ at_zero dilated (under dilated idx)) as H2.
  { intros Hmax Hzero. eapply at_max_not_zero; [| |exact Hmax|]; [done..|].
    eapply at_zero_mono; [| | | |apply Hle2|]; done. }
  split; [done|]. split; [done|].
  split; [intros [Hm Hz]; by apply (H2 (H1 Hm))|].
  rewrite Hitem' by done. apply trimap_pixel_128.
Qed.

Lemma GenerateTrimap_init_inv (kernel_size iterations : int_or_tuple)
    (sym : bool) (self : GenerateTrimap) :
  GenerateTrimap_init kernel_size iterations sym = Ok self →
  ∃ min_kernel max_kernel,
    match kernel_size with
    | PyInt k => min_kernel = k ∧ max_kernel = (k + 1)%Z
    | PyTuple t => t = [min_kernel; max_kernel]
    end ∧
    match iterations with
    | PyInt i => min_iteration self = i ∧ max_iteration self = (i + 1)%Z
    | PyTuple t => t = [min_iteration self; max_iteration self]
    end ∧
    Forall2 (λ size k, getStructuringElement MORPH_ELLIPSE (size, size) = Ok k)
      (range min_kernel max_kernel) (kernels self) ∧
    symmetric self = sym.
Proof.
  unfold GenerateTrimap_init.
  intros ([lo hi] & Hks & Hrest)%bind_Ok_inv.
  apply bind_Ok_inv in Hrest as ([ilo ihi] & Hit & Hrest).
  apply bind_Ok_inv in Hrest as (ks & Hks' & Hself). simplify_eq.
  apply mapM_result_Ok in Hks'. exists lo, hi. cbn.
  split; [|split; [|done]].
  - destruct kernel_size as [k|[|a [|b [|]]]]; by simplify_eq/=.
  - destruct iterations as [k|[|a [|b [|]]]]; by simplify_eq/=.
Qed.

(** The constructor returns as soon as [cv2.getStructuringElement] gives a
    kernel for every size of the range. *)
Lemma GenerateTrimap_init_Ok (lo hi ilo ihi : Z) (sym : bool)
    (ks : list ndarray) :
  Forall2 (λ size k, getStructuringElement MORPH_ELLIPSE (size, size) = Ok k)
    (range lo hi) ks →
  (mapM (λ size, getStructuringElement MORPH_ELLIPSE (size, size))
        (range lo hi) ≫= λ kernels,
   Ok {| kernels := kernels; min_iteration := ilo; max_iteration := ihi;
         symmetric := sym |})
  = Ok {| kernels := ks; min_iteration := ilo; max_iteration := ihi;
          symmetric := sym |}.
Proof. intros Hks%mapM_result_Ok. by rewrite Hks. Qed.

(** C5. [GenerateTrimap.__init__] builds one elliptical kernel per integer
    size of [[lo, hi)], the upper bound left out, and no other: it returns
    as soon as [cv2.getStructuringElement] gives a kernel for each of these
    sizes, with the kernels in the order of the sizes. A single int [k] for
    [kernel_size] gives exactly the one kernel of size [k]; a single int
    [i] for [iterations] makes every draw of the iteration count give [i];
    a pair for [iterations] is kept as the two bounds of the draw. *)
Theorem GenerateTrimap_init_kernels :
  (∀ lo hi iterations sym self,
     GenerateTrimap_init (PyTuple [lo; hi]) iterations sym = Ok self →
     Forall2 (λ size k, getStructuringElement MORPH_ELLIPSE (size, size) = Ok k)
       (range lo hi) (kernels self) ∧
     length (kernels self) = Z.to_nat (hi - lo) ∧
     NoDup (range lo hi) ∧
     ∀ size, size ∈ range lo hi ↔ (lo ≤ size < hi)%Z) ∧
  (∀ k iterations sym self,
     GenerateTrimap_init (PyInt k) iterations sym = Ok self →
     ∃ ker, kernels self = [ker] ∧
       getStructuringElement MORPH_ELLIPSE (k, k) = Ok ker) ∧
  (∀ kernel_size i sym self,
     GenerateTrimap_init kernel_size (PyInt i) sym = Ok self →
     min_iteration self = i ∧ max_iteration self = (i + 1)%Z ∧
     ∀ g, randint (min_iteration self) (max_iteration self) g
          = Ok (i, advance g)) ∧
  (∀ k i sym ker,
     getStructuringElement MORPH_ELLIPSE (k, k) = Ok ker →
     GenerateTrimap_init (PyInt k) (PyInt i) sym
       = Ok {| kernels := [ker]; min_iteration := i;
               max_iteration := i + 1; symmetric := sym |}) ∧
  (∀ lo hi i sym ks,
     Forall2 (λ size k, getStructuringElement MORPH_ELLIPSE (size, size) = Ok k)
       (range lo hi) ks →
     GenerateTrimap_init (PyTuple [lo; hi]) (PyInt i) sym
       = Ok {| kernels := ks; min_iteration := i;
               max_iteration := i + 1; symmetric := sym |}) ∧
  (∀ lo hi ilo ihi sym ks,
     Forall2 (λ size k, getStructuringElement MORPH_ELLIPSE (size, size) = Ok k)
       (range lo hi) ks →
     GenerateTrimap_init (PyTuple [lo; hi]) (PyTuple [ilo; ihi]) sym
       = Ok {| kernels := ks; min_iteration := ilo;
               max_iteration := ihi; symmetric := sym |}) ∧
  (∀ k ilo ihi sym ker,
     getStructuringElement MORPH_ELLIPSE (k, k) = Ok ker →
     GenerateTrimap_init (PyInt k) (PyTuple [ilo; ihi]) sym
       = Ok {| kernels := [ker]; min_iteration := ilo;
               max_iteration := ihi; symmetric := sym |}).
Proof.
  split_and!.
  - intros lo hi iterations sym self Hinit.
    apply GenerateTrimap_init_inv in Hinit
      as (lo' & hi' & Hk & _ & Hks & _). simplify_eq.
    split; [done|]. split; [|split].
    + apply Forall2_length in Hks. rewrite <-Hks. unfold range.
      by rewrite length_seqZ.
    + apply NoDup_seqZ.
    + apply elem_of_range.
  - intros k iterations sym self Hinit.
    apply GenerateTrimap_init_inv in Hinit
      as (lo' & hi' & [-> ->] & _ & Hks & _).
    rewrite range_singleton in Hks.
    inversion Hks as [|? ker ? ? Hker Hnil]; simplify_eq.
    inversion Hnil; simplify_eq. by exists ker.
  - intros kernel_size i sym self Hinit.
    apply GenerateTrimap_init_inv in Hinit
      as (lo' & hi' & _ & [Hmin Hmax] & _ & _).
    split; [done|]. split; [done|]. intros g.
    rewrite Hmin, Hmax. unfold randint.
    rewrite (proj2 (Z.ltb_lt _ _)) by lia.
    replace (i + 1 - i)%Z with 1%Z by lia. by rewrite Z.mod_1_r, Z.add_0_r.
  - intros k i sym ker Hker. unfold GenerateTrimap_init.
    cbn [mbind result_bind]. rewrite range_singleton. simpl.
    rewrite Hker. done.
  - intros lo hi i sym ks Hks. unfold GenerateTrimap_init.
    cbn [unpack2 mbind result_bind]. by apply GenerateTrimap_init_Ok.
  - intros lo hi ilo ihi sym ks Hks. unfold GenerateTrimap_init.
    cbn [unpack2 mbind result_bind]. by apply GenerateTrimap_init_Ok.
  - intros k ilo ihi sym ker Hker. unfold GenerateTrimap_init.
    cbn [unpack2 mbind result_bind]. rewrite range_singleton. simpl.
    rewrite Hker. done.
Qed.

End trimap.

(** * The reference [cv2]: erosion stays below the matte, dilation above *)

Section reference.
Import Ref.

(** ** The order of [float32] *)

Lemma SFcompare_antisym a b : SFcompare b a = CompOpp <$> SFcompare a b.
Proof.
  destruct a as [sa|sa| |sa ma ea], b as [sb|sb| |sb mb eb]; simpl; try done;
    try (by destruct sa); try (by destruct sb); try (by destruct sa, sb).
  f_equal. rewrite (Z.compare_antisym ea eb).
  destruct sa, sb; try done; destruct (ea ?= eb)%Z; simpl; try done;
    by rewrite (Pos.compare_cont_antisym ma mb Eq).
Qed.

Lemma SFcompare_refl a : a ≠ S754_nan → SFcompare a a = Some Eq.
Proof.
  destruct a as [s|s| |s m e]; simpl; try done; [by destruct s|].
  intros _. rewrite Z.compare_refl, Pos.compare_cont_refl. by destruct s.
Qed.

Lemma SFcompare_Some a b :
  a ≠ S754_nan → b ≠ S754_nan → is_Some (SFcompare a b).
Proof.
  destruct a as [sa|sa| |sa ma ea], b as [sb|sb| |sb mb eb]; simpl; by eauto.
Qed.

Lemma leb_refl a : a ≠ S754_nan → leb a a = true.
Proof. intros Ha. unfold leb, SFleb. by rewrite SFcompare_refl. Qed.

Lemma ltb_leb a b : ltb a b = true → leb a b = true.
Proof. unfold ltb, leb, SFltb, SFleb. by destruct (SFcompare a b) as [[]|]. Qed.

Lemma ltb_false_leb a b :
  a ≠ S754_nan → b ≠ S754_nan → ltb a b = false → leb b a = true.
Proof.
  intros Ha Hb. unfold ltb, leb, SFltb, SFleb. rewrite (SFcompare_antisym a b).
  destruct (SFcompare_Some a b Ha Hb) as [c ->]. by destruct c.
Qed.

Lemma fmin_spec a b :
  a ≠ S754_nan → b ≠ S754_nan →
  fmin a b ≠ S754_nan ∧
  leb (fmin a b) a = true ∧ leb (fmin a b) b = true.
Proof.
  intros Ha Hb. unfold fmin. destruct (ltb b a) eqn:Hlt.
  - split; [done|]. split; [by apply ltb_leb|by apply leb_refl].
  - split; [done|]. split; [by apply leb_refl|by apply ltb_false_leb].
Qed.

Lemma fmax_spec a b :
  a ≠ S754_nan → b ≠ S754_nan →
  fmax a b ≠ S754_nan ∧
  leb a (fmax a b) = true ∧ leb b (fmax a b) = true.
Proof.
  intros Ha Hb. unfold fmax. destruct (ltb a b) eqn:Hlt.
  - split; [done|]. split; [by apply ltb_leb|by apply leb_refl].
  - split; [done|]. split; [by apply leb_refl|by apply ltb_false_leb].
Qed.

(** ** One pass and its iterates, for any order the pick respects *)

Lemma item_squeeze `{Inhabited A} (d : list A) (h w y x : nat) :
  item (Nd [h; w] d) [y; x] = item (Nd [h; w; 1] d) [y; x; 0].
Proof.
  unfold item. cbn [data shape length]. by f_equal.
Qed.

Lemma item_eta `{Inhabited A} (a : nd A) idx :
  item (Nd (shape a) (data a)) idx = item a idx.
Proof. by destruct a. Qed.

Section morph.
Context `{Inhabited A} (pick : A → A → A) (border : A).
Context (le : A → A → Prop) (good : A → Prop).
Hypothesis pick_good : ∀ a b, good a → good b → good (pick a b).
Hypothesis pick_l : ∀ a b, good a → good b → le (pick a b) a.
Hypothesis pick_r : ∀ a b, good a → good b → le (pick a b) b.
Hypothesis le_refl : ∀ a, good a → le a a.
Hypothesis le_trans : ∀ a b c, le a b → le b c → le a c.
Hypothesis border_good : good border.

Lemma foldl_pick_good v vs :
  good v → Forall good vs → good (foldl pick v vs).
Proof using pick_good.
  intros Hv Hvs. revert v Hv.
  induction Hvs as [|u vs Hu _ IH]; intros v Hv; [done|].
  simpl. by apply IH, pick_good.
Qed.

Lemma foldl_pick_le v vs x :
  good v → Forall good vs → x ∈ v :: vs → le (foldl pick v vs) x.
Proof using pick_good pick_l pick_r le_refl le_trans.
  intros Hv Hvs. revert v x Hv.
  induction Hvs as [|u vs Hu Hvs IH]; intros v x Hv Hx.
  - apply list_elem_of_singleton in Hx as ->. by apply le_refl.
  - simpl. apply elem_of_cons in Hx as [->|[->|Hx]%elem_of_cons].
    + eapply le_trans; [|by apply (pick_l v u)].
      apply IH; [by apply pick_good|by left].
    + eapply le_trans; [|by apply (pick_r v u)].
      apply IH; [by apply pick_good|by left].
    + apply IH; [by apply pick_good|by right].
Qed.

Lemma morph_pixel_le offs (a : nd A) (h w c y x ch : nat) :
  shape a = [h; w; c] → wf_nd a → Forall good (data a) →
  (0, 0)%Z ∈ offs → y < h → x < w → ch < c →
  good (morph_pixel pick border offs a h w y x ch) ∧
  le (morph_pixel pick border offs a h w y x ch) (item a [y; x; ch]).
Proof using All.
  intros Hs Hwf Hg H0 Hy Hx Hch. unfold morph_pixel. cbv zeta.
  match goal with
  | |- context [fmap ?f offs] => set (seen := f)
  end.
  assert (Forall good (seen <$> offs)) as Hseen.
  { apply Forall_fmap, Forall_forall. intros [dy dx] _. unfold seen.
    cbn [fst snd compose]. case_match eqn:Hin; [|done].
    apply andb_prop in Hin as [Hin Hx2]. apply andb_prop in Hin as [Hin Hx1].
    apply andb_prop in Hin as [Hy1 Hy2].
    apply Z.leb_le in Hy1, Hx1. apply Z.ltb_lt in Hy2, Hx2.
    apply (proj1 (Forall_forall _ _) Hg), item_elem_of; [done|].
    rewrite Hs. apply in_shape_reads_pad. shape_tac. }
  assert (item a [y; x; ch] ∈ seen <$> offs) as Hmem.
  { apply list_elem_of_fmap. exists (0, 0)%Z. split; [|done].
    unfold seen. cbn [fst snd]. rewrite !Z.add_0_r, !Nat2Z.id.
    destruct (Z.leb_spec 0 (Z.of_nat y)); [|lia].
    destruct (Z.ltb_spec (Z.of_nat y) (Z.of_nat h)); [|lia].
    destruct (Z.leb_spec 0 (Z.of_nat x)); [|lia].
    by destruct (Z.ltb_spec (Z.of_nat x) (Z.of_nat w)); [|lia]. }
  destruct (seen <$> offs) as [|v vs]; [by apply elem_of_nil in Hmem|].
  apply Forall_cons in Hseen as [Hv Hvs].
  split; [by apply foldl_pick_good|by apply foldl_pick_le].
Qed.

Lemma morph_le offs (a : nd A) (h w c : nat) :
  shape a = [h; w; c] → wf_nd a → Forall good (data a) → (0, 0)%Z ∈ offs →
  shape (morph pick border offs a) = [h; w; c] ∧
  wf_nd (morph pick border offs a) ∧
  Forall good (data (morph pick border offs a)) ∧
  ∀ y x ch, y < h → x < w → ch < c →
    le (item (morph pick border offs a) [y; x; ch]) (item a [y; x; ch]).
Proof using All.
  intros Hs Hwf Hg H0. unfold morph. rewrite Hs.
  split; [done|]. split.
  { unfold wf_nd. cbn [data shape]. by rewrite length_fmap, length_indices. }
  split.
  - cbn [data]. apply Forall_fmap, Forall_forall.
    intros idx Hidx%elem_of_indices.
    inversion Hidx as [|y ? ? ? Hy Hidx1]; simplify_eq.
    inversion Hidx1 as [|x ? ? ? Hx Hidx2]; simplify_eq.
    inversion Hidx2 as [|ch ? ? ? Hch Hidx3]; simplify_eq.
    inversion Hidx3; simplify_eq. cbn [compose].
    by destruct (morph_pixel_le offs a h w c y x ch).
  - intros y x ch Hy Hx Hch. rewrite item_indices by shape_tac.
    by destruct (morph_pixel_le offs a h w c y x ch).
Qed.

Lemma morph_iter_le offs (a : nd A) (h w c n : nat) :
  shape a = [h; w; c] → wf_nd a → Forall good (data a) → (0, 0)%Z ∈ offs →
  shape (Nat.iter n (morph pick border offs) a) = [h; w; c] ∧
  wf_nd (Nat.iter n (morph pick border offs) a) ∧
  Forall good (data (Nat.iter n (morph pick border offs) a)) ∧
  ∀ y x ch, y < h → x < w → ch < c →
    le (item (Nat.iter n (morph pick border offs) a) [y; x; ch])
       (item a [y; x; ch]).
Proof using All.
  intros Hs Hwf Hg H0. induction n as [|n (IHs & IHw & IHg & IHle)].
  - split; [done|]. split; [done|]. split; [done|].
    intros y x ch Hy Hx Hch. apply le_refl.
    apply (proj1 (Forall_forall _ _) Hg), item_elem_of; [done|].
    rewrite Hs. apply in_shape_reads_pad. shape_tac.
  - cbn [Nat.iter].
    destruct (morph_le offs _ h w c IHs IHw IHg H0) as (Ms & Mw & Mg & Mle).
    split; [done|]. split; [done|]. split; [done|].
    intros y x ch Hy Hx Hch. eapply le_trans; [by apply Mle|by apply IHle].
Qed.

(** What the filter gives, when it gives something: an image of the shape
    of the input, without the channel axis of a single channel, that is
    [le] the input at every place. *)
Lemma morphology_nd_le (a e : nd A) (kernel : ndarray) (n : Z) :
  anchored kernel → wf_nd a → Forall good (data a) →
  morphology_nd pick border a kernel n = Ok e →
  shape e `prefix_of` shape a ∧ wf_nd e ∧
  ∀ idx, in_shape idx (shape a) →
    le (item e (take (length (shape e)) idx)) (item a idx).
Proof using All.
  intros (k & -> & _ & H0) Hwf Hg. unfold morphology_nd.
  destruct (as_image (shape a)) as [[[h w] c]|] eqn:Himg; [|done].
  destruct (shape k) as [|kh [|kw [|]]]; try done.
  case_decide as Hok; [|done]. intros [= <-].
  match goal with
  | |- context [Nat.iter ?p _ _] => generalize p
  end.
  intros passes.
  assert (length (data a) = numel [h; w; c]) as Hlen.
  { rewrite Hwf. destruct (shape a) as [|? [|? [|? [|]]]]; simplify_eq/=; lia. }
  destruct (morph_iter_le (offsets k) (Nd [h; w; c] (data a)) h w c passes)
    as (Rs & Rw & _ & Rle); [done..|].
  set (r := Nat.iter passes (morph pick border (offsets k))
                     (Nd [h; w; c] (data a))) in *.
  assert (length (data r) = h * (w * c)) as Rlen.
  { unfold wf_nd in Rw. rewrite Rw, Rs. simpl. lia. }
  unfold image_shape. cbn [shape data].
  destruct (shape a) as [|h' [|w' [|c' [|]]]] eqn:Hsa; simplify_eq/=.
  - (* an [h x w] matte *)
    split; [done|]. split; [unfold wf_nd; simpl; lia|].
    intros idx Hidx.
    inversion Hidx as [|y ? ? ? Hy Hidx1]; simplify_eq.
    inversion Hidx1 as [|x ? ? ? Hx Hidx2]; simplify_eq.
    inversion Hidx2; simplify_eq. cbn [take].
    rewrite item_squeeze, <-Rs, item_eta.
    rewrite <-(item_eta a), Hsa, item_squeeze. apply Rle; lia.
  - destruct (Nat.eqb_spec c 1) as [->|Hc].
    + (* an [h x w x 1] matte *)
      split; [by exists [1]|].
      split; [unfold wf_nd; simpl; lia|].
      intros idx Hidx.
      inversion Hidx as [|y ? ? ? Hy Hidx1]; simplify_eq.
      inversion Hidx1 as [|x ? ? ? Hx Hidx2]; simplify_eq.
      inversion Hidx2 as [|ch ? ? ? Hch Hidx3]; simplify_eq.
      inversion Hidx3; simplify_eq. cbn [take length].
      assert (ch = 0) as -> by lia.
      rewrite item_squeeze, <-Rs, item_eta.
      rewrite <-(item_eta a), Hsa. apply Rle; lia.
    + (* an [h x w x c] matte *)
      split; [done|]. split; [unfold wf_nd; simpl; lia|].
      intros idx Hidx. rewrite <-Rs, item_eta.
      inversion Hidx as [|y ? ? ? Hy Hidx1]; simplify_eq.
      inversion Hidx1 as [|x ? ? ? Hx Hidx2]; simplify_eq.
      inversion Hidx2 as [|ch ? ? ? Hch Hidx3]; simplify_eq.
      inversion Hidx3; simplify_eq. rewrite Rs. cbn [take length].
      rewrite <-(item_eta a), Hsa. by apply Rle.
Qed.

End morph.

(** The filter gives something for every matte [cv2] takes as an image
    and every kernel whose anchor is set. *)
Lemma morphology_nd_Ok `{Inhabited A} (pick : A → A → A) (border : A)
    (a : nd A) (kernel : ndarray) (n : Z) (h w c : nat) :
  anchored kernel → as_image (shape a) = Some (h, w, c) →
  0 < h → 0 < w → 0 < c ≤ 512 →
  is_Ok (morphology_nd pick border a kernel n).
Proof.
  intros (k & -> & Hl & H0) Himg Hh Hw Hc. unfold morphology_nd.
  rewrite Himg. pose proof H0 as Hset. unfold offsets in H0.
  destruct (shape k) as [|kh [|kw [|]]] eqn:Hsk; simplify_eq/=;
    try (by apply elem_of_nil in H0).
  assert (0 < kh ∧ 0 < kw) as [Hkh Hkw].
  { apply list_elem_of_omap in H0 as (idx & Hidx%elem_of_indices & _).
    inversion Hidx as [|i ? ? ? Hi Hidx1]; simplify_eq.
    inversion Hidx1 as [|j ? ? ? Hj _]; simplify_eq. lia. }
  rewrite decide_True; [by eexists|].
  split_and!; try lia.
  intros Hnil. rewrite Hnil in Hset. by apply elem_of_nil in Hset.
Qed.

(** ** The two filters *)

Lemma min_filter_le (alpha e k : ndarray) (n : Z) :
  anchored k → wf_ndarray alpha → no_nan alpha →
  min_filter alpha k n = Ok e →
  nd_shape e `prefix_of` nd_shape alpha ∧ wf_ndarray e ∧
  ∀ idx, in_shape idx (nd_shape alpha) → nd_le e alpha (under e idx) idx.
Proof.
  intros Hk Hwf Hnan. unfold min_filter.
  destruct alpha as [x|x]; intros (e' & He & ->)%fmap_Ok_inv;
    cbn [nd_shape wf_ndarray nd_le under no_nan] in *.
  - apply (morphology_nd_le Z.min 255%Z Z.le (λ _, True)) in He;
      [done|first [done|by apply Forall_true|intros; lia]..].
  - apply (morphology_nd_le fmin FLT_MAX (λ a b, leb a b = true)
             (λ f, f ≠ S754_nan)) in He; try done.
    + intros a b Ha Hb. by destruct (fmin_spec a b Ha Hb).
    + intros a b Ha Hb. by destruct (fmin_spec a b Ha Hb) as (_ & ? & _).
    + intros a b Ha Hb. by destruct (fmin_spec a b Ha Hb) as (_ & _ & ?).
    + apply leb_refl.
    + apply SFleb_trans.
Qed.

Lemma max_filter_ge (alpha e k : ndarray) (n : Z) :
  anchored k → wf_ndarray alpha → no_nan alpha →
  max_filter alpha k n = Ok e →
  nd_shape e `prefix_of` nd_shape alpha ∧ wf_ndarray e ∧
  ∀ idx, in_shape idx (nd_shape alpha) → nd_le alpha e idx (under e idx).
Proof.
  intros Hk Hwf Hnan. unfold max_filter.
  destruct alpha as [x|x]; intros (e' & He & ->)%fmap_Ok_inv;
    cbn [nd_shape wf_ndarray nd_le under no_nan] in *.
  - apply (morphology_nd_le Z.max 0%Z (λ a b, (b ≤ a)%Z) (λ _, True)) in He;
      [done|first [done|by apply Forall_true|intros; lia]..].
  - apply (morphology_nd_le fmax (SFopp FLT_MAX) (λ a b, leb b a = true)
             (λ f, f ≠ S754_nan)) in He; try done.
    + intros a b Ha Hb. by destruct (fmax_spec a b Ha Hb).
    + intros a b Ha Hb. by destruct (fmax_spec a b Ha Hb) as (_ & ? & _).
    + intros a b Ha Hb. by destruct (fmax_spec a b Ha Hb) as (_ & _ & ?).
    + apply leb_refl.
    + intros a b c Hab Hbc. by eapply SFleb_trans.
Qed.

(** Both filters run on every image, NaNs or not, and give an image that
    can mask the trimap. *)
Lemma morphology_filters (self : GenerateTrimap) (alpha : ndarray) :
  Forall anchored (kernels self) → image alpha → wf_ndarray alpha →
  filters min_filter self alpha ∧ filters max_filter self alpha.
Proof.
  intros Hks (h & w & c & Himg & Hh & Hw & Hc) Hwf.
  split; intros k n Hk _;
    apply (proj1 (Forall_forall _ _) Hks) in Hk.
  - unfold min_filter. destruct alpha as [x|x]; cbn [nd_shape wf_ndarray] in *.
    + destruct (morphology_nd_Ok Z.min 255%Z x k n h w c) as [e He]; [done..|].
      rewrite He. eexists. split; [done|].
      apply (morphology_nd_le Z.min 255%Z (λ _ _, True) (λ _, True)) in He
        as (Hp & Hw' & _); try done. by apply Forall_true.
    + destruct (morphology_nd_Ok fmin FLT_MAX x k n h w c) as [e He]; [done..|].
      rewrite He. eexists. split; [done|].
      apply (morphology_nd_le fmin FLT_MAX (λ _ _, True) (λ _, True)) in He
        as (Hp & Hw' & _); try done. by apply Forall_true.
  - unfold max_filter. destruct alpha as [x|x]; cbn [nd_shape wf_ndarray] in *.
    + destruct (morphology_nd_Ok Z.max 0%Z x k n h w c) as [e He]; [done..|].
      rewrite He. eexists. split; [done|].
      apply (morphology_nd_le Z.max 0%Z (λ _ _, True) (λ _, True)) in He
        as (Hp & Hw' & _); try done. by apply Forall_true.
    + destruct (morphology_nd_Ok fmax (SFopp FLT_MAX) x k n h w c)
        as [e He]; [done..|].
      rewrite He. eexists. split; [done|].
      apply (morphology_nd_le fmax (SFopp FLT_MAX) (λ _ _, True) (λ _, True))
        in He as (Hp & Hw' & _); try done. by apply Forall_true.
Qed.

Lemma kernel_row_anchor sh (w h : Z) :
  (0 < w)%Z → (0 < h)%Z →
  ((kernel_row sh w h (h / 2)).1 ≤ w / 2 < (kernel_row sh w h (h / 2)).2)%Z.
Proof.
  intros Hw Hh.
  assert (0 ≤ w / 2 < w)%Z by (split; [apply Z.div_pos|apply Z.div_lt_upper_bound]; lia).
  assert (0 ≤ h / 2)%Z by (apply Z.div_pos; lia).
  unfold kernel_row. destruct sh; simpl.
  - lia.
  - rewrite Z.eqb_refl. simpl. lia.
  - rewrite Z.sub_diag. change (Z.abs 0) with 0%Z.
    destruct (Z.leb_spec 0 (h / 2)); [|lia].
    set (dx := if (h / 2 =? 0)%Z then _ else _).
    assert (0 ≤ dx)%Z.
    { unfold dx. destruct (h / 2 =? 0)%Z; [lia|].
      apply Z.div_pos; [|lia].
      match goal with
      | |- (0 ≤ Z.sqrt ?x + 1)%Z => pose proof (Z.sqrt_nonneg x)
      end. lia. }
    clearbody dx. simpl. lia.
Qed.

(** Every structuring element of the reference [getStructuringElement]
    covers its anchor. *)
Lemma structuring_element_anchored sh ksize k :
  structuring_element sh ksize = Ok k → anchored k.
Proof.
  destruct ksize as [w h]. unfold structuring_element.
  destruct (Z.ltb_spec 0 w); [|done]. destruct (Z.ltb_spec 0 h); [|done].
  simpl. intros [= <-]. eexists. split; [done|]. split; [done|].
  unfold offsets. cbn [shape].
  set (kh := Z.to_nat h). set (kw := Z.to_nat w).
  assert (kh / 2 < kh) by (apply Nat.div_lt; lia).
  assert (kw / 2 < kw) by (apply Nat.div_lt; lia).
  apply list_elem_of_omap. exists [kh / 2; kw / 2].
  split; [apply elem_of_indices; shape_tac|].
  rewrite item_indices by shape_tac.
  set (sh' := if (w =? 1)%Z && (h =? 1)%Z then MORPH_RECT else sh).
  pose proof (kernel_row_anchor sh' w h) as Hrow.
  replace (Z.of_nat (kh / 2)) with (h / 2)%Z
    by (unfold kh; rewrite Nat2Z.inj_div, Z2Nat.id by lia; done).
  replace (Z.of_nat (kw / 2)) with (w / 2)%Z
    by (unfold kw; rewrite Nat2Z.inj_div, Z2Nat.id by lia; done).
  destruct (kernel_row sh' w h (h / 2)) as [j1 j2]. simpl in Hrow.
  destruct (Z.leb_spec j1 (w / 2)); [|lia].
  destruct (Z.ltb_spec (w / 2) j2); [|lia].
  simpl. by rewrite !Z.sub_diag.
Qed.

(** A [GenerateTrimap] built by [__init__] on the reference [cv2] holds
    anchored kernels only. *)
Lemma GenerateTrimap_init_anchored kernel_size iterations sym self :
  GenerateTrimap_init kernel_size iterations sym = Ok self →
  Forall anchored (kernels self).
Proof.
  intros (lo & hi & _ & _ & Hks & _)%GenerateTrimap_init_inv.
  apply Forall_forall. intros k Hk.
  apply list_elem_of_lookup in Hk as [i Hi].
  destruct (Forall2_lookup_r _ _ _ _ _ Hks Hi) as (size & _ & Hsize).
  by eapply structuring_element_anchored.
Qed.

(** C6. On the reference [cv2] (erosion and dilation as the minimum and
    the maximum under the kernel), for an instance built by [__init__] and
    every matte without NaN, of one or several channels: in every call
    that returns, the pixels where the eroded matte is at its maximum
    ([>= 255]) lie in the 255-region of the matte, which lies where the
    dilated matte is positive; so no pixel meets both the set-to-255 and
    the set-to-0 condition, and the trimap is 128 exactly where neither
    holds. The call returns for every matte [cv2] takes as an image, as
    soon as a kernel and an iteration count can be drawn. *)
Theorem GenerateTrimap_call_regions (kernel_size iterations : int_or_tuple)
    (sym : bool) (self : GenerateTrimap) (results : sample) (g : rng)
    (alpha : ndarray) :
  GenerateTrimap_init kernel_size iterations sym = Ok self →
  results !! "alpha" = Some (VArray alpha) →
  wf_ndarray alpha → no_nan alpha →
  (∀ results' g',
     GenerateTrimap_call self results g = Ok (results', g') →
     ∃ eroded dilated trimap,
       (∃ k n, k ∈ kernels self ∧ erode alpha k n = Ok eroded) ∧
       (∃ k n, k ∈ kernels self ∧ dilate alpha k n = Ok dilated) ∧
       results' !! "trimap" = Some (VArray (F32 trimap)) ∧
       ∀ idx, in_shape idx (nd_shape alpha) →
         (at_max eroded (under eroded idx) → at_max alpha idx) ∧
         (at_max alpha idx → ¬ at_zero dilated (under dilated idx)) ∧
         ¬ (at_max eroded (under eroded idx)
            ∧ at_zero dilated (under dilated idx)) ∧
         (item trimap idx = of_Z 128 ↔
            ¬ at_max eroded (under eroded idx) ∧
            ¬ at_zero dilated (under dilated idx))) ∧
  (image alpha → kernels self ≠ [] →
   (min_iteration self < max_iteration self)%Z →
   is_Ok (GenerateTrimap_call self results g)).
Proof.
  intros Hinit Ha Hwf Hnan.
  pose proof (GenerateTrimap_init_anchored _ _ _ _ Hinit) as Hanch.
  split.
  - intros results' g' Hcall.
    eapply GenerateTrimap_call_regions_of; [exact Ha|exact Hwf| | |exact Hcall].
    + intros k n e Hk He.
      destruct (min_filter_le alpha e k n) as (_ & Hwe & Hle);
        [by apply (proj1 (Forall_forall _ _) Hanch)|done..|].
      by split.
    + intros k n e Hk He.
      destruct (max_filter_ge alpha e k n) as (_ & Hwe & Hle);
        [by apply (proj1 (Forall_forall _ _) Hanch)|done..|].
      by split.
  - intros Himg Hk Hit.
    destruct (morphology_filters self alpha Hanch Himg Hwf) as [He Hd].
    by eapply GenerateTrimap_call_Ok.
Qed.

End reference.

(** * CompositeFg *)

Lemma getitem_array_inv (results : sample) key a :
  getitem results key ≫= as_array = Ok a → results !! key = Some (VArray a).
Proof.
  unfold getitem. destruct (results !! key) as [[]|]; intros; by simplify_eq/=.
Qed.

Lemma getitem_tuple_inv (results : sample) key t :
  getitem results key ≫= as_tuple = Ok t → results !! key = Some (VTuple t).
Proof.
  unfold getitem. destruct (results !! key) as [[]|]; intros; by simplify_eq/=.
Qed.

Lemma unpack2_inv {A} (t : list A) x y : unpack2 t = Ok (x, y) → t = [x; y].
Proof. destruct t as [|? [|? [|]]]; intros; by simplify_eq/=. Qed.

Lemma to_uint8_byte x : (0 ≤ to_uint8 x < 256)%Z.
Proof. unfold to_uint8. by apply Z.mod_pos_bound. Qed.

Lemma is_bytes_astype_uint8 a : is_bytes (astype_uint8 a).
Proof.
  unfold is_bytes, astype_uint8. simpl. apply Forall_fmap, Forall_true.
  intros x. apply to_uint8_byte.
Qed.

(** Normalising a byte and scaling it back gives the byte: the round trip
    through [float32] is exact on all 256 bytes. *)
Lemma byte_round_trip z :
  (0 ≤ z < 256)%Z → to_uint8 (mul (normalised z) (of_Z 255)) = z.
Proof.
  intros Hz.
  assert (Forall (λ z, to_uint8 (mul (normalised z) (of_Z 255)) = z)
            (seqZ 0 256)) as Hall.
  { assert (forallb (λ z, to_uint8 (mul (normalised z) (of_Z 255)) =? z)%Z
              (seqZ 0 256) = true) as Hf by (by vm_compute).
    rewrite forallb_forall in Hf.
    apply Forall_forall. intros b Hb. by apply Z.eqb_eq, Hf, list_elem_of_In. }
  apply (proj1 (Forall_forall _ _) Hall), elem_of_seqZ. lia.
Qed.

Lemma uint8_round_trip (x : nd Z) :
  is_bytes x →
  astype_uint8 (mul_scalar (div_scalar (astype_float32 (U8 x)) 255) 255) = x.
Proof.
  intros Hb. destruct x as [s d]. unfold astype_uint8, mul_scalar, div_scalar.
  unfold map_nd. simpl. f_equal. rewrite <-!list_fmap_compose.
  rewrite <-(list_fmap_id d) at 2. apply Forall_fmap_ext_1.
  eapply Forall_impl; [exact Hb|]. intros z Hz. by apply byte_round_trip.
Qed.

Section composite.
Context `{Mmcv}.

Lemma CompositeFg_call_skip (self : CompositeFg) (results : sample) (g : rng)
    fg a h w :
  results !! "fg" = Some (VArray fg) → results !! "alpha" = Some (VArray a) →
  results !! "img_shape" = Some (VTuple [h; w]) →
  branch_taken g = false →
  CompositeFg_call self results g
    = Ok (write_back results fg (div_scalar (astype_float32 a) 255), (rand g).2).
Proof.
  intros Hfg Ha Hs Hb. unfold CompositeFg_call, getitem.
  rewrite Hfg, Ha, Hs. cbn [mbind result_bind as_array as_tuple unpack2].
  unfold branch_taken in Hb. by rewrite Hb.
Qed.

Lemma CompositeFg_call_inv (self : CompositeFg) (results results' : sample)
    (g g' : rng) :
  CompositeFg_call self results g = Ok (results', g') →
  ∃ fg a h w fg' alpha',
    results !! "fg" = Some (VArray fg) ∧
    results !! "alpha" = Some (VArray a) ∧
    results !! "img_shape" = Some (VTuple [h; w]) ∧
    results' = write_back results fg' alpha' ∧
    let alpha := div_scalar (astype_float32 a) 255 in
    (branch_taken g = false ∧ fg' = fg ∧ alpha' = alpha ∧ g' = (rand g).2) ∨
    (branch_taken g = true ∧
     ∃ fg2 alpha2 alpha_tmp,
       load_fg2_alpha2 self h w (rand g).2 = Ok (fg2, alpha2, g') ∧
       screen_alpha alpha alpha2 = Ok alpha_tmp ∧
       ((np_any (lt_scalar alpha_tmp 1) = false ∧ fg' = fg ∧ alpha' = alpha) ∨
        (np_any (lt_scalar alpha_tmp 1) = true ∧
         ∃ blended, blend_fg fg fg2 alpha = Ok blended ∧
           fg' = F32 blended ∧ alpha' = alpha_tmp))).
Proof.
  unfold CompositeFg_call. intros Hc.
  apply bind_Ok_inv in Hc as (fg & Hfg%getitem_array_inv & Hc).
  apply bind_Ok_inv in Hc as (a & Ha%getitem_array_inv & Hc).
  apply bind_Ok_inv in Hc as (img_shape & Hs%getitem_tuple_inv & Hc).
  apply bind_Ok_inv in Hc as ([h w] & ->%unpack2_inv & Hc).
  apply bind_Ok_inv in Hc as ([[fg' alpha'] g1] & Hbr & Hc).
  injection Hc as <- <-.
  exists fg, a, h, w, fg', alpha'. split_and!; try done.
  unfold branch_taken. destruct (SFltb (rand g).1 Float64.half).
  - right. split; [done|]. unfold composite in Hbr.
    apply bind_Ok_inv in Hbr as ([[fg2 alpha2] g2] & Hload & Hbr).
    apply bind_Ok_inv in Hbr as (alpha_tmp & Hscreen & Hbr).
    destruct (np_any (lt_scalar alpha_tmp 1)) eqn:Hany.
    + apply bind_Ok_inv in Hbr as (blended & Hblend & Hbr).
      injection Hbr as <- <- <-.
      exists fg2, alpha2, alpha_tmp. split_and!; try done.
      right. split; [done|]. by exists blended.
    + injection Hbr as <- <- <-.
      exists fg2, alpha2, alpha_tmp. split_and!; try done. by left.
  - left. by injection Hbr as <- <- <-.
Qed.

Lemma lookup_write_back_alpha (results : sample) fg alpha :
  write_back results fg alpha !! "alpha"
  = Some (VArray (U8 (astype_uint8 (mul_scalar alpha 255)))).
Proof.
  unfold write_back. cbv zeta. rewrite lookup_insert_ne by done.
  apply lookup_insert_eq.
Qed.

Lemma lookup_write_back_fg (results : sample) fg alpha :
  write_back results fg alpha !! "fg" = Some (VArray fg).
Proof.
  unfold write_back. cbv zeta. rewrite !lookup_insert_ne by done.
  apply lookup_insert_eq.
Qed.

Lemma lookup_write_back_img_shape (results : sample) fg alpha :
  write_back results fg alpha !! "img_shape" = Some (VTuple (shape alpha)).
Proof. unfold write_back. cbv zeta. apply lookup_insert_eq. Qed.

Lemma lookup_write_back_other (results : sample) fg alpha key :
  key ≠ "fg" → key ≠ "alpha" → key ≠ "img_shape" →
  write_back results fg alpha !! key = results !! key.
Proof. intros. unfold write_back. cbv zeta. by rewrite !lookup_insert_ne. Qed.

(** C10. Whenever the call returns, with or without composition, "alpha" is
    bound to the normalised matte of the end of the call (the one of the
    input, or the screen of it with a second matte) times 255 cast to
    [uint8], an array of bytes, and "img_shape" to the shape of that array. *)
Theorem CompositeFg_call_alpha_written (self : CompositeFg)
    (results results' : sample) (g g' : rng) :
  CompositeFg_call self results g = Ok (results', g') →
  ∃ (a : ndarray) (alpha' : nd float32),
    results !! "alpha" = Some (VArray a) ∧
    (alpha' = div_scalar (astype_float32 a) 255 ∨
     ∃ alpha2, screen_alpha (div_scalar (astype_float32 a) 255) alpha2 = Ok alpha') ∧
    let written := astype_uint8 (mul_scalar alpha' 255) in
    results' !! "alpha" = Some (VArray (U8 written)) ∧
    is_bytes written ∧
    results' !! "img_shape" = Some (VTuple (shape written)).
Proof.
  intros (fg & a & h & w & fg' & alpha' & Hfg & Ha & Hs & -> & Hcases)
    %CompositeFg_call_inv.
  exists a, alpha'. split; [done|]. split.
  - destruct Hcases as [(_ & _ & -> & _)|(_ & fg2 & alpha2 & alpha_tmp & _ & Hsc
      & [(_ & _ & ->)|(_ & blended & _ & _ & ->)])]; [by left|by left|].
    right. by exists alpha2.
  - cbn zeta. split; [apply lookup_write_back_alpha|].
    split; [apply is_bytes_astype_uint8|apply lookup_write_back_img_shape].
Qed.

(** C3, amended. On the skip branch the call returns the record with the
    three keys of lines 164 to 166 written back: "fg" bound to the array it
    had, "alpha" to the [uint8] round trip of the matte, "img_shape" to the
    shape of the matte; every other key is left alone. When the matte is an
    array of bytes and "img_shape" was its shape already, the record
    returned equals the record passed. *)
Theorem CompositeFg_call_skipped (self : CompositeFg) (results : sample)
    (g : rng) (fg a : ndarray) (h w : nat) :
  results !! "fg" = Some (VArray fg) → results !! "alpha" = Some (VArray a) →
  results !! "img_shape" = Some (VTuple [h; w]) →
  branch_taken g = false →
  ∃ results' g',
    CompositeFg_call self results g = Ok (results', g') ∧
    results' !! "fg" = Some (VArray fg) ∧
    results' !! "alpha"
      = Some (VArray (U8 (astype_uint8
           (mul_scalar (div_scalar (astype_float32 a) 255) 255)))) ∧
    results' !! "img_shape" = Some (VTuple (nd_shape a)) ∧
    (∀ key, key ≠ "fg" → key ≠ "alpha" → key ≠ "img_shape" →
       results' !! key = results !! key) ∧
    (∀ x, a = U8 x → is_bytes x → shape x = [h; w] → results' = results).
Proof.
  intros Hfg Ha Hs Hb. eexists _, _.
  split; [by eapply CompositeFg_call_skip|].
  split; [apply lookup_write_back_fg|].
  split; [apply lookup_write_back_alpha|].
  split; [rewrite lookup_write_back_img_shape; simpl;
          by rewrite shape_astype_float32|].
  split; [intros; by apply lookup_write_back_other|].
  intros x -> Hx Hsx. unfold write_back. cbv zeta.
  rewrite (uint8_round_trip x Hx). cbn [div_scalar map_nd shape astype_float32].
  rewrite Hsx. rewrite (insert_id results "fg") by done.
  rewrite (insert_id results "alpha") by done. by rewrite insert_id.
Qed.

Lemma sub_1_1 : sub (of_Z 1) (of_Z 1) = S754_zero false.
Proof. by vm_compute. Qed.

(** With an opaque first matte the screen is not below one, whatever the
    second matte holds (a NaN compares false). *)
Lemma screen_opaque_factor z :
  ltb (sub (of_Z 1) (mul (sub (of_Z 1) (of_Z 1)) z)) (of_Z 1) = false.
Proof. rewrite sub_1_1. by destruct z as [[]|[]| |[] ? ?]. Qed.

Lemma screen_opaque y : ltb (screen (of_Z 1) y) (of_Z 1) = false.
Proof. apply screen_opaque_factor. Qed.

Lemma np_any_fmap_false {A} (f : A → bool) (s : list nat) (l : list A) :
  Forall (λ x, f x = false) l → np_any (Nd s (f <$> l)) = false.
Proof.
  unfold np_any. cbn [data]. induction 1 as [|x l Hx _ IH]; [done|].
  rewrite fmap_cons. cbn [existsb]. unfold id at 1. by rewrite Hx.
Qed.

Lemma normalised_uniform255 a :
  uniform255 a →
  Forall (λ f, f = of_Z 1) (data (div_scalar (astype_float32 a) 255)).
Proof.
  destruct a as [x|x]; simpl; intros Hu.
  - apply Forall_fmap, Forall_fmap. eapply Forall_impl; [exact Hu|].
    intros z ->. by vm_compute.
  - apply Forall_fmap. eapply Forall_impl; [exact Hu|].
    intros z ->. by vm_compute.
Qed.

Lemma screen_alpha_inv (alpha alpha2 alpha_tmp : nd float32) :
  screen_alpha alpha alpha2 = Ok alpha_tmp →
  ∃ s, broadcast_shapes (shape alpha) (shape alpha2) = Some s ∧
    alpha_tmp = Nd s ((λ x, sub (of_Z 1) x) <$>
      ((λ idx, mul (item (rsub_scalar 1 alpha) idx)
                   (item (rsub_scalar 1 alpha2) idx)) <$> indices s)).
Proof.
  unfold screen_alpha. intros (t & Ht & Hr)%bind_Ok_inv. simplify_eq.
  apply broadcast2_inv in Ht as [Hs Hd]. exists (shape t).
  split; [exact Hs|]. unfold rsub_scalar at 1, map_nd. by rewrite Hd.
Qed.

Lemma screen_alpha_Ok (alpha alpha2 : nd float32) s :
  broadcast_shapes (shape alpha) (shape alpha2) = Some s →
  is_Ok (screen_alpha alpha alpha2) ∧
  ∀ alpha_tmp, screen_alpha alpha alpha2 = Ok alpha_tmp → shape alpha_tmp = s.
Proof.
  intros Hs. unfold screen_alpha.
  erewrite broadcast2_Ok by exact Hs. result_simpl.
  split; [by eexists|]. by intros ? [= <-].
Qed.

(** The entry of the screen at [idx] is the screen of the two entries. *)
Lemma item_screen_alpha (alpha alpha2 alpha_tmp : nd float32) idx :
  wf_nd alpha → wf_nd alpha2 →
  screen_alpha alpha alpha2 = Ok alpha_tmp → in_shape idx (shape alpha_tmp) →
  item alpha_tmp idx = screen (item alpha idx) (item alpha2 idx).
Proof.
  intros Hw Hw2 (s & Hs & ->)%screen_alpha_inv Hin. cbn [shape] in Hin.
  destruct (broadcast_shapes_reads _ _ _ _ Hs Hin) as [Hr Hr2].
  rewrite <-list_fmap_compose, item_indices by done. unfold screen. simpl.
  unfold rsub_scalar. by rewrite !item_map_nd by done.
Qed.

Lemma screen_alpha_opaque (alpha alpha2 alpha_tmp : nd float32) :
  wf_nd alpha → Forall (λ f, f = of_Z 1) (data alpha) →
  screen_alpha alpha alpha2 = Ok alpha_tmp →
  np_any (lt_scalar alpha_tmp 1) = false.
Proof.
  intros Hwf Hone (s & Hs & ->)%screen_alpha_inv.
  unfold lt_scalar, map_nd. cbn [shape data].
  rewrite <-!list_fmap_compose. apply np_any_fmap_false.
  apply Forall_forall. intros idx Hin%elem_of_indices. cbn [compose].
  destruct (broadcast_shapes_reads _ _ _ _ Hs Hin) as [Hr _].
  unfold rsub_scalar at 1. rewrite item_map_nd by done.
  rewrite (proj1 (Forall_forall _ _) Hone (item alpha idx))
    by (by apply item_elem_of).
  apply screen_opaque_factor.
Qed.

Lemma astype_uint8_opaque (alpha : nd float32) :
  Forall (λ f, f = of_Z 1) (data alpha) →
  Forall (λ z, z = 255%Z) (data (astype_uint8 (mul_scalar alpha 255))).
Proof.
  intros Hone. simpl. apply Forall_fmap, Forall_fmap.
  eapply Forall_impl; [exact Hone|]. intros f ->. by vm_compute.
Qed.

(** C4. With a matte that is 255 everywhere, every call that returns
    leaves "fg" bound to the array it had and "alpha" to an array of the
    same shape that is 255 everywhere (the very array, for a [uint8]
    matte): on the random branch the screen is nowhere below one, whatever
    second sample was loaded, so no composition takes place. The call
    returns on the skip branch, and on the random branch for every second
    sample that loads and broadcasts. *)
Theorem CompositeFg_call_opaque (self : CompositeFg) (results : sample)
    (g : rng) (fg a : ndarray) (h w : nat) :
  results !! "fg" = Some (VArray fg) → results !! "alpha" = Some (VArray a) →
  results !! "img_shape" = Some (VTuple [h; w]) →
  wf_ndarray a → uniform255 a →
  (∀ results' g',
     CompositeFg_call self results g = Ok (results', g') →
     results' !! "fg" = Some (VArray fg) ∧
     ∃ x, results' !! "alpha" = Some (VArray (U8 x)) ∧
       shape x = nd_shape a ∧ wf_nd x ∧ Forall (λ z, z = 255%Z) (data x) ∧
       (∀ y, a = U8 y → x = y)) ∧
  (branch_taken g = false → is_Ok (CompositeFg_call self results g)) ∧
  (∀ fg2 alpha2 g2,
     branch_taken g = true →
     load_fg2_alpha2 self h w (rand g).2 = Ok (fg2, alpha2, g2) →
     is_Some (broadcast_shapes (nd_shape a) (shape alpha2)) →
     is_Ok (CompositeFg_call self results g)).
Proof.
  intros Hfg Ha Hs Hwf Hu.
  pose proof (normalised_uniform255 a Hu) as Hone.
  assert (wf_nd (div_scalar (astype_float32 a) 255)) as Hwn
    by (by apply wf_map_nd, wf_astype_float32).
  split; [|split].
  - intros results' g'
      (fg0 & a0 & h0 & w0 & fg' & alpha' & Hfg0 & Ha0 & Hs0 & -> & Hcases)
      %CompositeFg_call_inv.
    simplify_eq.
    assert (fg' = fg ∧ alpha' = div_scalar (astype_float32 a) 255) as [-> ->].
    { destruct Hcases as [(_ & -> & -> & _)|(_ & fg2 & alpha2 & alpha_tmp & _
        & Hsc & [(_ & -> & ->)|(Hany & _)])]; [done..|].
      by rewrite (screen_alpha_opaque _ _ _ Hwn Hone Hsc) in Hany. }
    split; [apply lookup_write_back_fg|].
    eexists. split; [apply lookup_write_back_alpha|].
    split; [simpl; by rewrite shape_astype_float32|].
    split; [by do 2 apply wf_map_nd|].
    split; [by apply astype_uint8_opaque|].
    intros y ->. apply uint8_round_trip.
    eapply Forall_impl; [exact Hu|]. intros z ->. lia.
  - intros Hb. eexists. by eapply CompositeFg_call_skip.
  - intros fg2 alpha2 g2 Hb Hload [s Hbs].
    unfold CompositeFg_call, getitem. rewrite Hfg, Ha, Hs.
    cbn [mbind result_bind as_array as_tuple unpack2].
    unfold branch_taken in Hb. rewrite Hb. unfold composite.
    rewrite Hload. cbn [mbind result_bind].
    destruct (screen_alpha_Ok (div_scalar (astype_float32 a) 255) alpha2 s)
      as [[alpha_tmp Hsc] _];
      [simpl; by rewrite shape_astype_float32|].
    rewrite Hsc. cbn [mbind result_bind].
    rewrite (screen_alpha_opaque _ _ _ Hwn Hone Hsc). by eexists.
Qed.

Lemma blend_fg_Ok (fg fg2 : ndarray) (alpha : nd float32) (h w : nat) :
  nd_shape fg = [h; w; 3] → nd_shape fg2 = [h; w; 3] → shape alpha = [h; w] →
  ∃ blended, blend_fg fg fg2 alpha = Ok blended ∧
    shape blended = [h; w; 3] ∧ wf_nd blended ∧
    ∀ i j c, wf_nd alpha → i < h → j < w → c < 3 →
      item blended [i; j; c]
      = blend (item (astype_float32 fg) [i; j; c])
              (item (astype_float32 fg2) [i; j; c]) (item alpha [i; j]).
Proof.
  intros Hsf Hsf2 Hsa. unfold blend_fg.
  pose proof (broadcast_shapes_last_1_r [h; w] 3) as Hb.
  erewrite (broadcast2_Ok mul (astype_float32 fg))
    by (cbn [expand_dims_last shape]; rewrite shape_astype_float32, Hsf, Hsa;
        exact Hb).
  result_simpl.
  erewrite (broadcast2_Ok mul (astype_float32 fg2))
    by (cbn [expand_dims_last rsub_scalar map_nd shape];
        rewrite shape_astype_float32, Hsf2, Hsa; exact Hb).
  result_simpl.
  erewrite broadcast2_Ok by (cbn [shape]; apply broadcast_shapes_refl).
  eexists. split; [done|]. split; [done|]. split.
  { unfold wf_nd. cbn [data shape]. by rewrite length_fmap, length_indices. }
  intros i j c Hwf Hi Hj Hc.
  assert (in_shape [i; j; c] ([h; w] ++ [3])) as Hin by shape_tac.
  assert (reads [h; w; 1] [i; j; c]) as Hr by shape_tac.
  assert (wf_nd (expand_dims_last alpha)) as Hwf3.
  { unfold wf_nd. simpl. rewrite numel_app. simpl. rewrite Hwf. lia. }
  assert (item (expand_dims_last alpha) [i; j; c] = item alpha [i; j]) as Hexp
    by (apply (item_expand_dims_last alpha [i; j]); by rewrite Hsa).
  rewrite !item_indices by done. unfold blend, rsub_scalar.
  rewrite item_map_nd; [|done|cbn [expand_dims_last shape]; by rewrite Hsa].
  by rewrite Hexp.
Qed.

(** C8: what the call does when the composition is applied. The new
    foreground is [fg * alpha + fg2 * (1 - alpha)] with the normalised matte
    of the input, not the screened one; "alpha" and "img_shape" are written
    from the screened matte. The foreground written back is the [float32]
    blend, whatever the dtype of "fg" was: the cast of line 162 is
    dropped. *)
Theorem CompositeFg_call_composited (self : CompositeFg) (results : sample)
    (g g2 : rng) (fg a fg2 : ndarray) (alpha2 alpha_tmp : nd float32)
    (h w : nat) :
  results !! "fg" = Some (VArray fg) → results !! "alpha" = Some (VArray a) →
  results !! "img_shape" = Some (VTuple [h; w]) →
  wf_ndarray a → nd_shape a = [h; w] →
  nd_shape fg = [h; w; 3] → nd_shape fg2 = [h; w; 3] →
  branch_taken g = true →
  load_fg2_alpha2 self h w (rand g).2 = Ok (fg2, alpha2, g2) →
  let alpha := div_scalar (astype_float32 a) 255 in
  screen_alpha alpha alpha2 = Ok alpha_tmp →
  np_any (lt_scalar alpha_tmp 1) = true →
  ∃ (results' : sample) (blended : nd float32),
    CompositeFg_call self results g = Ok (results', g2) ∧
    results' !! "fg" = Some (VArray (F32 blended)) ∧
    shape blended = [h; w; 3] ∧
    (∀ i j c, i < h → j < w → c < 3 →
       item blended [i; j; c]
       = blend (item (astype_float32 fg) [i; j; c])
               (item (astype_float32 fg2) [i; j; c]) (item alpha [i; j])) ∧
    results' !! "alpha"
      = Some (VArray (U8 (astype_uint8 (mul_scalar alpha_tmp 255)))) ∧
    results' !! "img_shape" = Some (VTuple (shape alpha_tmp)).
Proof.
  intros Hfg Ha Hs Hwf Hsa Hsf Hsf2 Hb Hload alpha Hsc Hany.
  destruct (blend_fg_Ok fg fg2 alpha h w)
    as (blended & Hblend & Hsb & _ & Hitem);
    [done|done|unfold alpha; simpl; by rewrite shape_astype_float32|].
  exists (write_back results (F32 blended) alpha_tmp), blended. split.
  { unfold CompositeFg_call, getitem. rewrite Hfg, Ha, Hs.
    cbn [mbind result_bind as_array as_tuple unpack2].
    unfold branch_taken in Hb. rewrite Hb. unfold composite.
    rewrite Hload. cbn [mbind result_bind]. fold alpha. rewrite Hsc.
    cbn [mbind result_bind]. rewrite Hany, Hblend. done. }
  split; [apply lookup_write_back_fg|]. split; [done|].
  split; [|split; [apply lookup_write_back_alpha
                  |apply lookup_write_back_img_shape]].
  intros i j c Hi Hj Hc. apply Hitem; [|done..].
  by apply wf_map_nd, wf_astype_float32.
Qed.

End composite.

(** * The screen law *)

(** C7, as stated, fails in the arithmetic of the code: with the bytes 0
    and 1 normalised, both in [0, 1], the screen is below the second. *)
Lemma screen_below_operand :
  let alpha := normalised 0 in
  let alpha2 := normalised 1 in
  leb (of_Z 0) alpha = true ∧ leb alpha (of_Z 1) = true ∧
  leb (of_Z 0) alpha2 = true ∧ leb alpha2 (of_Z 1) = true ∧
  alpha2 = S754_finite false 8421505 (-31) ∧
  screen alpha alpha2 = S754_finite false 8421504 (-31) ∧
  leb alpha2 (screen alpha alpha2) = false.
Proof. by vm_compute. Qed.

Lemma screen_ok_bytes :
  let table := normalised <$> seqZ 0 256 in
  forallb (λ a, forallb (screen_ok a) table) table = true.
Proof. by vm_compute. Qed.

(** C7, amended. In exact arithmetic the screen of two values of [0, 1]
    is at least each of them and at most one. As line 155 computes it in
    [float32] from two normalised bytes, the screen lies in [0, 1] and is
    below neither operand by more than [2^-25], one rounding error. *)
Theorem screen_bounds :
  (∀ a a2 : Q, (0 <= a <= 1)%Q → (0 <= a2 <= 1)%Q →
     (a <= screen_exact a a2 <= 1)%Q ∧ (a2 <= screen_exact a a2 <= 1)%Q) ∧
  (∀ b b2 : Z, (0 ≤ b < 256)%Z → (0 ≤ b2 < 256)%Z →
     let alpha := normalised b in
     let alpha2 := normalised b2 in
     let alpha_new := screen alpha alpha2 in
     leb (of_Z 0) alpha_new = true ∧ leb alpha_new (of_Z 1) = true ∧
     (to_Q alpha - (1 # 33554432) <= to_Q alpha_new)%Q ∧
     (to_Q alpha2 - (1 # 33554432) <= to_Q alpha_new)%Q).
Proof.
  split.
  - intros a a2 Ha Ha2. unfold screen_exact. split; nra.
  - intros b b2 Hb Hb2 alpha alpha2 alpha_new.
    pose proof screen_ok_bytes as Hok. cbv zeta in Hok.
    rewrite forallb_forall in Hok.
    assert (∀ z, (0 ≤ z < 256)%Z → In (normalised z) (normalised <$> seqZ 0 256))
      as Hin.
    { intros z Hz. apply list_elem_of_In, list_elem_of_fmap. exists z.
      split; [done|]. apply elem_of_seqZ. lia. }
    specialize (Hok alpha (Hin b Hb)). rewrite forallb_forall in Hok.
    specialize (Hok alpha2 (Hin b2 Hb2)). unfold screen_ok in Hok.
    fold alpha_new in Hok.
    apply andb_prop in Hok as [Hok H4]. apply andb_prop in Hok as [Hok H3].
    apply andb_prop in Hok as [H1 H2].
    rewrite Qle_bool_iff in H3, H4. done.
Qed.

(** The amended C7 at the two bytes of the counterexample, and at one
    half and one quarter in exact arithmetic. *)
Lemma screen_bounds_witness :
  leb (of_Z 0) (screen (normalised 0) (normalised 1)) = true ∧
  leb (screen (normalised 0) (normalised 1)) (of_Z 1) = true ∧
  (to_Q (normalised 1) - (1 # 33554432)
     <= to_Q (screen (normalised 0) (normalised 1)))%Q ∧
  (1 # 2 <= screen_exact (1 # 2) (1 # 4) <= 1)%Q.
Proof.
  destruct screen_bounds as [Hexact Hbytes].
  destruct (Hbytes 0%Z 1%Z) as (H0 & H1 & _ & H2); [lia..|].
  destruct (Hexact (1 # 2) (1 # 4))%Q as [H3 _]; [split; discriminate..|].
  split; [exact H0|]. split; [exact H1|]. split; [exact H2|exact H3].
Defined.

(** * The transforms at work on the reference libraries *)

Section runs.
Import Ref Run.

Lemma GenerateTrimap_init_3 :
  GenerateTrimap_init (PyInt 3) (PyInt 1) false = Ok trimap3.
Proof. (vm_compute; reflexivity). Qed.

Lemma trimap3_anchored : Forall anchored (kernels trimap3).
Proof. eapply GenerateTrimap_init_anchored, GenerateTrimap_init_3. Qed.

Lemma image_5_5_1 (x : nd Z) : shape x = [5; 5; 1] → image (U8 x).
Proof. intros Hs. exists 5, 5, 1. cbn [nd_shape]. rewrite Hs. split; [done|lia]. Qed.

(** C5 on the reference [cv2]: [GenerateTrimap((3, 6))] builds the three
    kernels of sizes 3, 4 and 5, [GenerateTrimap(3)] the one of size 3, and
    [iterations=1] makes every draw give 1. *)
Lemma GenerateTrimap_init_kernels_witness :
  GenerateTrimap_init (PyTuple [3; 6]%Z) (PyInt 1) false
    = Ok {| kernels := [ellipse3; ellipse4; ellipse5]; min_iteration := 1;
            max_iteration := 2; symmetric := false |} ∧
  GenerateTrimap_init (PyTuple [3; 6]%Z) (PyTuple [1; 4]%Z) true
    = Ok {| kernels := [ellipse3; ellipse4; ellipse5]; min_iteration := 1;
            max_iteration := 4; symmetric := true |} ∧
  GenerateTrimap_init (PyInt 3) (PyInt 1) false = Ok trimap3 ∧
  (∀ g, randint 1 2 g = Ok (1%Z, advance g)).
Proof.
  destruct (GenerateTrimap_init_kernels (H := cv2))
    as (_ & _ & Hi & Hint & Hrange & Hboth & _).
  assert (Forall2 (λ size k,
            getStructuringElement MORPH_ELLIPSE (size, size) = Ok k)
            (range 3 6) [ellipse3; ellipse4; ellipse5]) as Hks.
  { change (range 3 6) with [3; 4; 5]%Z.
    repeat (apply Forall2_cons; split; [vm_compute; reflexivity|]).
    by apply Forall2_nil. }
  split; [by apply Hrange|]. split; [by apply Hboth|].
  split; [by apply (Hint 3%Z 1%Z false)|].
  by apply (Hi (PyInt 3) 1%Z false trimap3 GenerateTrimap_init_3).
Defined.

(** C2 on the 5 x 5 matte with a channel axis: the filters give 5 x 5
    images, and the trimap is 5 x 5 x 1 with the centre at 255 and the
    corner at 0. *)
Lemma GenerateTrimap_call_trimap_witness :
  ∃ results' g' trimap,
    GenerateTrimap_call trimap3 channel_matte_sample taken = Ok (results', g') ∧
    results' !! "trimap" = Some (VArray (F32 trimap)) ∧
    shape trimap = [5; 5; 1] ∧
    Forall trimap_value (data trimap) ∧
    item trimap [2; 2; 0] = of_Z 255 ∧
    item trimap [0; 0; 0] = of_Z 0 ∧
    item trimap [2; 1; 0] = of_Z 128.
Proof.
  destruct (GenerateTrimap_call_trimap trimap3 channel_matte_sample taken
              (U8 matte5_channel) eq_refl eq_refl) as [Hinv Hret].
  destruct (morphology_filters trimap3 (U8 matte5_channel) trimap3_anchored
              (image_5_5_1 matte5_channel eq_refl) eq_refl) as [He Hd].
  destruct Hret as [[results' g'] Hcall];
    [discriminate|reflexivity|exact He|exact Hd|].
  destruct (Hinv results' g' Hcall)
    as (eroded & dilated & trimap & (ke & ne & Hke & Hne & Hero)
        & (kd & nd & Hkd & Hnd & Hdil) & Hlook & Hshape & Hvals & Hitem).
  apply list_elem_of_singleton in Hke, Hkd. subst ke kd.
  assert (ne = 1%Z) as -> by (change (1 ≤ ne < 2)%Z in Hne; lia).
  assert (nd = 1%Z) as -> by (change (1 ≤ nd < 2)%Z in Hnd; lia).
  vm_compute in Hero. injection Hero as <-.
  vm_compute in Hdil. injection Hdil as <-.
  exists results', g', trimap. split; [exact Hcall|]. split; [exact Hlook|].
  split; [exact Hshape|]. split; [exact Hvals|].
  split; [|split]; rewrite Hitem by (reflexivity || shape_tac);
    vm_compute; reflexivity.
Defined.

(** C6 on the same matte. *)
Lemma GenerateTrimap_call_regions_witness :
  ∃ results' g' eroded dilated trimap,
    GenerateTrimap_call trimap3 channel_matte_sample taken = Ok (results', g') ∧
    (∃ k n, k ∈ kernels trimap3 ∧ erode (U8 matte5_channel) k n = Ok eroded) ∧
    (∃ k n, k ∈ kernels trimap3 ∧ dilate (U8 matte5_channel) k n = Ok dilated) ∧
    results' !! "trimap" = Some (VArray (F32 trimap)) ∧
    ∀ idx, in_shape idx [5; 5; 1] →
      (at_max eroded (under eroded idx) → at_max (U8 matte5_channel) idx) ∧
      (at_max (U8 matte5_channel) idx → ¬ at_zero dilated (under dilated idx)) ∧
      ¬ (at_max eroded (under eroded idx) ∧ at_zero dilated (under dilated idx)) ∧
      (item trimap idx = of_Z 128 ↔
         ¬ at_max eroded (under eroded idx) ∧
         ¬ at_zero dilated (under dilated idx)).
Proof.
  destruct (GenerateTrimap_call_regions (PyInt 3) (PyInt 1) false trimap3
              channel_matte_sample taken (U8 matte5_channel)
              GenerateTrimap_init_3 eq_refl eq_refl I) as [Hinv Hret].
  destruct Hret as [[results' g'] Hcall];
    [by apply image_5_5_1|discriminate|reflexivity|].
  destruct (Hinv results' g' Hcall)
    as (eroded & dilated & trimap & Hero & Hdil & Hlook & Hregions).
  by exists results', g', eroded, dilated, trimap.
Defined.

(** The trimap of the 5 x 5 matte: the centre is foreground, the corners
    are background, the rest is unknown. The matte with a channel axis and
    the matte as [float32] give the same values; a negative number of
    iterations runs one pass. *)
Example GenerateTrimap_call_matte5 :
  bytes_at "trimap" (GenerateTrimap_call trimap3 matte_sample taken)
  = Ok (Nd [5; 5] [   0; 128; 128; 128;   0;
                    128; 128; 128; 128; 128;
                    128; 128; 255; 128; 128;
                    128; 128; 128; 128; 128;
                      0; 128; 128; 128;   0 ]%Z).
Proof. (vm_compute; reflexivity). Qed.

Example GenerateTrimap_call_matte5_channel :
  data <$> bytes_at "trimap"
             (GenerateTrimap_call trimap3 channel_matte_sample taken)
  = data <$> bytes_at "trimap"
               (GenerateTrimap_call trimap3 matte_sample taken) ∧
  data <$> bytes_at "trimap"
             (GenerateTrimap_call trimap3 float_matte_sample taken)
  = data <$> bytes_at "trimap"
               (GenerateTrimap_call trimap3 matte_sample taken) ∧
  erode (U8 matte5) ellipse3 (-1) = erode (U8 matte5) ellipse3 1 ∧
  erode (U8 matte5) ellipse3 0 = Ok (U8 matte5).
Proof. split; [|split; [|split]]; (vm_compute; reflexivity). Qed.

(** C3, as stated, fails: on the skip branch a matte normalised to 0.5
    comes back as the byte 0. *)
Lemma CompositeFg_call_skip_mutates :
  branch_taken skipped = false ∧
  normalised_sample !! "alpha" = Some (VArray (F32 (Nd [1; 1] [f32_half]))) ∧
  ∃ results' g',
    CompositeFg_call (H := mmcv files) composite_fg normalised_sample skipped
      = Ok (results', g') ∧
    results' !! "alpha" = Some (VArray (U8 (Nd [1; 1] [0%Z]))) ∧
    results' ≠ normalised_sample.
Proof.
  split; [(vm_compute; reflexivity)|]. split; [reflexivity|].
  eexists _, _. split; [by eapply CompositeFg_call_skip|].
  split; [(vm_compute; reflexivity)|].
  intros Heq. apply (f_equal (lookup "alpha")) in Heq.
  rewrite lookup_write_back_alpha in Heq. vm_compute in Heq. discriminate.
Qed.

(** A second way for C3 to fail: a matte of bytes with a channel axis has
    "img_shape" rebound from (2, 1) to (2, 1, 1). *)
Example CompositeFg_call_skip_reshapes :
  ∃ results' g',
    CompositeFg_call (H := mmcv files) composite_fg channel_sample skipped
      = Ok (results', g') ∧
    channel_sample !! "img_shape" = Some (VTuple [2; 1]) ∧
    results' !! "img_shape" = Some (VTuple [2; 1; 1]).
Proof.
  eexists _, _. split; [by eapply CompositeFg_call_skip|].
  split; [reflexivity|]. by rewrite lookup_write_back_img_shape.
Qed.

(** The amended C3 on the one pixel sample. *)
Lemma CompositeFg_call_skipped_witness :
  ∃ results' g',
    CompositeFg_call (H := mmcv files) composite_fg pixel_sample skipped
      = Ok (results', g') ∧
    results' = pixel_sample.
Proof.
  destruct (CompositeFg_call_skipped (H := mmcv files) composite_fg
              pixel_sample skipped _ _ 1 1 eq_refl eq_refl eq_refl)
    as (results' & g' & Hcall & _ & _ & _ & _ & Hsame); [(vm_compute; reflexivity)|].
  exists results', g'. split; [done|].
  apply (Hsame _ eq_refl); [|reflexivity]. repeat constructor; lia.
Defined.

Lemma pixel_sample_composited :
  CompositeFg_call (H := mmcv files) composite_fg pixel_sample taken
  = Ok (write_back pixel_sample (F32 pixel_blended) pixel_alpha_tmp,
        advance (advance taken)).
Proof. vm_compute; reflexivity. Qed.

(** C10 on the one pixel sample, composition applied: the byte 128
    screened with the byte 64 is written back as the byte 159. *)
Lemma CompositeFg_call_alpha_written_witness :
  ∃ (a : ndarray) (alpha' : nd float32),
    pixel_sample !! "alpha" = Some (VArray a) ∧
    (alpha' = div_scalar (astype_float32 a) 255 ∨
     ∃ alpha2, screen_alpha (div_scalar (astype_float32 a) 255) alpha2 = Ok alpha') ∧
    let written := astype_uint8 (mul_scalar alpha' 255) in
    write_back pixel_sample (F32 pixel_blended) pixel_alpha_tmp !! "alpha"
      = Some (VArray (U8 written)) ∧
    is_bytes written ∧
    write_back pixel_sample (F32 pixel_blended) pixel_alpha_tmp !! "img_shape"
      = Some (VTuple (shape written)).
Proof.
  exact (CompositeFg_call_alpha_written (H := mmcv files) _ _ _ _ _
           pixel_sample_composited).
Defined.

(** The failure of C7 reaches the record: a transparent pixel composited
    with a matte of byte 1 is written back as the byte 0. *)
Example CompositeFg_call_faint_alpha :
  bytes_at "alpha"
    (CompositeFg_call (H := mmcv faint_files) faint_fg clear_sample taken)
  = Ok (Nd [1; 1] [0%Z]).
Proof. vm_compute; reflexivity. Qed.

Example CompositeFg_call_pixel_alpha :
  bytes_at "alpha"
    (CompositeFg_call (H := mmcv files) composite_fg pixel_sample taken)
  = Ok (Nd [1; 1] [159%Z]).
Proof. vm_compute; reflexivity. Qed.

(** C4 on the opaque pixel, both branches. *)
Lemma CompositeFg_call_opaque_witness :
  (∃ results' g',
     CompositeFg_call (H := mmcv files) composite_fg opaque_sample taken
       = Ok (results', g') ∧
     results' !! "fg" = opaque_sample !! "fg" ∧
     results' !! "alpha" = opaque_sample !! "alpha") ∧
  (∃ results' g',
     CompositeFg_call (H := mmcv files) composite_fg opaque_sample skipped
       = Ok (results', g') ∧
     results' !! "fg" = opaque_sample !! "fg" ∧
     results' !! "alpha" = opaque_sample !! "alpha").
Proof.
  assert (uniform255 (U8 (Nd [1; 1] [255%Z]))) as Hu by (by repeat constructor).
  split.
  - destruct (CompositeFg_call_opaque (H := mmcv files) composite_fg
                opaque_sample taken _ _ 1 1 eq_refl eq_refl eq_refl eq_refl Hu)
      as (Hsame & _ & Hret).
    destruct (Hret (U8 (Nd [1; 1; 3] [9; 9; 9]%Z))
                (Nd [1; 1] [normalised 64]) (advance (advance taken)))
      as [[results' g'] Hcall];
      [(vm_compute; reflexivity)|(vm_compute; reflexivity)|by eexists|].
    destruct (Hsame results' g' Hcall) as (Hfg & x & Hx & _ & _ & _ & Hy).
    exists results', g'. split; [assumption|]. split; [assumption|].
    rewrite Hx, (Hy _ eq_refl). reflexivity.
  - destruct (CompositeFg_call_opaque (H := mmcv files) composite_fg
                opaque_sample skipped _ _ 1 1 eq_refl eq_refl eq_refl eq_refl Hu)
      as (Hsame & Hret & _).
    destruct Hret as [[results' g'] Hcall]; [(vm_compute; reflexivity)|].
    destruct (Hsame results' g' Hcall) as (Hfg & x & Hx & _ & _ & _ & Hy).
    exists results', g'. split; [assumption|]. split; [assumption|].
    rewrite Hx, (Hy _ eq_refl). reflexivity.
Defined.

(** C8 on the one pixel sample: the bytes of "fg" come back as a [float32]
    array. *)
Lemma CompositeFg_call_composited_witness :
  ∃ (results' : sample) (blended : nd float32),
    CompositeFg_call (H := mmcv files) composite_fg pixel_sample taken
      = Ok (results', advance (advance taken)) ∧
    pixel_sample !! "fg" = Some (VArray (U8 (Nd [1; 1; 3] [200; 100; 50]%Z))) ∧
    results' !! "fg" = Some (VArray (F32 blended)) ∧
    shape blended = [1; 1; 3] ∧
    item blended [0; 0; 0]
      = blend (of_Z 200) (of_Z 9) (normalised 128) ∧
    results' !! "alpha"
      = Some (VArray (U8 (astype_uint8
          (mul_scalar (Nd [1; 1] [screen (normalised 128) (normalised 64)]) 255)))) ∧
    results' !! "img_shape" = Some (VTuple [1; 1]).
Proof.
  destruct (CompositeFg_call_composited (H := mmcv files) composite_fg
              pixel_sample taken (advance (advance taken))
              _ _ (U8 (Nd [1; 1; 3] [9; 9; 9]%Z)) (Nd [1; 1] [normalised 64])
              (Nd [1; 1] [screen (normalised 128) (normalised 64)]) 1 1
              eq_refl eq_refl eq_refl)
    as (results' & blended & Hcall & Hfg & Hs & Hitem & Ha & Hi);
    try (vm_compute; reflexivity).
  exists results', blended. split; [assumption|]. split; [reflexivity|].
  split; [assumption|]. split; [assumption|]. split; [|split; assumption].
  rewrite Hitem by lia. vm_compute; reflexivity.
Defined.

End runs.

(** * The stems of [CompositeFg] *)

Section stems.
Implicit Types (s p stem ext name : string) (c : Ascii.ascii).

Lemma rfind_bounds c s : (-1 ≤ rfind c s < Z.of_nat (String.length s))%Z.
Proof.
  induction s as [|a s IH]; [simpl; lia|].
  cbn [rfind String.length]. rewrite Nat2Z.inj_succ. cbv zeta.
  destruct (Z.leb_spec 0 (rfind c s)); [lia|]. destruct (Ascii.eqb a c); lia.
Qed.

Lemma rfind_app c s1 s2 :
  rfind c (s1 +:+ s2) =
    if (0 <=? rfind c s2)%Z
    then (Z.of_nat (String.length s1) + rfind c s2)%Z
    else rfind c s1.
Proof.
  induction s1 as [|a s1 IH].
  - change ("" +:+ s2) with s2. change (rfind c "") with (-1)%Z.
    change (String.length "") with 0.
    pose proof (rfind_bounds c s2).
    destruct (Z.leb_spec 0 (rfind c s2)); lia.
  - change (String a s1 +:+ s2) with (String a (s1 +:+ s2)).
    cbn [rfind String.length]. rewrite Nat2Z.inj_succ, IH.
    cbv zeta. destruct (Z.leb_spec 0 (rfind c s2)).
    + destruct (Z.leb_spec 0 (Z.of_nat (String.length s1) + rfind c s2)); lia.
    + done.
Qed.

Lemma substring_app_l s1 s2 n m :
  n + m ≤ String.length s1 →
  String.substring n m (s1 +:+ s2) = String.substring n m s1.
Proof.
  revert n m. induction s1 as [|a s1 IH]; intros n m Hnm; simpl in *.
  - replace n with 0 by lia. replace m with 0 by lia. by destruct s2.
  - destruct n as [|n]; [destruct m as [|m]; [done|]|].
    + f_equal. apply (IH 0 m). lia.
    + apply IH. lia.
Qed.

Lemma substring_full s : String.substring 0 (String.length s) s = s.
Proof. induction s as [|a s IH]; simpl; [done|]. by rewrite IH. Qed.

Lemma substring_app_r s1 s2 :
  String.substring (String.length s1) (String.length s2) (s1 +:+ s2) = s2.
Proof. induction s1 as [|a s1 IH]; [apply substring_full|apply IH]. Qed.

Lemma length_app_string s1 s2 :
  String.length (s1 +:+ s2) = String.length s1 + String.length s2.
Proof. induction s1 as [|a s1 IH]; simpl; [done|]. by rewrite IH. Qed.

Lemma str_take_drop n s : str_take n s +:+ str_drop n s = s.
Proof.
  unfold str_take, str_drop. revert n.
  induction s as [|a s IH]; intros [|n]; try reflexivity.
  - change (String a (String.substring 0 (String.length s) s) = String a s).
    by rewrite substring_full.
  - change (String a (String.substring 0 n s
                      +:+ String.substring n (String.length s - n) s)
            = String a s).
    by rewrite IH.
Qed.

Lemma string_app_nil_r s : s +:+ "" = s.
Proof.
  induction s as [|a s IH]; [done|].
  change (String a (s +:+ "") = String a s). by rewrite IH.
Qed.

(** Splitting a path and joining the two parts gives the path back. *)
Lemma osp_splitext_app p : (osp_splitext p).1 +:+ (osp_splitext p).2 = p.
Proof.
  unfold osp_splitext. case_match; cbn [fst snd];
    [apply str_take_drop|apply string_app_nil_r].
Qed.

Lemma osp_splitext_file_name stem ext :
  plain_ext ext → named stem →
  osp_splitext (file_name stem ext) = (stem, "." +:+ ext).
Proof.
  intros [Hdot Hsep] Hnamed. unfold osp_splitext, file_name.
  rewrite !rfind_app. cbn [rfind String.append]. rewrite Hdot, Hsep.
  change (Ascii.eqb _ extsep) with true. change (Ascii.eqb _ sep) with false.
  cbn [Z.leb Z.compare]. cbv zeta.
  pose proof (rfind_bounds sep stem) as Hb.
  change (0 <=? 0)%Z with true. change (0 <=? -1)%Z with false. cbv iota.
  rewrite Z.add_0_r, Nat2Z.id.
  rewrite (proj2 (Z.ltb_lt _ _)) by lia. cbn [andb].
  rewrite substring_app_l by lia.
  unfold named, str_drop in Hnamed.
  replace (Z.to_nat (Z.of_nat (String.length stem) - (rfind sep stem + 1)))
    with (String.length stem - Z.to_nat (rfind sep stem + 1)) by lia.
  rewrite Hnamed. unfold str_take, str_drop.
  rewrite substring_app_l, substring_full by lia.
  rewrite length_app_string.
  replace (String.length stem + String.length ("." +:+ ext) - String.length stem)
    with (String.length ("." +:+ ext)) by lia.
  by rewrite substring_app_r.
Qed.

Lemma osp_splitext_no_dot p : rfind extsep p = (-1)%Z → osp_splitext p = (p, "").
Proof.
  intros Hdot. unfold osp_splitext. rewrite Hdot.
  pose proof (rfind_bounds sep p). by rewrite (proj2 (Z.ltb_ge _ _)) by lia.
Qed.

Lemma foldl_snoc_fmap {A B} (f : A → B) (l : list A) (acc : list B) :
  foldl (λ acc x, acc ++ [f x]) acc l = acc ++ (f <$> l).
Proof.
  revert acc. induction l as [|x l IH]; intros acc; simpl.
  - by rewrite app_nil_r.
  - by rewrite IH, <-app_assoc.
Qed.

Context `{Scandir}.

Lemma get_stem_list_fmap dir_name ext :
  get_stem_list dir_name ext
  = (fmap (M := list) (λ name, (osp_splitext name).1)) <$> scandir dir_name ext.
Proof.
  unfold get_stem_list. destruct (scandir dir_name ext) as [names|e]; [|done].
  cbn [mbind result_bind fmap result_fmap]. by rewrite foldl_snoc_fmap.
Qed.


Lemma prefix_app s1 s2 : String.prefix s1 (s1 +:+ s2) = true.
Proof.
  apply String.prefix_correct. by rewrite substring_app_l, substring_full by lia.
Qed.

(** X1. When every name that [mmcv.scandir] lists is a stem followed by
    a dot and the foreground extension, the constructor keeps the five
    arguments and one stem per name, and the file names that line 144
    builds from the stems are the names listed, in the same order. *)
Theorem CompositeFg_init_stems (fd ad fe ae interp : string)
    (names : list string) :
  scandir fd fe = Ok names →
  plain_ext fe →
  Forall (λ name, ∃ stem, name = file_name stem fe ∧ named stem) names →
  ∃ self,
    CompositeFg_init fd ad fe ae interp = Ok self ∧
    fg_dir self = fd ∧ alpha_dir self = ad ∧ fg_ext self = fe ∧
    alpha_ext self = ae ∧ interpolation self = interp ∧
    (λ stem, stem +:+ "." +:+ fg_ext self) <$> stem_list self = names.
Proof.
  intros Hscan Hext Hnames. unfold CompositeFg_init.
  rewrite get_stem_list_fmap, Hscan. result_simpl. eexists.
  split; [reflexivity|]. cbn [fg_dir alpha_dir fg_ext alpha_ext interpolation
                              stem_list].
  split_and!; try done.
  rewrite <-list_fmap_compose. rewrite <-(list_fmap_id names) at 2.
  apply Forall_fmap_ext_1. eapply Forall_impl; [exact Hnames|].
  intros name (stem & -> & Hstem). cbn [compose].
  by rewrite osp_splitext_file_name.
Qed.

(** X2. Whatever [mmcv.scandir] lists, the stems follow the listing one
    for one and in order, and every stem is the beginning of its name; a
    name without a dot is kept whole, so that the file line 144 asks for,
    the name with a dot and the extension added, is not the file listed. *)
Theorem get_stem_list_prefixes (dir_name ext : string) (names : list string) :
  scandir dir_name ext = Ok names →
  ∃ stems,
    get_stem_list dir_name ext = Ok stems ∧
    Forall2 (λ stem name,
               String.prefix stem name = true ∧
               (rfind extsep name = (-1)%Z →
                  stem = name ∧ stem +:+ "." +:+ ext ≠ name))
            stems names.
Proof.
  intros Hscan. rewrite get_stem_list_fmap, Hscan. result_simpl.
  eexists. split; [reflexivity|].
  apply Forall2_fmap_l, Forall_Forall2_diag, Forall_forall.
  intros name _. split.
  - rewrite <-(osp_splitext_app name) at 2. apply prefix_app.
  - intros Hdot. rewrite osp_splitext_no_dot by done. split; [done|].
    intros Heq%(f_equal String.length).
    rewrite length_app_string in Heq. simpl in Heq. lia.
Qed.

End stems.

(** * Bytes as [float32] *)

Lemma float32_eqb_eq x y : float32_eqb x y = true → x = y.
Proof.
  destruct x as [s|s| |s m e], y as [s'|s'| |s' m' e']; simpl; try done.
  - by intros ->%Bool.eqb_prop.
  - by intros ->%Bool.eqb_prop.
  - intros [[->%Bool.eqb_prop ->%Pos.eqb_eq]%andb_prop ->%Z.eqb_eq]%andb_prop.
    done.
Qed.

Lemma forallb_bytes (P : Z → bool) (z : Z) :
  forallb P (seqZ 0 256) = true → (0 ≤ z < 256)%Z → P z = true.
Proof.
  intros Hall Hz. rewrite forallb_forall in Hall.
  apply Hall, list_elem_of_In, elem_of_seqZ. lia.
Qed.

Lemma byte_unit_laws_bytes : forallb byte_unit_laws (seqZ 0 256) = true.
Proof. by vm_compute. Qed.

Lemma byte_units z :
  (0 ≤ z < 256)%Z →
  mul (of_Z z) (of_Z 1) = of_Z z ∧ mul (of_Z 1) (of_Z z) = of_Z z ∧
  mul (of_Z z) (of_Z 0) = of_Z 0 ∧ mul (of_Z 0) (of_Z z) = of_Z 0 ∧
  add (of_Z z) (of_Z 0) = of_Z z ∧ add (of_Z 0) (of_Z z) = of_Z z.
Proof.
  intros Hz. pose proof (forallb_bytes _ z byte_unit_laws_bytes Hz) as Hl.
  unfold byte_unit_laws in Hl. cbv zeta in Hl.
  repeat (apply andb_prop in Hl as [Hl ?%float32_eqb_eq]).
  apply float32_eqb_eq in Hl. done.
Qed.

Lemma normalised_255 : normalised 255 = of_Z 1.
Proof. by vm_compute. Qed.

Lemma normalised_0 : normalised 0 = of_Z 0.
Proof. by vm_compute. Qed.

Lemma sub_1_0 : sub (of_Z 1) (of_Z 0) = of_Z 1.
Proof. by vm_compute. Qed.

Lemma sub_1_1_0 : sub (of_Z 1) (of_Z 1) = of_Z 0.
Proof. by vm_compute. Qed.

Lemma item_astype_float32_U8 (x : nd Z) idx :
  wf_nd x → in_shape idx (shape x) →
  item (astype_float32 (U8 x)) idx = of_Z (item x idx).
Proof.
  intros Hwf Hin. cbn [astype_float32].
  by rewrite item_map_nd by auto using in_shape_reads_pad.
Qed.

Lemma item_is_byte (x : nd Z) idx :
  wf_nd x → is_bytes x → in_shape idx (shape x) → (0 ≤ item x idx < 256)%Z.
Proof.
  intros Hwf Hb Hin.
  apply (proj1 (Forall_forall _ _) Hb), item_elem_of; [done|].
  by apply in_shape_reads_pad.
Qed.

(** * MergeFgAndBg: errors, repetition, the two ends of the matte *)

Section merge_more.
Import Ref Run Cases.

(** The call reads the three keys "alpha", "fg" and "bg" and nothing else
    of the record. *)
Lemma MergeFgAndBg_call_other (results other results' : sample) :
  other !! "alpha" = results !! "alpha" →
  other !! "fg" = results !! "fg" →
  other !! "bg" = results !! "bg" →
  MergeFgAndBg_call results = Ok results' →
  ∃ merged,
    results' = <["merged" := VArray merged]> results ∧
    MergeFgAndBg_call other = Ok (<["merged" := VArray merged]> other).
Proof.
  intros Ha Hfg Hbg. unfold MergeFgAndBg_call, getitem.
  rewrite Ha, Hfg, Hbg.
  destruct (results !! "alpha") as [v|]; [|done]. cbn [mbind result_bind].
  destruct (as_array v) as [a|]; [|done]. cbn [mbind result_bind].
  destruct (results !! "fg") as [vfg|]; [|done]. cbn [mbind result_bind].
  destruct (as_array vfg) as [fg|]; [|done]. cbn [mbind result_bind].
  destruct (results !! "bg") as [vbg|]; [|done]. cbn [mbind result_bind].
  destruct (as_array vbg) as [bg|]; [|done]. cbn [mbind result_bind].
  destruct (np_mul fg _) as [t1|]; [|done]. cbn [mbind result_bind].
  destruct (np_mul _ bg) as [t2|]; [|done]. cbn [mbind result_bind].
  destruct (np_add t1 t2) as [merged|]; [|done]. cbn [mbind result_bind].
  intros [= <-]. by exists merged.
Qed.

(** X3. A missing key stops the call with the [KeyError] of that key: the
    keys are read in the order "alpha", "fg", "bg", and the first one that
    is missing is the one reported. *)
Theorem MergeFgAndBg_call_KeyError (results : sample) (key : string)
    (present : list string) :
  present ++ [key] `prefix_of` ["alpha"; "fg"; "bg"] →
  (∀ k, k ∈ present → ∃ a, results !! k = Some (VArray a)) →
  results !! key = None →
  MergeFgAndBg_call results = Raise (KeyError key).
Proof.
  intros [rest Hp] Hpres Hkey. unfold MergeFgAndBg_call, getitem.
  destruct present as [|k1 [|k2 [|k3 present]]]; simplify_eq/=.
  - by rewrite Hkey.
  - destruct (Hpres "alpha") as [a ->]; [set_solver|]. by rewrite Hkey.
  - destruct (Hpres "alpha") as [a ->]; [set_solver|].
    destruct (Hpres "fg") as [fg ->]; [set_solver|]. by rewrite Hkey.
  - by destruct present.
Qed.

Lemma MergeFgAndBg_call_KeyError_witness :
  MergeFgAndBg_call no_bg = Raise (KeyError "bg").
Proof.
  apply (MergeFgAndBg_call_KeyError no_bg "bg" ["alpha"; "fg"]).
  - by exists [].
  - intros k [->|[->|[]%elem_of_nil]%elem_of_cons]%elem_of_cons;
      eexists; vm_compute; reflexivity.
  - vm_compute; reflexivity.
Defined.

(** X4. Calling the transform on its own output changes nothing: the
    second call computes the same "merged" from the same three arrays. *)
Theorem MergeFgAndBg_call_idempotent (results results' : sample) :
  MergeFgAndBg_call results = Ok results' →
  MergeFgAndBg_call results' = Ok results'.
Proof.
  intros Hcall.
  destruct (MergeFgAndBg_call_other results results' results')
    as (merged & Heq & Hagain); [| | |done|].
  1-3: destruct (MergeFgAndBg_call_other results results results')
         as (merged & -> & _); [done..|]; by rewrite lookup_insert_ne.
  rewrite Hagain. f_equal. rewrite Heq at 1. by rewrite insert_insert_eq.
Qed.

Lemma MergeFgAndBg_call_idempotent_witness :
  ∃ results', MergeFgAndBg_call sample1 = Ok results' ∧
    MergeFgAndBg_call results' = Ok results'.
Proof.
  destruct (MergeFgAndBg_call_Ok sample1 _ _ _ 2 2 eq_refl eq_refl eq_refl
              eq_refl eq_refl eq_refl) as (merged & Hcall & _).
  eexists. split; [exact Hcall|].
  exact (MergeFgAndBg_call_idempotent sample1 _ Hcall).
Defined.

(** X5. On byte images the blend is exact at the two ends of the matte:
    where "alpha" is 255 the merged pixel is the foreground pixel, where it
    is 0 the merged pixel is the background pixel, as [float32]. *)
Theorem MergeFgAndBg_call_extremes (results : sample) (alpha fg bg : nd Z)
    (H W : nat) :
  results !! "alpha" = Some (VArray (U8 alpha)) →
  results !! "fg" = Some (VArray (U8 fg)) →
  results !! "bg" = Some (VArray (U8 bg)) →
  wf_nd alpha → wf_nd fg → wf_nd bg → is_bytes fg → is_bytes bg →
  shape alpha = [H; W] → shape fg = [H; W; 3] → shape bg = [H; W; 3] →
  ∃ (results' : sample) (merged : nd float32),
    MergeFgAndBg_call results = Ok results' ∧
    results' !! "merged" = Some (VArray (F32 merged)) ∧
    ∀ i j c, i < H → j < W → c < 3 →
      (item alpha [i; j] = 255%Z →
         item merged [i; j; c] = of_Z (item fg [i; j; c])) ∧
      (item alpha [i; j] = 0%Z →
         item merged [i; j; c] = of_Z (item bg [i; j; c])).
Proof.
  intros Ha Hfg Hbg Hwa Hwf Hwb Hbf Hbb Hsa Hsf Hsb.
  destruct (MergeFgAndBg_call_Ok results (U8 alpha) (U8 fg) (U8 bg) H W)
    as (merged & Hcall & _ & _ & Hitem); [done..|].
  eexists _, merged. split; [exact Hcall|].
  split; [by rewrite lookup_insert_eq|].
  intros i j c Hi Hj Hc. specialize (Hitem i j c Hwa Hi Hj Hc).
  cbv zeta in Hitem.
  assert (in_shape [i; j] (shape alpha)) as Hin2 by (rewrite Hsa; shape_tac).
  assert (in_shape [i; j; c] (shape fg)) as Hinf by (rewrite Hsf; shape_tac).
  assert (in_shape [i; j; c] (shape bg)) as Hinb by (rewrite Hsb; shape_tac).
  rewrite !item_astype_float32_U8 in Hitem by done.
  destruct (byte_units _ (item_is_byte fg _ Hwf Hbf Hinf))
    as (Hf1 & _ & Hf0 & _ & Hfa & _).
  destruct (byte_units _ (item_is_byte bg _ Hwb Hbb Hinb))
    as (_ & Hb1 & _ & Hb0 & _ & Hba).
  rewrite Hitem. fold (normalised (item alpha [i; j])). split; intros ->.
  - by rewrite normalised_255, sub_1_1_0, Hf1, Hb0, Hfa.
  - by rewrite normalised_0, sub_1_0, Hf0, Hb1, Hba.
Qed.

Lemma MergeFgAndBg_call_extremes_witness :
  ∃ (results' : sample) (merged : nd float32),
    MergeFgAndBg_call extremes = Ok results' ∧
    results' !! "merged" = Some (VArray (F32 merged)) ∧
    item merged [0; 0; 1] = of_Z 20 ∧ item merged [0; 1; 2] = of_Z 120.
Proof.
  destruct (MergeFgAndBg_call_extremes extremes extreme_alpha extreme_fg
              extreme_bg 1 2)
    as (results' & merged & Hcall & Hm & Hitem);
    try reflexivity; try (repeat constructor; lia).
  exists results', merged. split; [exact Hcall|]. split; [exact Hm|]. split.
  - destruct (Hitem 0 0 1) as [H255 _]; [lia..|]. by apply H255.
  - destruct (Hitem 0 1 2) as [_ H0]; [lia..|]. by apply H0.
Defined.

End merge_more.

(** * GenerateTrimap: construction errors, draws, what the trimap says of
      the matte *)

Lemma unpack2_Raise {A} (t : list A) : length t ≠ 2 → unpack2 t = Raise ValueError.
Proof. by destruct t as [|? [|? [|]]]. Qed.

Lemma unpack2_Raise_inv {A} (t : list A) e : unpack2 t = Raise e → e = ValueError.
Proof. destruct t as [|? [|? [|]]]; intros; by simplify_eq/=. Qed.

Lemma randint_Raise lo hi g : (hi ≤ lo)%Z → randint lo hi g = Raise ValueError.
Proof. intros Hle. unfold randint. by rewrite (proj2 (Z.ltb_ge _ _)). Qed.

Lemma randint_Raise_inv lo hi g e : randint lo hi g = Raise e → e = ValueError.
Proof. unfold randint. case_match; intros; by simplify_eq. Qed.

Lemma range_empty lo hi : (hi ≤ lo)%Z → range lo hi = [].
Proof.
  intros Hle. unfold range, seqZ. by replace (Z.to_nat (hi - lo)) with 0 by lia.
Qed.

Section trimap_more.
Context `{Cv2}.

(** The call reads the key "alpha" and nothing else of the record. *)
Lemma GenerateTrimap_call_other (self : GenerateTrimap)
    (results other results' : sample) (g g' : rng) :
  other !! "alpha" = results !! "alpha" →
  GenerateTrimap_call self results g = Ok (results', g') →
  ∃ trimap,
    results' = <["trimap" := VArray (F32 trimap)]> results ∧
    GenerateTrimap_call self other g
      = Ok (<["trimap" := VArray (F32 trimap)]> other, g').
Proof.
  intros Ha. unfold GenerateTrimap_call, getitem. rewrite Ha.
  destruct (results !! "alpha") as [v|]; [|done]. cbn [mbind result_bind].
  destruct (as_array v) as [alpha|]; [|done]. cbn [mbind result_bind].
  destruct (randint 0 _ g) as [[xe g1]|]; [|done]. cbn [mbind result_bind].
  destruct (randint _ _ g1) as [[ie g2]|]; [|done]. cbn [mbind result_bind].
  destruct (symmetric self); cbn [mbind result_bind].
  - destruct (list_getitem _ xe) as [ke|]; [|done]. cbn [mbind result_bind].
    destruct (erode _ _ _) as [eroded|]; [|done]. cbn [mbind result_bind].
    destruct (dilate _ _ _) as [dilated|]; [|done]. cbn [mbind result_bind].
    destruct (build_trimap _ _ _) as [trimap|]; [|done].
    cbn [mbind result_bind]. intros [= <- <-]. by exists trimap.
  - destruct (randint 0 _ g2) as [[xd g3]|]; [|done]. cbn [mbind result_bind].
    destruct (randint _ _ g3) as [[id g4]|]; [|done]. cbn [mbind result_bind].
    destruct (list_getitem _ xe) as [ke|]; [|done]. cbn [mbind result_bind].
    destruct (erode _ _ _) as [eroded|]; [|done]. cbn [mbind result_bind].
    destruct (list_getitem _ xd) as [kd|]; [|done]. cbn [mbind result_bind].
    destruct (dilate _ _ _) as [dilated|]; [|done]. cbn [mbind result_bind].
    destruct (build_trimap _ _ _) as [trimap|]; [|done].
    cbn [mbind result_bind]. intros [= <- <-]. by exists trimap.
Qed.

(** X6. [MergeFgAndBg] and [GenerateTrimap] commute: whichever runs first,
    the two calls return together or not at all, and they return the same
    record and leave the random source in the same state. *)
Theorem MergeFgAndBg_GenerateTrimap_commute (self : GenerateTrimap)
    (results results' : sample) (g g' : rng) :
  (r ← MergeFgAndBg_call results; GenerateTrimap_call self r g)
    = Ok (results', g') ↔
  ('(r, g1) ← GenerateTrimap_call self results g;
   r' ← MergeFgAndBg_call r; Ok (r', g1))
    = Ok (results', g').
Proof.
  split.
  - intros (r1 & Hm & Ht)%bind_Ok_inv.
    destruct (MergeFgAndBg_call_other results results r1)
      as (merged & -> & _); [done..|].
    destruct (GenerateTrimap_call_other self _ results _ g g'
                (eq_sym (lookup_insert_ne results "merged" "alpha" _ ltac:(done))) Ht)
      as (trimap & -> & ->).
    cbn [mbind result_bind].
    edestruct (MergeFgAndBg_call_other results
                 (<["trimap" := VArray (F32 trimap)]> results))
      as (merged' & Heq & ->); [by rewrite lookup_insert_ne..|exact Hm|].
    cbn [mbind result_bind]. do 2 f_equal.
    apply (f_equal (lookup "merged")) in Heq.
    rewrite !lookup_insert_eq in Heq. injection Heq as <-.
    by apply insert_insert_ne.
  - intros ([r1 g1] & Ht & Hm)%bind_Ok_inv.
    apply bind_Ok_inv in Hm as (r2 & Hm & [= <- <-]).
    destruct (GenerateTrimap_call_other self results results r1 g g1)
      as (trimap & -> & _); [done..|].
    destruct (MergeFgAndBg_call_other _ results _
                (eq_sym (lookup_insert_ne results "trimap" "alpha" _ ltac:(done)))
                (eq_sym (lookup_insert_ne results "trimap" "fg" _ ltac:(done)))
                (eq_sym (lookup_insert_ne results "trimap" "bg" _ ltac:(done)))
                Hm)
      as (merged & -> & ->).
    cbn [mbind result_bind].
    edestruct (GenerateTrimap_call_other self results
                 (<["merged" := VArray merged]> results))
      as (trimap' & Heq & ->); [by rewrite lookup_insert_ne|exact Ht|].
    do 2 f_equal.
    apply (f_equal (lookup "trimap")) in Heq.
    rewrite !lookup_insert_eq in Heq. injection Heq as <-.
    by apply insert_insert_ne.
Qed.

(** X7. A tuple that does not hold exactly two numbers, given for
    [kernel_size] or for [iterations], makes the constructor raise the
    [ValueError] of the unpacking, before any kernel is built. *)
Theorem GenerateTrimap_init_ValueError (kernel_size iterations : int_or_tuple)
    (sym : bool) (t : list Z) :
  length t ≠ 2 →
  kernel_size = PyTuple t ∨ iterations = PyTuple t →
  GenerateTrimap_init kernel_size iterations sym = Raise ValueError.
Proof.
  intros Hlen [->| ->]; unfold GenerateTrimap_init.
  - by rewrite unpack2_Raise.
  - rewrite (unpack2_Raise t) by done.
    destruct kernel_size as [k|t']; [done|].
    destruct (unpack2 t') as [[lo hi]|e] eqn:Hu; [done|].
    by rewrite (unpack2_Raise_inv _ _ Hu).
Qed.

(** X8. With no kernel to draw from, or with an empty range of
    iterations, every call on a record that has a matte raises the
    [ValueError] of [np.random.randint]. *)
Theorem GenerateTrimap_call_ValueError (self : GenerateTrimap)
    (results : sample) (g : rng) (alpha : ndarray) :
  results !! "alpha" = Some (VArray alpha) →
  kernels self = [] ∨ (max_iteration self ≤ min_iteration self)%Z →
  GenerateTrimap_call self results g = Raise ValueError.
Proof.
  intros Ha Hempty. unfold GenerateTrimap_call, getitem. rewrite Ha.
  cbn [mbind result_bind as_array].
  destruct (randint 0 _ g) as [[xe g1]|e] eqn:Hr.
  - cbn [mbind result_bind]. destruct Hempty as [Hk|Hit].
    + rewrite Hk, randint_Raise in Hr; done.
    + by rewrite randint_Raise.
  - by rewrite (randint_Raise_inv _ _ _ _ Hr).
Qed.

(** X9. An empty range of kernel sizes is accepted by the constructor:
    it builds an instance without kernels, and no call of that instance
    ever returns. *)
Theorem GenerateTrimap_init_empty (lo hi iterations : Z) (sym : bool) :
  (hi ≤ lo)%Z →
  ∃ self,
    GenerateTrimap_init (PyTuple [lo; hi]) (PyInt iterations) sym = Ok self ∧
    kernels self = [] ∧
    ∀ results g, ¬ is_Ok (GenerateTrimap_call self results g).
Proof.
  intros Hle. unfold GenerateTrimap_init. cbn [unpack2 mbind result_bind].
  rewrite range_empty by done. eexists. split; [reflexivity|].
  split; [done|]. intros results g [out Hout]. revert Hout.
  unfold GenerateTrimap_call, getitem.
  destruct (results !! "alpha") as [[a| |]|]; done.
Qed.

(** X10. A call that returns has written the key "trimap" and no other.
    With [symmetric] set it has drawn twice and has run the erosion and
    the dilation with the same kernel and the same number of iterations;
    otherwise it has drawn four times. *)
Theorem GenerateTrimap_call_draws (self : GenerateTrimap)
    (results results' : sample) (g g' : rng) :
  GenerateTrimap_call self results g = Ok (results', g') →
  (∀ key, key ≠ "trimap" → results' !! key = results !! key) ∧
  ∃ alpha ke ie kd id eroded dilated,
    results !! "alpha" = Some (VArray alpha) ∧
    ke ∈ kernels self ∧ kd ∈ kernels self ∧
    (min_iteration self ≤ ie < max_iteration self)%Z ∧
    (min_iteration self ≤ id < max_iteration self)%Z ∧
    erode alpha ke ie = Ok eroded ∧ dilate alpha kd id = Ok dilated ∧
    if symmetric self
    then kd = ke ∧ id = ie ∧ g' = advance (advance g)
    else g' = advance (advance (advance (advance g))).
Proof.
  intros (alpha & ke & ie & kd & id & eroded & dilated & trimap & Ha & Hke
          & Hkd & Hie & Hid & Hero & Hdil & _ & -> & Hsym)%GenerateTrimap_call_inv.
  split; [intros key Hkey; by rewrite lookup_insert_ne|].
  by exists alpha, ke, ie, kd, id, eroded, dilated.
Qed.

End trimap_more.

(** * CompositeFg: errors, draws, a second call *)

Lemma rand_snd g : (rand g).2 = advance g.
Proof. reflexivity. Qed.

Section composite_more.
Context `{Mmcv}.

Lemma load_fg2_alpha2_inv (self : CompositeFg) (h w : nat) (g g' : rng)
    fg2 alpha2 :
  load_fg2_alpha2 self h w g = Ok (fg2, alpha2, g') →
  g' = advance g ∧ stem_list self ≠ [].
Proof.
  unfold load_fg2_alpha2.
  intros ([idx g1] & [Hidx ->]%randint_inv & Hc)%bind_Ok_inv.
  apply bind_Ok_inv in Hc as (stem & _ & Hc).
  apply bind_Ok_inv in Hc as (x1 & _ & Hc).
  apply bind_Ok_inv in Hc as (x2 & _ & Hc).
  apply bind_Ok_inv in Hc as (x3 & _ & Hc).
  apply bind_Ok_inv in Hc as (x4 & _ & Hc).
  injection Hc as _ _ <-. split; [done|].
  intros Hnil. rewrite Hnil in Hidx. simpl in Hidx. lia.
Qed.

(** X11. A missing key stops the call with the [KeyError] of that key:
    the keys are read in the order "fg", "alpha", "img_shape", before the
    random source is touched. *)
Theorem CompositeFg_call_KeyError (self : CompositeFg) (results : sample)
    (g : rng) (key : string) (present : list string) :
  present ++ [key] `prefix_of` ["fg"; "alpha"; "img_shape"] →
  (∀ k, k ∈ present → ∃ a, results !! k = Some (VArray a)) →
  results !! key = None →
  CompositeFg_call self results g = Raise (KeyError key).
Proof.
  intros [rest Hp] Hpres Hkey. unfold CompositeFg_call, getitem.
  destruct present as [|k1 [|k2 [|k3 present]]]; simplify_eq/=.
  - by rewrite Hkey.
  - destruct (Hpres "fg") as [a ->]; [set_solver|]. by rewrite Hkey.
  - destruct (Hpres "fg") as [fg ->]; [set_solver|].
    destruct (Hpres "alpha") as [a ->]; [set_solver|]. by rewrite Hkey.
  - by destruct present.
Qed.

(** X12. An "img_shape" that does not hold exactly two numbers, such as
    the (h, w, 3) of a colour image, makes every call raise the
    [ValueError] of the unpacking, whatever the random source gives. *)
Theorem CompositeFg_call_img_shape (self : CompositeFg) (results : sample)
    (g : rng) (fg a : ndarray) (t : list nat) :
  results !! "fg" = Some (VArray fg) → results !! "alpha" = Some (VArray a) →
  results !! "img_shape" = Some (VTuple t) →
  length t ≠ 2 →
  CompositeFg_call self results g = Raise ValueError.
Proof.
  intros Hfg Ha Hs Hlen. unfold CompositeFg_call, getitem.
  rewrite Hfg, Ha, Hs. cbn [mbind result_bind as_array as_tuple].
  by rewrite unpack2_Raise.
Qed.

(** X13. A call that returns has left every key other than "fg", "alpha"
    and "img_shape" alone, and has drawn once from the random source when
    the composition was skipped, twice when it was tried. *)
Theorem CompositeFg_call_draws (self : CompositeFg)
    (results results' : sample) (g g' : rng) :
  CompositeFg_call self results g = Ok (results', g') →
  (∀ key, key ≠ "fg" → key ≠ "alpha" → key ≠ "img_shape" →
     results' !! key = results !! key) ∧
  g' = if branch_taken g then advance (advance g) else advance g.
Proof.
  intros (fg & a & h & w & fg' & alpha' & Hfg & Ha & Hs & -> & Hcases)
    %CompositeFg_call_inv.
  split; [intros; by apply lookup_write_back_other|].
  destruct Hcases as [(-> & _ & _ & ->)
    |(-> & fg2 & alpha2 & alpha_tmp & [-> _]%load_fg2_alpha2_inv & _)];
    by rewrite ?rand_snd.
Qed.

(** X14. When the composition is tried and the instance has no stem to
    draw from (the directory held no matching file), the call raises the
    [ValueError] of [np.random.randint]. *)
Theorem CompositeFg_call_no_stems (self : CompositeFg) (results : sample)
    (g : rng) (fg a : ndarray) (h w : nat) :
  results !! "fg" = Some (VArray fg) → results !! "alpha" = Some (VArray a) →
  results !! "img_shape" = Some (VTuple [h; w]) →
  stem_list self = [] → branch_taken g = true →
  CompositeFg_call self results g = Raise ValueError.
Proof.
  intros Hfg Ha Hs Hnil Hb. unfold CompositeFg_call, getitem.
  rewrite Hfg, Ha, Hs. cbn [mbind result_bind as_array as_tuple unpack2].
  unfold branch_taken in Hb. rewrite Hb.
  unfold composite, load_fg2_alpha2. rewrite Hnil.
  by rewrite randint_Raise.
Qed.

(** X15. When the composition is tried and the second foreground cannot be
    read, the error of [mmcv.imread] leaves the call as it is: the sample
    is not passed on uncomposited. *)
Theorem CompositeFg_call_imread_error (self : CompositeFg) (results : sample)
    (g : rng) (fg a : ndarray) (h w : nat) (e : exn) :
  results !! "fg" = Some (VArray fg) → results !! "alpha" = Some (VArray a) →
  results !! "img_shape" = Some (VTuple [h; w]) →
  stem_list self ≠ [] → branch_taken g = true →
  (∀ stem, stem ∈ stem_list self →
     imread (osp_join (fg_dir self) (stem +:+ "." +:+ fg_ext self)) Color
       = Raise e) →
  CompositeFg_call self results g = Raise e.
Proof.
  intros Hfg Ha Hs Hne Hb Hread. unfold CompositeFg_call, getitem.
  rewrite Hfg, Ha, Hs. cbn [mbind result_bind as_array as_tuple unpack2].
  unfold branch_taken in Hb. rewrite Hb.
  unfold composite, load_fg2_alpha2.
  destruct (randint_Ok 0 (Z.of_nat (length (stem_list self))) (rand g).2)
    as (idx & -> & Hidx); [destruct (stem_list self); simpl; [done|lia]|].
  cbn [mbind result_bind].
  destruct (list_getitem_Ok (stem_list self) idx) as (stem & -> & Hstem);
    [done|].
  cbn [mbind result_bind]. by rewrite Hread.
Qed.

(** X16. A matte with more than two axes goes through one call and blocks
    the next: the call writes the shape of the matte to "img_shape", and
    no call can unpack that into a height and a width. *)
Theorem CompositeFg_call_again (self self' : CompositeFg)
    (results results' : sample) (g g' g'' : rng) (a : ndarray) :
  results !! "alpha" = Some (VArray a) →
  2 < length (nd_shape a) →
  CompositeFg_call self results g = Ok (results', g') →
  CompositeFg_call self' results' g'' = Raise ValueError.
Proof.
  intros Ha Hlen
    (fg & a' & h & w & fg' & alpha' & Hfg & Ha' & Hs & -> & Hcases)
    %CompositeFg_call_inv.
  simplify_eq.
  assert (2 < length (shape alpha')) as Hlen'.
  { destruct Hcases as [(_ & _ & -> & _)|(_ & fg2 & alpha2 & alpha_tmp & _ & Hsc
      & [(_ & _ & ->)|(_ & blended & _ & _ & ->)])];
      [simpl; by rewrite shape_astype_float32..|].
    apply screen_alpha_inv in Hsc as (s & Hbs & ->). cbn [shape].
    unfold broadcast_shapes in Hbs.
    apply broadcast_aligned_length in Hbs as [Hl _].
    rewrite length_pad in Hl. simpl in Hl.
    rewrite shape_astype_float32 in Hl. lia. }
  unfold CompositeFg_call, getitem.
  rewrite lookup_write_back_fg, lookup_write_back_alpha,
    lookup_write_back_img_shape.
  cbn [mbind result_bind as_array as_tuple].
  rewrite unpack2_Raise by lia. done.
Qed.

End composite_more.

(** * The screen and the blend at the two ends of the matte *)

Lemma mul_comm x y : mul x y = mul y x.
Proof.
  unfold mul, SFmul.
  destruct x as [sx|sx| |sx mx ex], y as [sy|sy| |sy my ey]; try done;
    try (by rewrite xorb_comm).
  by rewrite xorb_comm, Pos.mul_comm, Z.add_comm.
Qed.

Lemma broadcast_dim_comm d e : broadcast_dim d e = broadcast_dim e d.
Proof.
  unfold broadcast_dim.
  destruct (Nat.eqb_spec d e), (Nat.eqb_spec e d); try congruence;
    destruct (Nat.eqb_spec d 1), (Nat.eqb_spec e 1); congruence.
Qed.

Lemma broadcast_aligned_comm sa sb :
  broadcast_aligned sa sb = broadcast_aligned sb sa.
Proof.
  revert sb. induction sa as [|d sa IH]; intros [|e sb]; try done.
  simpl. by rewrite broadcast_dim_comm, IH.
Qed.

Lemma broadcast_shapes_comm sa sb :
  broadcast_shapes sa sb = broadcast_shapes sb sa.
Proof.
  unfold broadcast_shapes. rewrite (Nat.max_comm (length sb)).
  apply broadcast_aligned_comm.
Qed.

(** X17. The screened matte does not depend on which of the two mattes is
    the one of the record and which is the one loaded: the two orders give
    the same array, or fail together. *)
Theorem screen_alpha_comm (alpha alpha2 : nd float32) :
  screen_alpha alpha alpha2 = screen_alpha alpha2 alpha.
Proof.
  unfold screen_alpha, broadcast2. cbn [rsub_scalar map_nd shape].
  rewrite (broadcast_shapes_comm (shape alpha2)).
  destruct (broadcast_shapes (shape alpha) (shape alpha2)) as [s|]; [|done].
  cbn [mbind result_bind]. do 3 f_equal.
  apply list_fmap_ext. intros _ idx _. apply mul_comm.
Qed.

(** X18. The blend of line 159 is exact on byte images at the two ends of
    the matte: where the matte of the record is 255 the blended pixel is
    the pixel of "fg", where it is 0 the blended pixel is the pixel of the
    second foreground, as [float32]. *)
Theorem blend_fg_extremes (fg fg2 a : nd Z) (h w : nat) :
  wf_nd fg → wf_nd fg2 → wf_nd a → is_bytes fg → is_bytes fg2 →
  shape fg = [h; w; 3] → shape fg2 = [h; w; 3] → shape a = [h; w] →
  ∃ blended,
    blend_fg (U8 fg) (U8 fg2) (div_scalar (astype_float32 (U8 a)) 255)
      = Ok blended ∧
    ∀ i j c, i < h → j < w → c < 3 →
      (item a [i; j] = 255%Z →
         item blended [i; j; c] = of_Z (item fg [i; j; c])) ∧
      (item a [i; j] = 0%Z →
         item blended [i; j; c] = of_Z (item fg2 [i; j; c])).
Proof.
  intros Hwf Hwf2 Hwa Hbf Hbf2 Hsf Hsf2 Hsa.
  destruct (blend_fg_Ok (U8 fg) (U8 fg2)
              (div_scalar (astype_float32 (U8 a)) 255) h w)
    as (blended & Hblend & _ & _ & Hitem); [done..|].
  exists blended. split; [exact Hblend|]. intros i j c Hi Hj Hc.
  assert (in_shape [i; j] (shape a)) as Hin2 by (rewrite Hsa; shape_tac).
  assert (in_shape [i; j; c] (shape fg)) as Hinf by (rewrite Hsf; shape_tac).
  assert (in_shape [i; j; c] (shape fg2)) as Hinf2 by (rewrite Hsf2; shape_tac).
  rewrite Hitem by (try lia; by do 2 apply wf_map_nd).
  rewrite !item_astype_float32_U8 by done.
  unfold div_scalar. rewrite item_map_nd;
    [|by apply wf_map_nd|by apply in_shape_reads_pad].
  rewrite item_astype_float32_U8 by done.
  fold (normalised (item a [i; j])). unfold blend.
  destruct (byte_units _ (item_is_byte fg _ Hwf Hbf Hinf))
    as (Hf1 & _ & Hf0 & _ & Hfa & _).
  destruct (byte_units _ (item_is_byte fg2 _ Hwf2 Hbf2 Hinf2))
    as (Hg1 & _ & Hg0 & _ & _ & Hga).
  split; intros ->.
  - by rewrite normalised_255, sub_1_1_0, Hf1, Hg0, Hfa.
  - by rewrite normalised_0, sub_1_0, Hf0, Hg1, Hga.
Qed.


(** * GenerateTrimap on the reference [cv2]: the trimap and the matte *)

Section trimap_reference.
Import Ref.

(** X19. On the reference [cv2], for an instance built by [__init__] and a
    matte without NaN, the trimap of a call that returns is sound for the
    matte: a pixel marked 255 is [>= 255] in the matte, a pixel marked 0 is
    [<= 0] in the matte, and every pixel of the matte that is neither is
    marked 128. *)
Theorem GenerateTrimap_call_sound (kernel_size iterations : int_or_tuple)
    (sym : bool) (self : GenerateTrimap) (results results' : sample)
    (g g' : rng) (alpha : ndarray) (trimap : nd float32) :
  GenerateTrimap_init kernel_size iterations sym = Ok self →
  results !! "alpha" = Some (VArray alpha) →
  wf_ndarray alpha → no_nan alpha →
  GenerateTrimap_call self results g = Ok (results', g') →
  results' !! "trimap" = Some (VArray (F32 trimap)) →
  ∀ idx, in_shape idx (nd_shape alpha) →
    (item trimap idx = of_Z 255 → at_max alpha idx) ∧
    (item trimap idx = of_Z 0 → at_zero alpha idx) ∧
    (¬ at_max alpha idx → ¬ at_zero alpha idx → item trimap idx = of_Z 128).
Proof.
  intros Hinit Ha Hwa Hnan
    (alpha' & ke & ie & kd & id & eroded & dilated & t & Ha' & Hke & Hkd
     & _ & _ & Hero & Hdil & Hb & -> & _)%GenerateTrimap_call_inv Ht idx Hin.
  rewrite lookup_insert_eq in Ht. simplify_eq.
  pose proof (GenerateTrimap_init_anchored _ _ _ _ Hinit) as Hanch.
  destruct (min_filter_le alpha eroded ke ie) as (Hpe & Hwe & Hle1);
    [by apply (proj1 (Forall_forall _ _) Hanch)|done..|].
  destruct (max_filter_ge alpha dilated kd id) as (Hpd & Hwd & Hle2);
    [by apply (proj1 (Forall_forall _ _) Hanch)|done..|].
  destruct (build_trimap_inv _ _ _ _ Hb) as (_ & _ & _ & Hitem).
  destruct (Hitem Hwa Hwe Hwd) as [_ Hitem']. rewrite Hitem' by done.
  pose proof (at_max_mono eroded alpha idx Hwe Hwa Hpe Hin (Hle1 idx Hin))
    as Hmax.
  pose proof (at_zero_mono alpha dilated idx Hwa Hwd Hpd Hin (Hle2 idx Hin))
    as Hzero.
  unfold trimap_pixel.
  destruct (at_zero dilated (under dilated idx)),
    (at_max eroded (under eroded idx));
    (split; [|split]); intros; try done;
    try (exfalso; auto; fail);
    try match goal with
        | Heq : of_Z _ = of_Z _ |- _ => vm_compute in Heq; discriminate
        end; auto.
Qed.

End trimap_reference.

(** * The further properties at work *)

Section more_runs.
Import Ref Run Cases.

Lemma image_5_5 (x : nd Z) : shape x = [5; 5] → image (U8 x).
Proof. intros Hs. exists 5, 5, 1. cbn [nd_shape]. rewrite Hs. split; [done|lia]. Qed.

Lemma GenerateTrimap_call_sound_witness :
  ∃ results' g' trimap,
    GenerateTrimap_call trimap3 channel_matte_sample taken = Ok (results', g') ∧
    results' !! "trimap" = Some (VArray (F32 trimap)) ∧
    ∀ idx, in_shape idx [5; 5; 1] →
      (item trimap idx = of_Z 255 → at_max (U8 matte5_channel) idx) ∧
      (item trimap idx = of_Z 0 → at_zero (U8 matte5_channel) idx) ∧
      (¬ at_max (U8 matte5_channel) idx → ¬ at_zero (U8 matte5_channel) idx →
         item trimap idx = of_Z 128).
Proof.
  destruct (morphology_filters trimap3 (U8 matte5_channel) trimap3_anchored
              (image_5_5_1 matte5_channel eq_refl) eq_refl) as [He Hd].
  destruct (GenerateTrimap_call_Ok trimap3 channel_matte_sample taken
              (U8 matte5_channel) eq_refl) as [[results' g'] Hcall];
    [discriminate|reflexivity|exact He|exact Hd|].
  destruct (GenerateTrimap_call_inv _ _ _ _ _ Hcall)
    as (? & ? & ? & ? & ? & ? & ? & trimap & _ & _ & _ & _ & _ & _ & _ & _
        & Hres & _).
  assert (results' !! "trimap" = Some (VArray (F32 trimap))) as Ht
    by (rewrite Hres; apply lookup_insert_eq).
  exists results', g', trimap. split; [exact Hcall|]. split; [exact Ht|].
  exact (GenerateTrimap_call_sound (PyInt 3) (PyInt 1) false trimap3
           channel_matte_sample results' taken g' (U8 matte5_channel) trimap
           GenerateTrimap_init_3 eq_refl eq_refl I Hcall Ht).
Defined.

Lemma MergeFgAndBg_GenerateTrimap_commute_witness :
  ∃ results' g',
    (r ← MergeFgAndBg_call sample1; GenerateTrimap_call trimap3 r taken)
      = Ok (results', g') ∧
    ('(r, g1) ← GenerateTrimap_call trimap3 sample1 taken;
     r' ← MergeFgAndBg_call r; Ok (r', g1))
      = Ok (results', g').
Proof.
  destruct (MergeFgAndBg_call_Ok sample1 _ _ _ 2 2 eq_refl eq_refl eq_refl
              eq_refl eq_refl eq_refl) as (merged & Hm & _).
  assert (image (U8 (Nd [2; 2] [0; 255; 128; 51]%Z))) as Himg
    by (exists 2, 2, 1; split; [done|lia]).
  destruct (morphology_filters trimap3 _ trimap3_anchored Himg eq_refl)
    as [He Hd].
  destruct (GenerateTrimap_call_Ok trimap3
              (<["merged" := VArray (F32 merged)]> sample1) taken
              (U8 (Nd [2; 2] [0; 255; 128; 51]%Z)))
    as [[results' g'] Hcall];
    [by rewrite lookup_insert_ne|discriminate|reflexivity|exact He|exact Hd|].
  assert ((r ← MergeFgAndBg_call sample1; GenerateTrimap_call trimap3 r taken)
          = Ok (results', g')) as Hboth by (by rewrite Hm).
  exists results', g'. split; [exact Hboth|].
  by apply MergeFgAndBg_GenerateTrimap_commute.
Defined.

Lemma GenerateTrimap_init_ValueError_witness :
  GenerateTrimap_init (PyTuple [3]%Z) (PyInt 1) false = Raise ValueError ∧
  GenerateTrimap_init (PyInt 3) (PyTuple [1; 2; 3]%Z) false = Raise ValueError.
Proof.
  split.
  - apply (GenerateTrimap_init_ValueError _ _ _ [3]%Z); [simpl; lia|by left].
  - apply (GenerateTrimap_init_ValueError _ _ _ [1; 2; 3]%Z);
      [simpl; lia|by right].
Defined.

Lemma GenerateTrimap_call_ValueError_witness :
  GenerateTrimap_call no_kernels matte_sample taken = Raise ValueError ∧
  GenerateTrimap_call no_iterations matte_sample taken = Raise ValueError.
Proof.
  split.
  - apply (GenerateTrimap_call_ValueError _ _ _ (U8 matte5));
      [reflexivity|by left].
  - apply (GenerateTrimap_call_ValueError _ _ _ (U8 matte5));
      [reflexivity|right; simpl; lia].
Defined.

Lemma GenerateTrimap_init_empty_witness :
  ∃ self,
    GenerateTrimap_init (PyTuple [5; 5]%Z) (PyInt 1) false = Ok self ∧
    kernels self = [] ∧
    ¬ is_Ok (GenerateTrimap_call self matte_sample taken).
Proof.
  destruct (GenerateTrimap_init_empty (H := cv2) 5 5 1 false) as
    (self & Hinit & Hk & Hnever); [lia|].
  exists self. split; [exact Hinit|]. split; [exact Hk|]. apply Hnever.
Defined.

Lemma GenerateTrimap_call_draws_witness :
  ∃ results' g',
    GenerateTrimap_call trimap3_symmetric matte_sample taken
      = Ok (results', g') ∧
    g' = advance (advance taken) ∧
    results' !! "alpha" = matte_sample !! "alpha".
Proof.
  destruct (morphology_filters trimap3_symmetric (U8 matte5) trimap3_anchored
              (image_5_5 matte5 eq_refl) eq_refl) as [He Hd].
  destruct (GenerateTrimap_call_Ok trimap3_symmetric matte_sample taken
              (U8 matte5) eq_refl) as [[results' g'] Hcall];
    [discriminate|reflexivity|exact He|exact Hd|].
  destruct (GenerateTrimap_call_draws _ _ _ _ _ Hcall)
    as (Hframe & ? & ? & ? & ? & ? & ? & ? & _ & _ & _ & _ & _ & _ & _ & Hsym).
  destruct Hsym as (_ & _ & Hg).
  exists results', g'. split; [exact Hcall|]. split; [exact Hg|].
  by apply Hframe.
Defined.

Lemma CompositeFg_call_KeyError_witness :
  CompositeFg_call (H := mmcv files) composite_fg no_img_shape taken
  = Raise (KeyError "img_shape").
Proof.
  apply (CompositeFg_call_KeyError (H := mmcv files) _ _ _ "img_shape"
           ["fg"; "alpha"]).
  - by exists [].
  - intros k [->|[->|[]%elem_of_nil]%elem_of_cons]%elem_of_cons;
      eexists; vm_compute; reflexivity.
  - vm_compute; reflexivity.
Defined.

Lemma CompositeFg_call_img_shape_witness :
  CompositeFg_call (H := mmcv files) composite_fg shape3_sample taken
    = Raise ValueError ∧
  CompositeFg_call (H := mmcv files) composite_fg shape3_sample skipped
    = Raise ValueError.
Proof.
  split;
    eapply (CompositeFg_call_img_shape (H := mmcv files) _ _ _ _ _ [1; 1; 3]);
    try (vm_compute; reflexivity); simpl; lia.
Defined.

Lemma CompositeFg_call_draws_witness :
  ∃ results' g',
    CompositeFg_call (H := mmcv files) composite_fg pixel_sample skipped
      = Ok (results', g') ∧
    g' = advance skipped ∧
    CompositeFg_call (H := mmcv files) composite_fg pixel_sample taken
      = Ok (write_back pixel_sample (F32 pixel_blended) pixel_alpha_tmp,
            advance (advance taken)).
Proof.
  assert (branch_taken skipped = false) as Hb by (vm_compute; reflexivity).
  pose proof (CompositeFg_call_skip (H := mmcv files) composite_fg pixel_sample
                skipped _ _ 1 1 eq_refl eq_refl eq_refl Hb) as Hcall.
  destruct (CompositeFg_call_draws (H := mmcv files) _ _ _ _ _ Hcall)
    as [_ Hg].
  rewrite Hb in Hg.
  eexists _, _. split; [exact Hcall|]. split; [exact Hg|].
  exact pixel_sample_composited.
Defined.

Lemma CompositeFg_call_no_stems_witness :
  CompositeFg_call (H := mmcv files) no_stems pixel_sample taken
  = Raise ValueError.
Proof.
  eapply (CompositeFg_call_no_stems (H := mmcv files) _ _ _ _ _ 1 1);
    (vm_compute; reflexivity).
Defined.

Lemma CompositeFg_call_imread_error_witness :
  CompositeFg_call (H := mmcv no_files) composite_fg pixel_sample taken
  = Raise (IOError "fg/a.png").
Proof.
  eapply (CompositeFg_call_imread_error (H := mmcv no_files) _ _ _ _ _ 1 1);
    try (vm_compute; reflexivity); [discriminate|].
  intros stem ->%list_elem_of_singleton. vm_compute; reflexivity.
Defined.

Lemma CompositeFg_call_again_witness :
  ∃ results' g',
    CompositeFg_call (H := mmcv files) composite_fg channel_sample skipped
      = Ok (results', g') ∧
    CompositeFg_call (H := mmcv files) composite_fg results' taken
      = Raise ValueError.
Proof.
  assert (branch_taken skipped = false) as Hb by (vm_compute; reflexivity).
  pose proof (CompositeFg_call_skip (H := mmcv files) composite_fg
                channel_sample skipped _ _ 2 1 eq_refl eq_refl eq_refl Hb)
    as Hcall.
  eexists _, _. split; [exact Hcall|].
  eapply (CompositeFg_call_again (H := mmcv files) composite_fg composite_fg
            channel_sample _ skipped _ taken);
    [reflexivity| |exact Hcall]. simpl. lia.
Defined.

Lemma CompositeFg_init_stems_witness :
  ∃ self,
    CompositeFg_init (H := scan dirs) "fg" "alpha" "png" "png" "nearest"
      = Ok self ∧
    (λ stem, stem +:+ "." +:+ "png") <$> stem_list self = ["a.png"; "b.png"].
Proof.
  destruct (CompositeFg_init_stems (H := scan dirs) "fg" "alpha" "png" "png"
              "nearest" ["a.png"; "b.png"])
    as (self & Hinit & _ & _ & Hext & _ & _ & Hstems).
  - vm_compute; reflexivity.
  - split; reflexivity.
  - apply Forall_cons; split; [exists "a"; split; reflexivity|].
    apply Forall_cons; split; [exists "b"; split; reflexivity|].
    apply Forall_nil; exact I.
  - exists self. split; [exact Hinit|]. by rewrite Hext in Hstems.
Defined.

Lemma get_stem_list_prefixes_witness :
  ∃ stems,
    get_stem_list (H := scan dirs) "odd" "png" = Ok stems ∧
    Forall2 (λ stem name,
               String.prefix stem name = true ∧
               (rfind extsep name = (-1)%Z →
                  stem = name ∧ stem +:+ "." +:+ "png" ≠ name))
            stems ["a.png"; "apng"].
Proof.
  apply (get_stem_list_prefixes (H := scan dirs) "odd" "png").
  vm_compute; reflexivity.
Defined.

Lemma blend_fg_extremes_witness :
  ∃ blended,
    blend_fg (U8 extreme_fg) (U8 extreme_bg)
      (div_scalar (astype_float32 (U8 extreme_alpha)) 255) = Ok blended ∧
    item blended [0; 0; 1] = of_Z 20 ∧ item blended [0; 1; 2] = of_Z 120.
Proof.
  destruct (blend_fg_extremes extreme_fg extreme_bg extreme_alpha 1 2)
    as (blended & Hblend & Hitem);
    try reflexivity; try (repeat constructor; lia).
  exists blended. split; [exact Hblend|]. split.
  - destruct (Hitem 0 0 1) as [H255 _]; [lia..|]. by apply H255.
  - destruct (Hitem 0 1 2) as [_ H0]; [lia..|]. by apply H0.
Defined.

End more_runs.
